(** * ZeroTrace: secure file wiping and deletion certificates

    A shallow embedding of the wiping core of the repository
    (backend/core/nist_algorithms.py, backend/core/wiping_engine.py,
    backend/core/certificate.py, backend/utils/validation.py and the
    platform handlers) together with the properties its specification
    states about it, and of the helpers it rests on
    (backend/utils/helpers.py, the audit log of backend/utils/logging.py)
    with further properties of the code.

    Python code that touches the file system is embedded in a state and
    exception monad over an explicit [World]: the name space of the file
    system, the observable trace of system calls and progress reports, and
    the oracles of the environment (I/O faults, wall clock, entropy source,
    external stop requests).

    The name space maps the name of each entry, an absolute and
    normalised path, to its node.  A path handed to the code is looked up
    by its text, and a symbolic link is followed to the text of its
    target: the embedding speaks of calls whose paths, and link targets,
    are spelled as the names are.  Every regular file has one name (hard
    links are left out), and the arguments have the types of the
    annotations of the code: a path or a method is a string, a list of
    files a list of strings. *)

From Stdlib Require Import ZArith QArith List String Ascii Lia Bool.
From stdpp Require Import base gmap strings list pretty sorting.

Set Warnings "-register-all".
Local Open Scope Z_scope.

(** ** Python values and exceptions *)

(** The exceptions (subclasses of [Exception]) the embedded code can meet;
    [str_exn] is [str(e)]. *)
Inductive exn :=
| OSError (msg : string)
| ValueError (msg : string)
| TypeError (msg : string)
| KeyError (msg : string)
| AttributeError (msg : string)
| ZeroDivisionError (msg : string)
| RuntimeError (msg : string).

Definition str_exn (e : exn) : string :=
  match e with
  | OSError m | ValueError m | TypeError m
  | KeyError m | AttributeError m | ZeroDivisionError m
  | RuntimeError m => m
  end.

Inductive result (A : Type) :=
| Ok (a : A)
| Raise (e : exn).
Arguments Ok {A} a.
Arguments Raise {A} e.

(** The values held by the dict-shaped results of the wiping engine and by
    certificates: [None], booleans, integers, floats (as exact rationals),
    strings, lists and string-keyed dicts. *)
Inductive json :=
| JNull
| JBool (b : bool)
| JInt (z : Z)
| JFloat (q : Q)
| JStr (s : string)
| JList (l : list json)
| JDict (d : gmap string json).

Abbreviation dict := (gmap string json).

(** ** The world *)

(** What the process may do with a node: read it, write it.  For a
    directory, [w_ok] is the right to add and remove names in it. *)
Record perms := { r_ok : bool; w_ok : bool }.

(** A directory entry: a regular file with its bytes, a directory, a
    symbolic link with its target, or another kind of node (fifo, socket,
    device). *)
Inductive node :=
| File (data : list Byte.byte) (mode : perms)
| Dir (mode : perms)
| Link (target : string)
| Other (mode : perms).

Inductive open_mode := ReadWriteBinary | ReadBinary.

(** What an observer of the process sees: system calls on files and the
    values handed to the progress callback. *)
Inductive event :=
| EvOpen (path : string) (mode : open_mode)
| EvWrite (path : string) (offset : Z) (data : list Byte.byte)
| EvSync (path : string)
| EvUnlink (path : string)
| EvProgress (percent : Q).

(** A point in time with its [isoformat()] and
    [strftime('%Y%m%d_%H%M%S')] renderings. *)
Record datetime := { micros : Z; iso : string; compact : string }.

(** [ticks] counts the interactions with the environment so far; the
    oracles are indexed by it.  [faults t] says that the system call issued
    at tick [t] fails, [entropy t i] is byte [i] of the random block drawn at
    tick [t], [interrupt i] says that an external handler calls
    [emergency_stop()] once [i] files of the running batch have been
    processed.  Each event of [trace] (oldest first) carries the tick at
    which it happened. *)
Record World := {
  fs : gmap string node;
  ticks : nat;
  faults : nat -> bool;
  wallclock : nat -> datetime;
  entropy : nat -> nat -> Byte.byte;
  interrupt : nat -> bool;
  cancel_requested : bool;
  trace : list (nat * event)
}.

Definition set_fs (m : gmap string node) (w : World) : World :=
  {| fs := m; ticks := ticks w; faults := faults w; wallclock := wallclock w;
     entropy := entropy w; interrupt := interrupt w;
     cancel_requested := cancel_requested w; trace := trace w |}.

Definition tick (w : World) : World :=
  {| fs := fs w; ticks := S (ticks w); faults := faults w;
     wallclock := wallclock w; entropy := entropy w; interrupt := interrupt w;
     cancel_requested := cancel_requested w; trace := trace w |}.

Definition set_cancel (b : bool) (w : World) : World :=
  {| fs := fs w; ticks := ticks w; faults := faults w; wallclock := wallclock w;
     entropy := entropy w; interrupt := interrupt w;
     cancel_requested := b; trace := trace w |}.

Definition emit (e : event) (w : World) : World :=
  {| fs := fs w; ticks := ticks w; faults := faults w; wallclock := wallclock w;
     entropy := entropy w; interrupt := interrupt w;
     cancel_requested := cancel_requested w;
     trace := trace w ++ [(ticks w, e)] |}.

(** ** The monad of Python code: state and exceptions

    A raised exception keeps the state reached so far, as in Python. *)
Definition ST (S A : Type) : Type := S -> result A * S.

Definition ret {S A} (a : A) : ST S A := fun s => (Ok a, s).

Definition bind {S A B} (m : ST S A) (k : A -> ST S B) : ST S B :=
  fun s => match m s with
           | (Ok a, s1) => k a s1
           | (Raise e, s1) => (Raise e, s1)
           end.

Definition raise {S A} (e : exn) : ST S A := fun s => (Raise e, s).

(** [try: body except Exception as e: handler e] *)
Definition try_except {S A} (body : ST S A) (handler : exn -> ST S A) : ST S A :=
  fun s => match body s with
           | (Ok a, s1) => (Ok a, s1)
           | (Raise e, s1) => handler e s1
           end.

#[global] Instance ST_ret {S} : MRet (ST S) := @ret S.
#[global] Instance ST_bind {S} : MBind (ST S) := fun A B k m => bind m k.

(** Code that only acts on the world. *)
Abbreviation M := (ST World).

(** Code of a function that builds its result in a local dict [result]:
    the dict is part of the state, so that the updates made before an
    exception are seen by the handler. *)
Abbreviation ML := (ST (dict * World)).

Definition liftW {A} (m : M A) : ML A :=
  fun s => match m (snd s) with (r, w1) => (r, (fst s, w1)) end.

(** [result[key] = v] and [result[key]] *)
Definition setitem (key : string) (v : json) : ML unit :=
  fun s => (Ok tt, (<[key := v]> (fst s), snd s)).

Definition getitem (key : string) : ML json :=
  fun s => match fst s !! key with
           | Some v => (Ok v, s)
           | None => (Raise (KeyError key), s)
           end.

(** [result[key].append(v)] *)
Definition append_item (key : string) (v : json) : ML unit :=
  fun s => match fst s !! key with
           | Some (JList l) => (Ok tt, (<[key := JList (l ++ [v])]> (fst s), snd s))
           | Some _ => (Raise (AttributeError "append"), s)
           | None => (Raise (KeyError key), s)
           end.

(** [result[key] += 1] *)
Definition incr_item (key : string) : ML unit :=
  fun s => match fst s !! key with
           | Some (JInt n) => (Ok tt, (<[key := JInt (n + 1)]> (fst s), snd s))
           | Some _ => (Raise (TypeError "unsupported operand"), s)
           | None => (Raise (KeyError key), s)
           end.

(** Runs a function body on its initial local dict; the function returns
    that dict ([return result]). *)
Definition returning_result (init : dict) (body : ML unit) : M dict :=
  fun w => match body (init, w) with
           | (Ok _, s1) => (Ok (fst s1), snd s1)
           | (Raise e, s1) => (Raise e, snd s1)
           end.

(** Python truthiness of a value. *)
Definition truthy (v : json) : bool :=
  match v with
  | JNull => false
  | JBool b => b
  | JInt z => negb (z =? 0)
  | JFloat q => negb (Qeq_bool q 0)
  | JStr s => negb (String.eqb s "")
  | JList l => if l is [] then false else true
  | JDict d => negb (bool_decide (d = ∅))
  end.

(** [d[key]] on a dict that is a value *)
Definition dict_getitem {S} (d : dict) (key : string) : ST S json :=
  match d !! key with
  | Some v => mret v
  | None => raise (KeyError key)
  end.

(** [d.get(key, default)] *)
Definition dict_get (d : dict) (key : string) (default : json) : json :=
  match d !! key with Some v => v | None => default end.

(** ** System calls *)

(** A fallible system call: it consumes a tick, and fails with [OSError]
    when the fault oracle says so. *)
Definition syscall {A} (op : M A) : M A :=
  fun w => if faults w (ticks w)
           then (Raise (OSError "Input/output error"), tick w)
           else op (tick w).

(** Path resolution follows symbolic links, up to the kernel's limit.  A
    path is the key of its entry. *)
Definition SYMLOOP_MAX : nat := 40.

Fixpoint resolve (fuel : nat) (m : gmap string node) (p : string)
  : option (string * node) :=
  match m !! p with
  | None => None
  | Some (Link t) =>
      match fuel with
      | O => None
      | S fuel' => resolve fuel' m t
      end
  | Some nd => Some (p, nd)
  end.

Definition lookup_path (m : gmap string node) (p : string) :=
  resolve SYMLOOP_MAX m p.

(** [Path(p).exists()], [is_file()], [is_dir()] follow links;
    [is_symlink()] does not. *)
Definition exists_in (m : gmap string node) (p : string) : bool :=
  match lookup_path m p with Some _ => true | None => false end.

Definition is_file_in (m : gmap string node) (p : string) : bool :=
  match lookup_path m p with Some (_, File _ _) => true | _ => false end.

Definition is_dir_in (m : gmap string node) (p : string) : bool :=
  match lookup_path m p with Some (_, Dir _) => true | _ => false end.

Definition is_symlink_in (m : gmap string node) (p : string) : bool :=
  match m !! p with Some (Link _) => true | _ => false end.

(** [Path(p).stat().st_size]: the number of bytes of a regular file, one
    block of the file system for a directory, nothing for a fifo, socket
    or device. *)
Definition DIR_SIZE : Z := 4096.

Definition st_size (m : gmap string node) (p : string) : option Z :=
  match lookup_path m p with
  | Some (_, File data _) => Some (Z.of_nat (length data))
  | Some (_, Dir _) => Some DIR_SIZE
  | Some _ => Some 0
  | None => None
  end.

Definition node_mode (nd : node) : perms :=
  match nd with
  | File _ md | Dir md | Other md => md
  | Link _ => {| r_ok := true; w_ok := true |}
  end.

Definition path_exists (p : string) : M bool :=
  syscall (fun w => (Ok (exists_in (fs w) p), w)).

Definition path_is_file (p : string) : M bool :=
  syscall (fun w => (Ok (is_file_in (fs w) p), w)).

Definition path_is_dir (p : string) : M bool :=
  syscall (fun w => (Ok (is_dir_in (fs w) p), w)).

Definition path_is_symlink (p : string) : M bool :=
  syscall (fun w => (Ok (is_symlink_in (fs w) p), w)).

Definition path_stat_size (p : string) : M Z :=
  syscall (fun w => match st_size (fs w) p with
                    | Some n => (Ok n, w)
                    | None => (Raise (OSError "No such file or directory"), w)
                    end).

(** An open file object: the name it was opened by, the entry it resolved
    to and the current position. *)
Record handle := { h_name : string; h_key : string; h_pos : Z }.

Definition may_open (md : open_mode) (pm : perms) : bool :=
  match md with
  | ReadWriteBinary => r_ok pm && w_ok pm
  | ReadBinary => r_ok pm
  end.

Definition open_file (p : string) (md : open_mode) : M handle :=
  syscall (fun w =>
    match lookup_path (fs w) p with
    | None => (Raise (OSError "No such file or directory"), w)
    | Some (_, Dir _) => (Raise (OSError "Is a directory"), w)
    | Some (k, nd) =>
        if may_open md (node_mode nd)
        then (Ok {| h_name := p; h_key := k; h_pos := 0 |}, emit (EvOpen p md) w)
        else (Raise (OSError "Permission denied"), w)
    end).

(** Writing [data] at position [pos] of [old]: bytes inside the file are
    replaced, a write past the end extends it. *)
Definition overwrite_at (pos : nat) (data old : list Byte.byte) : list Byte.byte :=
  take pos old ++ replicate (pos - length old) Byte.x00 ++ data
    ++ drop (pos + length data) old.

Definition f_write (f : handle) (data : list Byte.byte) : M handle :=
  syscall (fun w =>
    let w1 := emit (EvWrite (h_name f) (h_pos f) data) w in
    let f1 := {| h_name := h_name f; h_key := h_key f;
                 h_pos := h_pos f + Z.of_nat (length data) |} in
    match fs w !! h_key f with
    | Some (File old pm) =>
        (Ok f1, set_fs (<[h_key f := File (overwrite_at (Z.to_nat (h_pos f)) data old) pm]> (fs w)) w1)
    | _ => (Ok f1, w1)
    end).

Definition f_flush (f : handle) : M unit :=
  syscall (fun w => (Ok tt, w)).

Definition os_fsync (f : handle) : M unit :=
  syscall (fun w => (Ok tt, emit (EvSync (h_name f)) w)).

(** [f.seek(pos)] from the start of the file. *)
Definition f_seek (f : handle) (pos : Z) : M handle :=
  syscall (fun w =>
    if pos <? 0 then (Raise (OSError "Invalid argument"), w)
    else (Ok {| h_name := h_name f; h_key := h_key f; h_pos := pos |}, w)).

Definition file_length (m : gmap string node) (k : string) : Z :=
  match m !! k with
  | Some (File data _) => Z.of_nat (length data)
  | _ => 0
  end.

(** [f.seek(offset, 2)] from the end of the file. *)
Definition f_seek_end (f : handle) (offset : Z) : M handle :=
  syscall (fun w =>
    let pos := file_length (fs w) (h_key f) + offset in
    if pos <? 0 then (Raise (OSError "Invalid argument"), w)
    else (Ok {| h_name := h_name f; h_key := h_key f; h_pos := pos |}, w)).

(** [f.read(n)] *)
Definition f_read (f : handle) (n : Z) : M (list Byte.byte * handle) :=
  syscall (fun w =>
    let got := match fs w !! h_key f with
               | Some (File data _) =>
                   take (Z.to_nat n) (drop (Z.to_nat (h_pos f)) data)
               | _ => []
               end in
    (Ok (got, {| h_name := h_name f; h_key := h_key f;
                 h_pos := h_pos f + Z.of_nat (length got) |}), w)).

(** [Path(p)] keeps the root and the components of [p] that are neither
    empty nor [.]: repeated and trailing slashes are dropped.  [split_path]
    cuts the text at the slashes; [cur] holds the characters of the
    component being read, last first. *)
Fixpoint split_path (s : string) (cur : list ascii) : list string :=
  match s with
  | EmptyString => [string_of_list_ascii (rev cur)]
  | String c s' =>
      if Ascii.eqb c "/" then string_of_list_ascii (rev cur) :: split_path s' []
      else split_path s' (c :: cur)
  end.

Definition path_parts (p : string) : list string :=
  List.filter (fun c => negb (String.eqb c "") && negb (String.eqb c "."))
              (split_path p []).

(** The root of a POSIX path: exactly two leading slashes are kept, any
    other number of them is one slash. *)
Definition path_root (p : string) : string :=
  match p with
  | String "/" (String "/" (String "/" _)) => "/"
  | String "/" (String "/" _) => "//"
  | String "/" _ => "/"
  | _ => ""
  end.

(** [str(path)] of a root and components. *)
Definition path_str (root : string) (parts : list string) : string :=
  match root, parts with
  | EmptyString, [] => "."
  | _, _ => root ++ String.concat "/" parts
  end.

(** [str(Path(p).parent)]: the path without its last component; a path
    without components is its own parent. *)
Definition path_parent (p : string) : string :=
  path_str (path_root p) (removelast (path_parts p)).

(** Removing a name takes write permission on the directory that holds
    it. *)
Definition holder_writable (m : gmap string node) (p : string) : bool :=
  match lookup_path m (path_parent p) with
  | Some (_, Dir md) => w_ok md
  | _ => false
  end.

(** [Path(p).unlink()] removes the entry itself, never the target of a
    link. *)
Definition unlink (p : string) : M unit :=
  syscall (fun w =>
    match fs w !! p with
    | None => (Raise (OSError "No such file or directory"), w)
    | Some (Dir _) => (Raise (OSError "Is a directory"), w)
    | Some _ =>
        if holder_writable (fs w) p
        then (Ok tt, set_fs (delete p (fs w)) (emit (EvUnlink p) w))
        else (Raise (OSError "Permission denied"), w)
    end).

Definition entries (m : gmap string node) : list string := (map_to_list m).*1.

(** [folder.iterdir()]: the entries directly inside a directory. *)
Definition iterdir (folder : string) : M (list string) :=
  syscall (fun w =>
    match lookup_path (fs w) folder with
    | Some (_, Dir md) =>
        if r_ok md
        then (Ok (filter (fun k => path_parent k = folder ∧ k ≠ folder)
                    (entries (fs w))), w)
        else (Raise (OSError "Permission denied"), w)
    | Some _ => (Raise (OSError "Not a directory"), w)
    | None => (Raise (OSError "No such file or directory"), w)
    end).

(** [folder.rglob('*')]: all the entries below a directory. *)
Definition rglob_all (folder : string) : M (list string) :=
  syscall (fun w =>
    match lookup_path (fs w) folder with
    | Some (_, Dir md) =>
        if r_ok md
        then (Ok (filter (fun k => String.prefix (folder ++ "/") k = true)
                    (entries (fs w))), w)
        else (Raise (OSError "Permission denied"), w)
    | Some _ => (Raise (OSError "Not a directory"), w)
    | None => (Raise (OSError "No such file or directory"), w)
    end).

(** [item.rmdir()]: only an empty directory can be removed. *)
Definition rmdir (p : string) : M unit :=
  syscall (fun w =>
    match fs w !! p with
    | Some (Dir _) =>
        if filter (fun k => path_parent k = p ∧ k ≠ p) (entries (fs w)) is []
        then if holder_writable (fs w) p
             then (Ok tt, set_fs (delete p (fs w)) w)
             else (Raise (OSError "Permission denied"), w)
        else (Raise (OSError "Directory not empty"), w)
    | Some _ => (Raise (OSError "Not a directory"), w)
    | None => (Raise (OSError "No such file or directory"), w)
    end).

(** [os.access(p, mode)] never raises: any error reads as [False]. *)
Definition os_access (p : string) (want : perms -> bool) : M bool :=
  fun w => if faults w (ticks w) then (Ok false, tick w)
           else match lookup_path (fs w) p with
                | Some (_, nd) => (Ok (want (node_mode nd)), tick w)
                | None => (Ok false, tick w)
                end.

(** [for x in xs: body x] *)
Fixpoint for_each {S A} (xs : list A) (body : A -> ST S unit) : ST S unit :=
  match xs with
  | [] => mret tt
  | x :: rest => body x;; for_each rest body
  end.

(** [[x for x in xs if keep x]] *)
Fixpoint filter_m {S A} (keep : A -> ST S bool) (xs : list A) : ST S (list A) :=
  match xs with
  | [] => mret []
  | x :: rest =>
      b ← keep x;
      kept ← filter_m keep rest;
      mret (if (b : bool) then x :: kept else kept)
  end.

(** [secrets.token_bytes(n)] draws a fresh block from the entropy source. *)
Definition block_at (w : World) (t : nat) (n : nat) : list Byte.byte :=
  map (entropy w t) (seq 0 n).

Definition token_bytes (n : Z) : M (list Byte.byte) :=
  fun w => (Ok (block_at w (ticks w) (Z.to_nat n)), tick w).

(** [datetime.now()] *)
Definition datetime_now : M datetime :=
  fun w => (Ok (wallclock w (ticks w)), tick w).

(** [a / b] on integers: true division. *)
Definition truediv (a b : Z) : M Q :=
  if b =? 0 then raise (ZeroDivisionError "division by zero")
  else mret (inject_Z a / inject_Z b)%Q.

(** [x / b] on a float and an integer. *)
Definition fdiv (x : Q) (b : Z) : M Q :=
  if b =? 0 then raise (ZeroDivisionError "float division by zero")
  else mret (x / inject_Z b)%Q.

(** [pattern * n] on bytes. *)
Definition bytes_mul (pattern : list Byte.byte) (n : Z) : list Byte.byte :=
  concat (replicate (Z.to_nat n) pattern).

(** A progress callback is code of the caller: it acts on the world and
    may raise.  [record_progress] is the callback that records its
    argument. *)
Definition callback : Type := Q -> M unit.

Definition call (k : callback) (percent : Q) : M unit := k percent.

Definition record_progress : callback :=
  fun percent w => (Ok tt, emit (EvProgress percent) w).

(** ** backend/core/nist_algorithms.py *)

Module NISTAlgorithms.

Definition BLOCK_SIZE : Z := 65536.

(** The [while bytes_written < file_size] loop shared by [clear_method] and
    [_overwrite_pass]: [gen chunk_size] produces the block to write and
    [report bytes_written] is the progress update.  A chunk holds at least
    one byte, so [file_size] iterations are enough fuel
    (see [block_loop_rule]). *)
Fixpoint block_loop (fuel : nat) (gen : Z -> M (list Byte.byte))
    (report : Z -> M unit) (file_size : Z) (f : handle) (bytes_written : Z)
  : M Z :=
  match fuel with
  | O => mret bytes_written
  | S fuel' =>
      if bytes_written <? file_size then
        let chunk_size := Z.min BLOCK_SIZE (file_size - bytes_written) in
        data ← gen chunk_size;
        f1 ← f_write f data;
        let bytes_written := bytes_written + chunk_size in
        report bytes_written;;
        block_loop fuel' gen report file_size f1 bytes_written
      else mret bytes_written
  end.

Definition clear_progress (progress_callback : option callback)
    (file_size bytes_written : Z) : M unit :=
  match progress_callback with
  | Some cb =>
      ratio ← truediv bytes_written file_size;
      call cb (ratio * 100)%Q
  | None => mret tt
  end.

(** [clear_method]: a single pass of zeros, then the file is removed. *)
Definition clear_method (file_path : string)
    (progress_callback : option callback) : M bool :=
  try_except
    (present ← path_exists file_path;
     if negb present then mret false
     else
       file_size ← path_stat_size file_path;
       f ← open_file file_path ReadWriteBinary;
       block_loop (Z.to_nat file_size)
         (fun chunk_size => mret (bytes_mul [Byte.x00] chunk_size))
         (clear_progress progress_callback file_size)
         file_size f 0;;
       f_flush f;;
       os_fsync f;;
       unlink file_path;;
       mret true)
    (fun _ => mret false).

(** [_overwrite_pass]: one pass of a fixed pattern, or of random bytes when
    [pattern] is [None] (or empty). *)
Definition pass_data (pattern : option (list Byte.byte)) (chunk_size : Z)
  : M (list Byte.byte) :=
  match pattern with
  | Some (b :: p) => mret (bytes_mul (b :: p) chunk_size)
  | _ => token_bytes chunk_size
  end.

Definition pass_progress_report (progress_callback : option callback)
    (file_size pass_num total_passes bytes_written : Z) : M unit :=
  match progress_callback with
  | Some cb =>
      pass_progress ← truediv (pass_num - 1) total_passes;
      ratio ← truediv bytes_written file_size;
      current_progress ← fdiv ratio total_passes;
      call cb ((pass_progress + current_progress) * 100)%Q
  | None => mret tt
  end.

Definition _overwrite_pass (file_path : string) (file_size : Z)
    (pattern : option (list Byte.byte)) (pass_num total_passes : Z)
    (progress_callback : option callback) : M bool :=
  try_except
    (f ← open_file file_path ReadWriteBinary;
     block_loop (Z.to_nat file_size) (pass_data pattern)
       (pass_progress_report progress_callback file_size pass_num total_passes)
       file_size f 0;;
     f_flush f;;
     os_fsync f;;
     mret true)
    (fun _ => mret false).

(** [_verify_overwrite]: reads up to three samples and reports whether one
    of them could be read. *)
Definition _verify_overwrite (file_path : string) : M bool :=
  try_except
    (file_size ← path_stat_size file_path;
     if file_size =? 0 then mret true
     else
       f ← open_file file_path ReadBinary;
       '(first_block, f) ← f_read f (Z.min 1024 file_size);
       let samples_verified := if first_block is [] then 0 else 1 in
       '(samples_verified, f) ←
         (if 2048 <? file_size then
            f ← f_seek f (file_size / 2);
            '(middle_block, f) ← f_read f (Z.min 1024 (file_size / 2));
            mret (if middle_block is [] then samples_verified
                  else samples_verified + 1, f)
          else mret (samples_verified, f));
       samples_verified ←
         (if 1024 <? file_size then
            f ← f_seek_end f (-1024);
            '(last_block, f) ← f_read f 1024;
            mret (if last_block is [] then samples_verified
                  else samples_verified + 1)
          else mret samples_verified);
       mret (0 <? samples_verified))
    (fun _ => mret false).

(** The pattern of a pass of [purge_method]: zeros, ones, then random. *)
Definition pass_pattern (pass_num : Z) : option (list Byte.byte) :=
  if pass_num =? 1 then Some [Byte.x00]
  else if pass_num =? 2 then Some [Byte.xff]
  else None.

(** [range(a, b)] *)
Definition py_range (a b : Z) : list Z :=
  map (fun i => a + Z.of_nat i) (seq 0 (Z.to_nat (b - a))).

(** The [for pass_num in range(1, passes + 1)] loop; [false] stands for
    the [return False] taken when a pass fails. *)
Fixpoint purge_passes (pass_nums : list Z) (file_path : string)
    (file_size passes : Z) (progress_callback : option callback) : M bool :=
  match pass_nums with
  | [] => mret true
  | pass_num :: rest =>
      ok ← _overwrite_pass file_path file_size (pass_pattern pass_num)
             pass_num passes progress_callback;
      if negb ok then mret false
      else purge_passes rest file_path file_size passes progress_callback
  end.

(** [purge_method]: the outcome of [_verify_overwrite] is only logged. *)
Definition purge_method (file_path : string) (passes : Z)
    (progress_callback : option callback) : M bool :=
  try_except
    (present ← path_exists file_path;
     if negb present then mret false
     else
       file_size ← path_stat_size file_path;
       completed ← purge_passes (py_range 1 (passes + 1)) file_path
                     file_size passes progress_callback;
       if negb completed then mret false
       else
         _verify_overwrite file_path;;
         unlink file_path;;
         mret true)
    (fun _ => mret false).

(** [verify_wipe]: the file is gone. *)
Definition verify_wipe (file_path : string) : M bool :=
  try_except
    (present ← path_exists file_path; mret (negb present))
    (fun _ => mret false).

End NISTAlgorithms.

(** ** backend/core/wiping_engine.py *)

Module WipingEngine.

Import NISTAlgorithms.

Definition get_cancel : M bool := fun w => (Ok (cancel_requested w), w).

(** [emergency_stop()] and [reset_cancel()] *)
Definition emergency_stop : M unit := fun w => (Ok tt, set_cancel true w).
Definition reset_cancel : M unit := fun w => (Ok tt, set_cancel false w).

(** The environment between two files of a batch: the external handler
    may call [emergency_stop()]. *)
Definition poll_interrupt (idx : nat) : M unit :=
  fun w => if interrupt w idx then emergency_stop w else (Ok tt, w).

(** [(end_time - start_time).total_seconds()] *)
Definition total_seconds (start_time end_time : datetime) : Q :=
  (inject_Z (micros end_time - micros start_time) / 1000000)%Q.

(** The [finally] block shared by the three operations. *)
Definition stamp_end (start_time : datetime) : ML unit :=
  end_time ← liftW datetime_now;
  setitem "end_time" (JStr (iso end_time));;
  setitem "duration" (JFloat (total_seconds start_time end_time)).

(** [try: body except Exception as e: handler e finally: cleanup]; here
    neither the handlers nor the cleanup raise. *)
Definition try_except_finally {S A} (body : ST S A) (handler : exn -> ST S A)
    (cleanup : ST S unit) : ST S A :=
  fun s => match try_except body handler s with
           | (r, s1) => match cleanup s1 with
                        | (Ok _, s2) => (r, s2)
                        | (Raise e, s2) => (Raise e, s2)
                        end
           end.

Definition wipe_file (file_path method : string)
    (progress_callback : option callback) : M dict :=
  start_time ← datetime_now;
  returning_result
    (<["file" := JStr file_path]> (<["method" := JStr method]>
     (<["success" := JBool false]> (<["error" := JNull]>
     (<["start_time" := JStr (iso start_time)]> (<["end_time" := JNull]>
     (<["duration" := JNull]> ∅)))))))
    (try_except_finally
       (present ← liftW (path_exists file_path);
        if negb present then setitem "error" (JStr "File does not exist")
        else
          cancelled ← liftW get_cancel;
          if (cancelled : bool) then setitem "error" (JStr "Operation cancelled")
          else
            file_size ← liftW (path_stat_size file_path);
            let finish (success : bool) : ML unit :=
              setitem "success" (JBool success);;
              if success then
                verified ← liftW (verify_wipe file_path);
                setitem "verified" (JBool verified)
              else mret tt in
            if String.eqb method "clear" then
              success ← liftW (clear_method file_path progress_callback);
              finish success
            else if String.eqb method "purge" then
              success ← liftW (purge_method file_path 7 progress_callback);
              finish success
            else
              setitem "error" (JStr ("Unknown method: " ++ method)))
       (fun e => setitem "error" (JStr (str_exn e)))
       (stamp_end start_time)).

(** [_remove_empty_dirs]; the interpreter bounds the depth of the
    recursion. *)
Definition RECURSION_LIMIT : nat := 1000.

Fixpoint _remove_empty_dirs (depth : nat) (folder : string) : M unit :=
  match depth with
  | O => raise (RuntimeError "maximum recursion depth exceeded")
  | S depth' =>
      items ← iterdir folder;
      for_each items (fun item =>
        is_dir ← path_is_dir item;
        if (is_dir : bool) then
          _remove_empty_dirs depth' item;;
          try_except (rmdir item)
            (fun e => if e is OSError _ then mret tt else raise e)
        else mret tt)
  end.

(** The progress update of the two batch loops. *)
Definition batch_progress (progress_callback : option callback)
    (idx : nat) (total : Z) : M unit :=
  match progress_callback with
  | Some cb =>
      ratio ← truediv (Z.of_nat idx) total;
      call cb (ratio * 100)%Q
  | None => mret tt
  end.

(** The [for idx, file_path in enumerate(files_to_wipe)] loop of
    [wipe_folder]; [total] is [len(files_to_wipe)]. *)
Fixpoint folder_loop (files : list string) (idx : nat) (total : Z)
    (method : string) (progress_callback : option callback) : ML unit :=
  match files with
  | [] => mret tt
  | file_path :: rest =>
      liftW (poll_interrupt idx);;
      cancelled ← liftW get_cancel;
      if (cancelled : bool) then
        append_item "errors" (JStr "Operation cancelled by user")
      else
        liftW (batch_progress progress_callback idx total);;
        file_result ← liftW (wipe_file file_path method None);
        success ← dict_getitem file_result "success";
        (if truthy success then incr_item "successful"
         else
           incr_item "failed";;
           append_item "errors"
             (JDict (<["file" := JStr file_path]>
                     (<["error" := dict_get file_result "error"
                                     (JStr "Unknown error")]> ∅))));;
        folder_loop rest (S idx) total method progress_callback
  end.

Definition wipe_folder (folder_path method : string) (recursive : bool)
    (progress_callback : option callback) : M dict :=
  start_time ← datetime_now;
  returning_result
    (<["folder" := JStr folder_path]> (<["method" := JStr method]>
     (<["recursive" := JBool recursive]> (<["total_files" := JInt 0]>
     (<["successful" := JInt 0]> (<["failed" := JInt 0]>
     (<["errors" := JList []]>
     (<["start_time" := JStr (iso start_time)]> (<["end_time" := JNull]>
     (<["duration" := JNull]> ∅))))))))))
    (try_except_finally
       (present ← liftW (path_exists folder_path);
        is_dir ← (if (present : bool) then liftW (path_is_dir folder_path)
                  else mret false);
        if negb is_dir then
          append_item "errors"
            (JStr "Folder does not exist or is not a directory")
        else
          items ← liftW (if recursive then rglob_all folder_path
                         else iterdir folder_path);
          files_to_wipe ← liftW (filter_m path_is_file items);
          let total := Z.of_nat (length files_to_wipe) in
          setitem "total_files" (JInt total);;
          folder_loop files_to_wipe 0 total method progress_callback;;
          if recursive then
            liftW (try_except (_remove_empty_dirs RECURSION_LIMIT folder_path)
                     (fun _ => mret tt))
          else mret tt)
       (fun e => append_item "errors" (JStr (str_exn e)))
       (stamp_end start_time)).

(** The [for idx, file_path in enumerate(file_list)] loop of
    [wipe_selection]; [total] is [len(file_list)]. *)
Fixpoint selection_loop (files : list string) (idx : nat) (total : Z)
    (method : string) (progress_callback : option callback) : ML unit :=
  match files with
  | [] => mret tt
  | file_path :: rest =>
      liftW (poll_interrupt idx);;
      cancelled ← liftW get_cancel;
      if (cancelled : bool) then
        setitem "skipped" (JInt (total - Z.of_nat idx))
      else
        liftW (batch_progress progress_callback idx total);;
        file_result ← liftW (wipe_file file_path method None);
        append_item "files" (JDict file_result);;
        success ← dict_getitem file_result "success";
        (if truthy success then incr_item "successful"
         else incr_item "failed");;
        selection_loop rest (S idx) total method progress_callback
  end.

(** [len(file_list)] is evaluated where the result dict is built, before
    the [try] block: it is the length of the list. *)
Definition wipe_selection (file_list : list string) (method : string)
    (progress_callback : option callback) : M dict :=
  start_time ← datetime_now;
  let total := Z.of_nat (length file_list) in
  returning_result
    (<["method" := JStr method]> (<["total_files" := JInt total]>
     (<["successful" := JInt 0]> (<["failed" := JInt 0]>
     (<["skipped" := JInt 0]> (<["files" := JList []]>
     (<["start_time" := JStr (iso start_time)]> (<["end_time" := JNull]>
     (<["duration" := JNull]> ∅)))))))))
    (try_except_finally
       (selection_loop file_list 0 total method progress_callback)
       (fun e => append_item "files"
                   (JDict (<["error" := JStr (str_exn e)]> ∅)))
       (stamp_end start_time)).

End WipingEngine.

(** ** backend/platforms *)

Module Platforms.

(** [path.startswith(prefix)] *)
Definition startswith (path pre : string) : bool := String.prefix pre path.

(** What the validator needs of a platform handler. *)
Record platform_handler := {
  os_name : string;
  is_system_file : string -> bool
}.

(** The deny lists are searched in order:
    [for sys_path in system_paths: if path.startswith(sys_path): return True]. *)
Definition on_deny_list (system_paths : list string) (path : string) : bool :=
  existsb (startswith path) system_paths.

(** platform_windows.py: class [WindowsPlatform]. *)
Definition windows_system_paths : list string :=
  ["/bin/"; "/sbin/"; "/boot/"; "/dev/"; "/proc/"; "/sys/";
   "/lib/"; "/lib64/"; "/usr/bin/"; "/usr/sbin/"; "/usr/lib/";
   "/etc/fstab"; "/etc/passwd"; "/etc/shadow"; "/etc/group"].

Definition WindowsPlatform : platform_handler :=
  {| os_name := "Linux"; is_system_file := on_deny_list windows_system_paths |}.

(** platform_macos.py: class [MacOSPlatform]. *)
Definition macos_system_paths : list string :=
  ["/system/"; "/private/"; "/usr/bin/"; "/usr/sbin/";
   "/usr/lib/"; "/bin/"; "/sbin/"; "/boot/";
   "/library/extensions/"; "/system/library/";
   "/private/var/db/"; "/private/var/vm/"].

Definition MacOSPlatform : platform_handler :=
  {| os_name := "macOS"; is_system_file := on_deny_list macos_system_paths |}.

(** platform_windows.py: [_format_permissions]; each [flag] is one
    ['r' if mode & mask else '-']. *)
Definition flag (mode mask : Z) (letter : ascii) : ascii :=
  if Z.land mode mask =? 0 then "-"%char else letter.

Definition _format_permissions (mode : Z) : string :=
  string_of_list_ascii
    [flag mode 256 "r"; flag mode 128 "w"; flag mode 64 "x";
     flag mode 32 "r"; flag mode 16 "w"; flag mode 8 "x";
     flag mode 4 "r"; flag mode 2 "w"; flag mode 1 "x"].

End Platforms.

(** ** backend/utils/validation.py *)

Module Validator.

Import Platforms.

(** [str.lower()], on the ASCII letters. *)
Definition lower_ascii (c : ascii) : ascii :=
  let n := nat_of_ascii c in
  if (65 <=? n)%nat && (n <=? 90)%nat then ascii_of_nat (n + 32) else c.

Fixpoint lower (s : string) : string :=
  match s with
  | EmptyString => EmptyString
  | String c s' => String (lower_ascii c) (lower s')
  end.

(** ['\x00' in path or any(ord(c) < 32 for c in path if c not in '\t\n\r')] *)
Definition is_control (c : ascii) : bool :=
  let n := nat_of_ascii c in
  (n <? 32)%nat && negb ((n =? 9)%nat || (n =? 10)%nat || (n =? 13)%nat).

Definition has_invalid_characters (path : string) : bool :=
  existsb (fun c => (nat_of_ascii c =? 0)%nat) (list_ascii_of_string path)
  || existsb is_control (list_ascii_of_string path).

Definition validate_path (path : string) : M dict :=
  returning_result
    (<["valid" := JBool false]> (<["exists" := JBool false]>
     (<["accessible" := JBool false]> (<["type" := JNull]>
     (<["errors" := JList []]> ∅)))))
    (try_except
       (if has_invalid_characters path then
          append_item "errors" (JStr "Path contains invalid characters")
        else
          present ← liftW (path_exists path);
          if negb present then
            append_item "errors" (JStr "Path does not exist")
          else
            setitem "exists" (JBool true);;
            let check_access : ML unit :=
              readable ← liftW (os_access path r_ok);
              if negb readable then
                append_item "errors" (JStr "Path is not readable")
              else
                setitem "accessible" (JBool true);;
                setitem "valid" (JBool true) in
            is_file ← liftW (path_is_file path);
            if (is_file : bool) then
              setitem "type" (JStr "file");; check_access
            else
              is_dir ← liftW (path_is_dir path);
              if (is_dir : bool) then
                setitem "type" (JStr "directory");; check_access
              else
                is_symlink ← liftW (path_is_symlink path);
                if (is_symlink : bool) then
                  setitem "type" (JStr "symlink");;
                  append_item "errors" (JStr "Symbolic links are not supported")
                else
                  setitem "type" (JStr "unknown");;
                  append_item "errors" (JStr "Unknown path type"))
       (fun e => append_item "errors"
                   (JStr ("Validation error: " ++ str_exn e)))).

Definition validate_permissions (path : string) : M dict :=
  returning_result
    (<["can_delete" := JBool false]> (<["readable" := JBool false]>
     (<["writable" := JBool false]> (<["parent_writable" := JBool false]>
     (<["errors" := JList []]> ∅)))))
    (try_except
       (present ← liftW (path_exists path);
        if negb present then
          append_item "errors" (JStr "Path does not exist")
        else
          readable ← liftW (os_access path r_ok);
          setitem "readable" (JBool readable);;
          writable ← liftW (os_access path w_ok);
          setitem "writable" (JBool writable);;
          parent_writable ← liftW (os_access (path_parent path) w_ok);
          setitem "parent_writable" (JBool parent_writable);;
          if writable && parent_writable then
            setitem "can_delete" (JBool true)
          else
            (if negb writable then
               append_item "errors" (JStr "File is not writable")
             else mret tt);;
            (if negb parent_writable then
               append_item "errors" (JStr "Parent directory is not writable")
             else mret tt))
       (fun e => append_item "errors"
                   (JStr ("Permission check error: " ++ str_exn e)))).

(** [len(result[key])] *)
Definition len_item (key : string) : ML Z :=
  v ← getitem key;
  match v with
  | JList l => mret (Z.of_nat (length l))
  | JStr s => mret (Z.of_nat (String.length s))
  | JDict d => mret (Z.of_nat (size d))
  | _ => raise (TypeError "object has no len()")
  end.

(** The [for file_path in file_list] loop of [validate_selection]. *)
Definition check_file (platform_handler : option platform_handler)
    (file_path : string) : ML unit :=
  path_result ← liftW (validate_path file_path);
  valid ← dict_getitem path_result "valid";
  if negb (truthy valid) then
    reasons ← dict_getitem path_result "errors";
    append_item "invalid_files"
      (JDict (<["path" := JStr file_path]> (<["reasons" := reasons]> ∅)))
  else if match platform_handler with
          | Some handler => is_system_file handler (lower file_path)
          | None => false
          end then
    append_item "system_files" (JStr file_path);;
    append_item "warnings"
      (JStr ("WARNING: " ++ file_path ++ " appears to be a system file"))
  else
    perm_result ← liftW (validate_permissions file_path);
    can_delete ← dict_getitem perm_result "can_delete";
    if negb (truthy can_delete) then
      reasons ← dict_getitem perm_result "errors";
      append_item "invalid_files"
        (JDict (<["path" := JStr file_path]> (<["reasons" := reasons]> ∅)))
    else
      append_item "valid_files" (JStr file_path).

Definition validate_selection (file_list : list string)
    (platform_handler : option platform_handler) : M dict :=
  returning_result
    (<["valid" := JBool true]>
     (<["total_files" := JInt (Z.of_nat (length file_list))]>
     (<["valid_files" := JList []]> (<["invalid_files" := JList []]>
     (<["system_files" := JList []]> (<["warnings" := JList []]>
     (<["errors" := JList []]> ∅)))))))
    (if file_list is [] then
       setitem "valid" (JBool false);;
       append_item "errors" (JStr "No files selected")
     else
       for_each file_list (check_file platform_handler);;
       system_files ← getitem "system_files";
       (if truthy system_files then
          setitem "valid" (JBool false);;
          n ← len_item "system_files";
          append_item "errors"
            (JStr (pretty n ++ " system file(s) detected - deletion not allowed"))
        else mret tt);;
       n_valid ← len_item "valid_files";
       if n_valid =? 0 then
         setitem "valid" (JBool false);;
         append_item "errors" (JStr "No valid files to delete")
       else mret tt).

(** [validate_wipe_method]: [method.lower() in ['clear', 'purge']] *)
Definition validate_wipe_method (method : string) : bool :=
  bool_decide (lower method ∈ ["clear"; "purge"]).

End Validator.

(** ** backend/core/certificate.py *)

Module CertificateManager.

(** *** Library code the module calls *)

(** The [cryptography], [hashlib] and [json] functions used by the
    module.  [generate_private_key] and [sign] draw on the entropy of the
    tick they are called at and may fail; [json_dumps_sorted] is
    [json.dumps(data, sort_keys=True)], a function of the mapping alone
    since the keys are sorted. *)
Record Library := {
  private_key_t : Type;
  public_key_t : Type;
  generate_private_key : nat -> option private_key_t;
  public_key_of : private_key_t -> public_key_t;
  pss_sign : private_key_t -> nat -> string -> option (list Byte.byte);
  pss_verify : public_key_t -> list Byte.byte -> string -> bool;
  public_bytes_pem : public_key_t -> string;
  load_pem_public_key : string -> option public_key_t;
  json_dumps_sorted : json -> string;
  sha256_hexdigest : string -> string;
  str_upper : string -> string
}.

(** [bytes.hex()] and [bytes.fromhex(s)] *)
Definition hex_digit (n : nat) : ascii :=
  if (n <? 10)%nat then ascii_of_nat (48 + n) else ascii_of_nat (87 + n).

Definition hex_value (c : ascii) : option nat :=
  let n := nat_of_ascii c in
  if (48 <=? n)%nat && (n <=? 57)%nat then Some (n - 48)%nat
  else if (97 <=? n)%nat && (n <=? 102)%nat then Some (n - 87)%nat
  else if (65 <=? n)%nat && (n <=? 70)%nat then Some (n - 55)%nat
  else None.

Definition is_ascii_space (c : ascii) : bool :=
  let n := nat_of_ascii c in
  (n =? 32)%nat || ((9 <=? n)%nat && (n <=? 13)%nat).

Fixpoint bytes_hex (bs : list Byte.byte) : string :=
  match bs with
  | [] => EmptyString
  | b :: rest =>
      let n := nat_of_ascii (ascii_of_byte b) in
      String (hex_digit (n / 16)) (String (hex_digit (n mod 16)) (bytes_hex rest))
  end.

Fixpoint fromhex_chars (cs : list ascii) : option (list Byte.byte) :=
  match cs with
  | [] => Some []
  | c :: rest =>
      if is_ascii_space c then fromhex_chars rest
      else match hex_value c, rest with
           | Some hi, d :: rest' =>
               match hex_value d, fromhex_chars rest' with
               | Some lo, Some bs =>
                   Some (byte_of_ascii (ascii_of_nat (16 * hi + lo)) :: bs)
               | _, _ => None
               end
           | _, _ => None
           end
  end.

Definition bytes_fromhex {S} (v : json) : ST S (list Byte.byte) :=
  match v with
  | JStr s =>
      match fromhex_chars (list_ascii_of_string s) with
      | Some bs => mret bs
      | None => raise (ValueError "non-hexadecimal number found in fromhex() arg")
      end
  | _ => raise (TypeError "fromhex() argument must be str")
  end.

(** *** Names bound by the imports

    [from datetime import datetime] binds the name [datetime] to the class
    [datetime.datetime], not to the module. *)
Inductive pyobject :=
| Module_datetime
| Class_datetime
| Class_timedelta.

Definition attributes (o : pyobject) : list string :=
  match o with
  | Module_datetime =>
      ["MINYEAR"; "MAXYEAR"; "UTC"; "date"; "datetime"; "time"; "timedelta";
       "timezone"; "tzinfo"]
  | Class_datetime =>
      ["astimezone"; "combine"; "ctime"; "date"; "day"; "dst"; "fold";
       "fromisocalendar"; "fromisoformat"; "fromordinal"; "fromtimestamp";
       "hour"; "isocalendar"; "isoformat"; "isoweekday"; "max"; "microsecond";
       "min"; "minute"; "month"; "now"; "replace"; "resolution"; "second";
       "strftime"; "strptime"; "time"; "timestamp"; "timetuple"; "timetz";
       "today"; "toordinal"; "tzinfo"; "tzname"; "utcfromtimestamp"; "utcnow";
       "utcoffset"; "utctimetuple"; "weekday"; "year"]
  | Class_timedelta =>
      ["days"; "max"; "microseconds"; "min"; "resolution"; "seconds";
       "total_seconds"]
  end.

Definition getattr {S} (o : pyobject) (name : string) : ST S unit :=
  if bool_decide (name ∈ attributes o) then mret tt
  else raise (AttributeError ("object has no attribute '" ++ name ++ "'")).

(** The binding of the global name [datetime] in certificate.py. *)
Definition global_datetime : pyobject := Class_datetime.

Section WithLibrary.

Context (lib : Library).

(** *** State: the manager object and the certificate files

    [docs] maps the path of a file that holds JSON text to the value
    [json.load] reads from it. *)
Record State := {
  private_key : option (private_key_t lib);
  certificate : option (public_key_t lib);
  docs : gmap string json;
  c_ticks : nat;
  c_faults : nat -> bool;
  c_clock : nat -> datetime
}.

Abbreviation MC := (ST State).

Definition c_tick (s : State) : State :=
  {| private_key := private_key s; certificate := certificate s;
     docs := docs s; c_ticks := S (c_ticks s); c_faults := c_faults s;
     c_clock := c_clock s |}.

Definition set_private_key (k : option (private_key_t lib)) (s : State) : State :=
  {| private_key := k; certificate := certificate s;
     docs := docs s; c_ticks := c_ticks s; c_faults := c_faults s;
     c_clock := c_clock s |}.

Definition set_certificate (c : option (public_key_t lib)) (s : State) : State :=
  {| private_key := private_key s; certificate := c;
     docs := docs s; c_ticks := c_ticks s; c_faults := c_faults s;
     c_clock := c_clock s |}.

Definition set_docs (d : gmap string json) (s : State) : State :=
  {| private_key := private_key s; certificate := certificate s;
     docs := d; c_ticks := c_ticks s; c_faults := c_faults s;
     c_clock := c_clock s |}.

Definition now : MC datetime :=
  fun s => (Ok (c_clock s (c_ticks s)), c_tick s).

(** [with open(path, 'w') as f: json.dump(data, f, indent=2)] *)
Definition write_json (path : string) (data : json) : MC unit :=
  fun s => if c_faults s (c_ticks s)
           then (Raise (OSError "Input/output error"), c_tick s)
           else (Ok tt, set_docs (<[path := data]> (docs s)) (c_tick s)).

(** [with open(path, 'r') as f: json.load(f)] *)
Definition read_json (path : string) : MC json :=
  fun s => if c_faults s (c_ticks s)
           then (Raise (OSError "Input/output error"), c_tick s)
           else match docs s !! path with
                | Some v => (Ok v, c_tick s)
                | None => (Raise (OSError "No such file or directory"), c_tick s)
                end.

Definition modify (f : State -> State) : MC unit :=
  fun s => (Ok tt, f s).

(** [rsa.generate_private_key(public_exponent=65537, key_size=2048)] *)
Definition rsa_generate_private_key : MC (private_key_t lib) :=
  fun s => match generate_private_key lib (c_ticks s) with
           | Some k => (Ok k, c_tick s)
           | None => (Raise (ValueError "key generation failed"), c_tick s)
           end.

(** [_initialize_keys]: the private key is stored first; building the
    self-signed certificate evaluates [datetime.utcnow()] and then
    [datetime.timedelta(days=3650)] on the imported name [datetime]. *)
Definition _initialize_keys : MC unit :=
  try_except
    (key ← rsa_generate_private_key;
     modify (set_private_key (Some key));;
     getattr global_datetime "utcnow";;
     not_valid_before ← now;
     getattr global_datetime "utcnow";;
     utcnow ← now;
     getattr global_datetime "timedelta";;
     modify (set_certificate (Some (public_key_of lib key))))
    (fun _ => mret tt).

(** [__init__] *)
Definition init : MC unit :=
  modify (fun s => set_certificate None (set_private_key None s));;
  _initialize_keys.

(** [_generate_certificate_id] *)
Definition _generate_certificate_id : MC string :=
  timestamp ← now;
  mret (str_upper lib (substring 0 16 (sha256_hexdigest lib (iso timestamp)))).

(** [_get_method_description]: [descriptions.get(method, 'Unknown method')] *)
Definition _get_method_description (method : json) : MC string :=
  match method with
  | JStr m =>
      if String.eqb m "clear" then
        mret "NIST Clear - Single pass overwrite with zeros"
      else if String.eqb m "purge" then
        mret "NIST Purge - Multi-pass overwrite (DoD 5220.22-M)"
      else mret "Unknown method"
  | JList _ | JDict _ => raise (TypeError "unhashable type")
  | _ => mret "Unknown method"
  end.

(** [_get_public_key_pem] *)
Definition _get_public_key_pem : MC string :=
  fun s => match certificate s with
           | None => (Ok "", s)
           | Some public_key => (Ok (public_bytes_pem lib public_key), s)
           end.

(** [sign_deletion_log] *)
Definition sign_deletion_log (data : dict) : MC string :=
  try_except
    (fun s => match private_key s with
              | None => (Raise (ValueError "Private key not initialized"), s)
              | Some key =>
                  let data_str := json_dumps_sorted lib (JDict data) in
                  match pss_sign lib key (c_ticks s) data_str with
                  | Some signature => (Ok (bytes_hex signature), c_tick s)
                  | None => (Raise (ValueError "signing failed"), c_tick s)
                  end
              end)
    (fun _ => mret "").

(** The entries of [cert_data['files']]: [files[:1000]], each read with
    [file_result.get]. *)
Fixpoint file_entries (files : list json) : MC (list json) :=
  match files with
  | [] => mret []
  | JDict file_result :: rest =>
      entries ← file_entries rest;
      mret (JDict (<["path" := dict_get file_result "file" (JStr "unknown")]>
                   (<["success" := dict_get file_result "success" (JBool false)]>
                   (<["verified" := dict_get file_result "verified" (JBool false)]> ∅)))
            :: entries)
  | _ :: _ => raise (AttributeError "object has no attribute 'get'")
  end.

Definition sliced_files (files : json) : MC (list json) :=
  match files with
  | JList l => file_entries (take 1000 l)
  | JStr s => if String.eqb s "" then mret []
              else raise (AttributeError "'str' object has no attribute 'get'")
  | _ => raise (TypeError "object is not subscriptable")
  end.

(** The path used [if not output_path]. *)
Definition default_output_path : MC string :=
  timestamp ← now;
  mret (String.append "deletion_certificate_"
          (String.append (compact timestamp) ".json")).

(** [generate_wipe_certificate]: any exception is logged and raised
    again. *)
Definition generate_wipe_certificate (operation_results : dict)
    (output_path : option string) : MC string :=
  try_except
    (certificate_id ← _generate_certificate_id;
     timestamp ← now;
     method_description ←
       _get_method_description (dict_get operation_results "method" (JStr "clear"));
     files ← sliced_files (dict_get operation_results "files" (JList []));
     let cert_data : dict :=
       <["certificate_id" := JStr certificate_id]>
       (<["timestamp" := JStr (iso timestamp)]>
       (<["operation" := JDict
            (<["method" := dict_get operation_results "method" (JStr "unknown")]>
            (<["start_time" := dict_get operation_results "start_time" JNull]>
            (<["end_time" := dict_get operation_results "end_time" JNull]>
            (<["duration" := dict_get operation_results "duration" JNull]> ∅))))]>
       (<["results" := JDict
            (<["total_files" := dict_get operation_results "total_files" (JInt 0)]>
            (<["successful" := dict_get operation_results "successful" (JInt 0)]>
            (<["failed" := dict_get operation_results "failed" (JInt 0)]> ∅)))]>
       (<["compliance" := JDict
            (<["standard" := JStr "NIST SP 800-88"]>
            (<["method_description" := JStr method_description]> ∅))]>
       (<["files" := JList files]> ∅))))) in
     signature ← sign_deletion_log cert_data;
     let cert_data := <["signature" := JStr signature]> cert_data in
     public_key ← _get_public_key_pem;
     let cert_data := <["public_key" := JStr public_key]> cert_data in
     output_path ←
       match output_path with
       | Some p => if String.eqb p "" then default_output_path else mret p
       | None => default_output_path
       end;
     write_json output_path (JDict cert_data);;
     mret output_path)
    (fun e => raise e).

(** [verify_certificate] *)
Definition verify_certificate (cert_path : string) : MC bool :=
  try_except
    (loaded ← read_json cert_path;
     match loaded with
     | JDict cert_data =>
         signature ← bytes_fromhex (dict_get cert_data "signature" (JStr ""));
         let cert_data := delete "signature" cert_data in
         let public_key_pem := dict_get cert_data "public_key" (JStr "") in
         let cert_data := delete "public_key" cert_data in
         if (if signature is [] then true else false) || negb (truthy public_key_pem)
         then mret false
         else
           match public_key_pem with
           | JStr pem =>
               match load_pem_public_key lib pem with
               | Some public_key =>
                   let data_str := json_dumps_sorted lib (JDict cert_data) in
                   mret (pss_verify lib public_key signature data_str)
               | None => raise (ValueError "Could not deserialize key data")
               end
           | _ => raise (AttributeError "object has no attribute 'encode'")
           end
     | _ => raise (TypeError "pop expected at most 1 argument, got 2")
     end)
    (fun _ => mret false).

End WithLibrary.

End CertificateManager.


(** ** backend/utils/helpers.py

    The text functions work on any Python string: a string is here the
    list of its code points. *)

Module Helpers.

Definition ustr : Type := list N.

(** The code points of an ASCII literal. *)
Definition literal (s : string) : ustr := N_of_ascii <$> list_ascii_of_string s.

(** [s.replace(old, new)] for a one-character [old]. *)
Definition replace_char (old : N) (new : ustr) (s : ustr) : ustr :=
  flat_map (fun c => if (c =? old)%N then new else [c]) s.

(** The class [[\x00-\x1f\x7f-\x9f]]. *)
Definition is_control (c : N) : bool :=
  ((c <=? 31) || ((127 <=? c) && (c <=? 159)))%N.

(** [re.sub(r'[\x00-\x1f\x7f-\x9f]', '', s)] *)
Definition remove_controls (s : ustr) : ustr :=
  List.filter (fun c => negb (is_control c)) s.

(** [re.sub(r'/+', '/', s)]: every run of slashes becomes one slash;
    [in_run] tells that the previous character was a slash. *)
Fixpoint squeeze_slashes (in_run : bool) (s : ustr) : ustr :=
  match s with
  | [] => []
  | c :: rest =>
      if (c =? 47)%N then
        if in_run then squeeze_slashes true rest
        else 47%N :: squeeze_slashes true rest
      else c :: squeeze_slashes false rest
  end.

Definition sanitize_path (path : ustr) : ustr :=
  let path := replace_char 0 [] path in
  let path := remove_controls path in
  let path := replace_char 92 [47%N] path in
  squeeze_slashes false path.

(** The characters of the first pattern of [get_safe_filename]: angle
    brackets, colon, double quote, slash, backslash, bar, question mark
    and star. *)
Definition is_unsafe (c : N) : bool :=
  existsb (N.eqb c) [60; 62; 58; 34; 47; 92; 124; 63; 42]%N.

(** [s.strip(chars)] *)
Fixpoint lstrip (chars : ustr) (s : ustr) : ustr :=
  match s with
  | [] => []
  | c :: rest => if existsb (N.eqb c) chars then lstrip chars rest else s
  end.

Definition strip (chars : ustr) (s : ustr) : ustr :=
  rev (lstrip chars (rev (lstrip chars s))).

Definition get_safe_filename (filename : ustr) : ustr :=
  let safe := map (fun c => if is_unsafe c then 95%N else c) filename in
  let safe := remove_controls safe in
  let safe := strip (literal ". ") safe in
  let safe := if safe is [] then literal "unnamed" else safe in
  if (255 <? length safe)%nat then take 255 safe else safe.

(** [range(0, stop, step)] for a step that is not zero. *)
Definition range_from_0 (stop step : Z) : list Z :=
  if 0 <? step then
    map (fun k => Z.of_nat k * step) (seq 0 (Z.to_nat ((stop + step - 1) / step)))
  else [].

(** [lst[i:j]] for indices that are not negative. *)
Definition slice {A} (lst : list A) (i j : Z) : list A :=
  take (Z.to_nat j - Z.to_nat i) (drop (Z.to_nat i) lst).

(** [list(chunks(lst, n))]: the generator raises when it is first
    advanced if [n] is zero. *)
Definition chunks {A} (lst : list A) (n : Z) : result (list (list A)) :=
  if n =? 0 then Raise (ValueError "range() arg 3 must not be zero")
  else Ok (map (fun i => slice lst i (i + n))
             (range_from_0 (Z.of_nat (length lst)) n)).

End Helpers.

(** ** backend/utils/logging.py: class [Logger]

    The audit log of a [Logger]; what the [logging] module of the
    standard library does with a message is outside its state. *)

Module Logger.

Record entry := { timestamp : string; level : string; message : string }.

Record LogState := {
  audit_log : list entry;
  l_ticks : nat;
  l_clock : nat -> datetime
}.

(** [__init__] *)
Definition init (clock : nat -> datetime) : LogState :=
  {| audit_log := []; l_ticks := 0; l_clock := clock |}.

(** [_add_to_audit] *)
Definition _add_to_audit (lvl msg : string) (s : LogState) : LogState :=
  {| audit_log := audit_log s ++
       [{| timestamp := iso (l_clock s (l_ticks s)); level := lvl; message := msg |}];
     l_ticks := S (l_ticks s); l_clock := l_clock s |}.

Definition log_info : string -> LogState -> LogState := _add_to_audit "INFO".
Definition log_warning : string -> LogState -> LogState := _add_to_audit "WARNING".
Definition log_error : string -> LogState -> LogState := _add_to_audit "ERROR".
Definition log_debug : string -> LogState -> LogState := _add_to_audit "DEBUG".
Definition log_critical : string -> LogState -> LogState := _add_to_audit "CRITICAL".

(** [log_user_selection] *)
Definition log_user_selection (selected_files : list string) (s : LogState)
  : LogState :=
  let n := length selected_files in
  let s := log_info ("User selected " ++ pretty n ++ " file(s) for deletion") s in
  let s := fold_left (fun s file_path => log_debug ("  Selected: " ++ file_path) s)
             (take 10 selected_files) s in
  if (10 <? n)%nat
  then log_debug ("  ... and " ++ pretty (n - 10)%nat ++ " more files") s
  else s.

(** [get_statistics]: [if level in stats: stats[level] += 1] *)
Definition count_entry (stats : gmap string Z) (e : entry) : gmap string Z :=
  match stats !! level e with
  | Some n => <[level e := n + 1]> stats
  | None => stats
  end.

Definition get_statistics (s : LogState) : gmap string Z :=
  fold_left count_entry (audit_log s)
    (<["INFO" := 0]> (<["WARNING" := 0]> (<["ERROR" := 0]> (<["DEBUG" := 0]>
     (<["CRITICAL" := 0]> (<["TOTAL" := Z.of_nat (length (audit_log s))]> ∅)))))).

(** [clear_audit_log]: the clearing is itself logged. *)
Definition clear_audit_log (s : LogState) : LogState :=
  log_info "Audit log cleared"
    {| audit_log := []; l_ticks := l_ticks s; l_clock := l_clock s |}.

(** The public methods that write to the audit log. *)
Inductive call :=
| LogInfo (msg : string)
| LogWarning (msg : string)
| LogError (msg : string)
| LogDebug (msg : string)
| LogCritical (msg : string)
| LogUserSelection (selected_files : list string)
| ClearAuditLog.

Definition perform (s : LogState) (c : call) : LogState :=
  match c with
  | LogInfo msg => log_info msg s
  | LogWarning msg => log_warning msg s
  | LogError msg => log_error msg s
  | LogDebug msg => log_debug msg s
  | LogCritical msg => log_critical msg s
  | LogUserSelection selected_files => log_user_selection selected_files s
  | ClearAuditLog => clear_audit_log s
  end.

End Logger.
(** ** What an observer reads off a trace *)

Module Observations.

Import NISTAlgorithms.

(** The raw write stream: offset and data of each write, in order. *)
Definition write_of (e : nat * event) : option (Z * list Byte.byte) :=
  match e.2 with
  | EvWrite _ offset data => Some (offset, data)
  | _ => None
  end.

Definition writes (evs : list (nat * event)) : list (Z * list Byte.byte) :=
  omap write_of evs.

(** The same stream with the tick of each write instead of its offset. *)
Definition stamped_write_of (e : nat * event) : option (nat * list Byte.byte) :=
  match e.2 with
  | EvWrite _ _ data => Some (e.1, data)
  | _ => None
  end.

Definition stamped_writes (evs : list (nat * event)) : list (nat * list Byte.byte) :=
  omap stamped_write_of evs.

(** The bytes written, concatenated. *)
Definition written_bytes (evs : list (nat * event)) : list Byte.byte :=
  concat (writes evs).*2.

(** The values handed to the progress callback, in order. *)
Definition progress_of (e : nat * event) : option Q :=
  match e.2 with
  | EvProgress percent => Some percent
  | _ => None
  end.

Definition progress_values (evs : list (nat * event)) : list Q :=
  omap progress_of evs.

(** Writes are sequential from [start]: each one begins where the
    previous one ended. *)
Fixpoint sequential (start : Z) (ws : list (Z * list Byte.byte)) : Prop :=
  match ws with
  | [] => True
  | (offset, data) :: rest =>
      offset = start /\ sequential (start + Z.of_nat (length data)) rest
  end.

(** [ceil(a / b)] for a positive [b]. *)
Definition ceil_div (a b : Z) : Z := (a + b - 1) / b.

(** The events between the opening of a file and its flush: writes to
    [path] and progress reports. *)
Definition body_event (path : string) (e : nat * event) : Prop :=
  match e.2 with
  | EvWrite p _ _ => p = path
  | EvProgress _ => True
  | _ => False
  end.

(** One iteration of the loop, as the body of [block_loop] has it. *)
Definition iteration (gen : Z -> M (list Byte.byte)) (report : Z -> M unit)
    (file_size : Z) (f : handle) (bytes_written : Z) : M handle :=
  let chunk_size := Z.min BLOCK_SIZE (file_size - bytes_written) in
  data ← gen chunk_size;
  f1 ← f_write f data;
  report (bytes_written + chunk_size);;
  mret f1.

Definition is_write (e : nat * event) : Prop :=
  match e.2 with EvWrite _ _ _ => True | _ => False end.

Definition write_stamps (evs : list (nat * event)) : list nat :=
  (stamped_writes evs).*1.

(** Events that happened between ticks [lo] and [hi], the writes after
    [lo] and at pairwise different, increasing ticks. *)
Definition timed (lo hi : nat) (evs : list (nat * event)) : Prop :=
  Forall (fun e => (lo <= e.1 <= hi)%nat /\ (is_write e -> (lo < e.1)%nat)) evs /\
  StronglySorted lt (write_stamps evs).

Definition oracle : Type := nat -> nat -> Byte.byte.

(** The progress values of [evs] climb from level [lo] to level [hi]. *)
Definition climbs (lo hi : Q) (evs : list (nat * event)) : Prop :=
  (lo <= hi)%Q /\
  Forall (fun q => lo <= q <= hi)%Q (progress_values evs) /\
  StronglySorted Qle (progress_values evs).

(** A policy says which events may be emitted: [wr] for the writes, [pr]
    for the progress values, [ot] for the other events. *)
Definition allow (wr : oracle -> nat -> string -> Z -> list Byte.byte -> Prop)
    (pr : Q -> Prop) (ot : event -> Prop) : oracle -> nat * event -> Prop :=
  fun en e =>
    match e.2 with
    | EvWrite p offset data => wr en e.1 p offset data
    | EvProgress q => pr q
    | other => ot other
    end.

(** [advance k P lo hi w w']: the world [w'] is reached from [w] by emitting
    events that satisfy [P] and whose progress values climb from [lo] to
    [hi]; the oracles are those of [w], and so is the cancellation flag
    when [k] is set. *)
Definition advance (k : bool) (P : oracle -> nat * event -> Prop) (lo hi : Q)
    (w w' : World) : Prop :=
  faults w' = faults w /\ entropy w' = entropy w /\
  wallclock w' = wallclock w /\ interrupt w' = interrupt w /\
  (k = true -> cancel_requested w' = cancel_requested w) /\
  (ticks w <= ticks w')%nat /\
  exists evs, trace w' = trace w ++ evs /\ Forall (P (entropy w)) evs /\
              timed (ticks w) (ticks w') evs /\ climbs lo hi evs.

(** [runs pi k P lo hi m]: whatever its outcome, [m] advances the world. *)
Definition runs {S A} (pi : S -> World) (k : bool)
    (P : oracle -> nat * event -> Prop) (lo hi : Q) (m : ST S A) : Prop :=
  forall s, advance k P lo hi (pi s) (pi (m s).2).

Definition is_progress (e : event) : Prop :=
  match e with EvProgress _ => True | _ => False end.

(** A policy that permits every event but, possibly, progress reports. *)
Definition permits (P : oracle -> nat * event -> Prop) : Prop :=
  forall en t e, ~ is_progress e -> P en (t, e).

(** The levels of progress inside a pass. *)
Definition pass_level (file_size pass_num total_passes b : Z) : Q :=
  ((inject_Z (pass_num - 1)%Z / inject_Z total_passes
    + inject_Z b / inject_Z file_size / inject_Z total_passes) * 100)%Q.

Definition clear_level (file_size b : Z) : Q :=
  (inject_Z b / inject_Z file_size * 100)%Q.

Definition progress_ok (P : oracle -> nat * event -> Prop) : Prop :=
  forall en t v, P en (t, EvProgress v).

(** The callbacks considered: none, or the recording one. *)
Definition cb_ok (P : oracle -> nat * event -> Prop) (cb : option callback) : Prop :=
  cb = None \/ (cb = Some record_progress /\ progress_ok P).

(** The same for a batch, whose reports stay below 100. *)
Definition cb_low (P : oracle -> nat * event -> Prop) (cb : option callback) : Prop :=
  cb = None \/
  (cb = Some record_progress /\ forall en t v, (v < 100)%Q -> P en (t, EvProgress v)).

(** Without a callback the level never moves. *)
Definition cb_level (cb : option callback) (level : Z -> Q) (q : Q) : Z -> Q :=
  match cb with Some _ => level | None => fun _ => q end.

(** The levels a computation with callback [cb] may be given: any single
    level without a callback, an interval around [0, 100] with one. *)
Definition span (cb : option callback) (lo hi : Q) : Prop :=
  match cb with
  | None => lo = hi
  | Some _ => (lo <= 0)%Q /\ (100 <= hi)%Q
  end.

Definition clear_inv (path : string) (file_size : Z) (w0 : World)
    (f : handle) (b : Z) (w : World) : Prop :=
  h_name f = path /\ h_pos f = b /\ 0 <= b <= file_size /\
  exists body, trace w = trace w0 ++ body /\
    Forall (body_event path) body /\
    sequential 0 (writes body) /\
    written_bytes body = replicate (Z.to_nat b) Byte.x00 /\
    Z.of_nat (length (writes body)) = ceil_div b BLOCK_SIZE /\
    (b < file_size -> b = BLOCK_SIZE * Z.of_nat (length (writes body))).


(** [keeps Inv m]: the code [m] keeps the invariant [Inv] of the local
    dict, whatever its outcome; [safe Inv m]: under [Inv], [m] does not
    raise. *)
Definition keeps {A} (Inv : dict -> Prop) (m : ML A) : Prop :=
  forall s, Inv s.1 -> Inv (m s).2.1.

Definition safe {A} (Inv : dict -> Prop) (m : ML A) : Prop :=
  forall s, Inv s.1 -> exists a s', m s = (Ok a, s').

(** The shape of a dict entry. *)
Definition holds_bool (d : dict) (key : string) : Prop :=
  exists b, d !! key = Some (JBool b).

Definition holds_int (d : dict) (key : string) : Prop :=
  exists n, d !! key = Some (JInt n).

Definition holds_list (d : dict) (key : string) : Prop :=
  exists l, d !! key = Some (JList l).

(** The entry [key] of the dict a call returned. *)
Definition returned (run : result dict * World) (key : string) : option json :=
  match run.1 with
  | Ok d => d !! key
  | Raise _ => None
  end.

(** The bytes of a write of a pass: copies of the pattern, or the block
    drawn from the entropy source two ticks before the write (the draw,
    then the write call). *)
Definition data_ok (pattern : option (list Byte.byte)) (en : oracle)
    (t : nat) (data : list Byte.byte) : Prop :=
  match pattern with
  | Some (b :: p) => exists n, data = bytes_mul (b :: p) n
  | _ => data = map (en (t - 2)%nat) (seq 0 (length data))
  end.

(** What a pass may emit once its file is open: writes of its pattern to
    [path], progress reports, and the final sync. *)
Definition pass_policy (path : string) (pattern : option (list Byte.byte))
  : oracle -> nat * event -> Prop :=
  allow (fun en t p _ data => p = path /\ data_ok pattern en t data)
        (fun _ => True)
        (fun e => e = EvSync path).

(** A session: the opening of [path] for update and the events of the
    pass that follow it. *)
Definition is_session (path : string) (pattern : option (list Byte.byte))
    (en : oracle) (s : list (nat * event)) : Prop :=
  exists t body,
    s = (t, EvOpen path ReadWriteBinary) :: body /\
    Forall (pass_policy path pattern en) body.

(** Every byte written in [evs] is [b]. *)
Definition all_bytes (b : Byte.byte) (evs : list (nat * event)) : Prop :=
  Forall (fun bt => bt = b) (written_bytes evs).

(** Every block written in [evs] is a fresh draw from the entropy
    source. *)
Definition drawn (en : oracle) (evs : list (nat * event)) : Prop :=
  Forall (fun w => w.2 = map (en (w.1 - 2)%nat) (seq 0 (length w.2)))
         (stamped_writes evs).

(** Events after the passes: no opening for update and no write. *)
Definition after_passes (e : nat * event) : Prop :=
  match e.2 with
  | EvOpen _ ReadWriteBinary | EvWrite _ _ _ => False
  | _ => True
  end.

(** The schedule of the passes, by index from [0]: zeros, ones, then
    random blocks. *)
Definition scheduled (en : oracle) (i : nat) (s : list (nat * event)) : Prop :=
  match i with
  | O => all_bytes Byte.x00 s
  | S O => all_bytes Byte.xff s
  | _ => drawn en s
  end.

(** The invariant of the block loop started in world [w0]: [b] bytes are
    written and, with the recording callback, the last value reported is
    the level of [b]. *)
Definition loop_inv (cb : option callback) (level : Z -> Q) (file_size : Z)
    (w0 : World) (f : handle) (b : Z) (w : World) : Prop :=
  0 <= b <= file_size /\
  exists body, trace w = trace w0 ++ body /\
    Z.of_nat (length (written_bytes body)) = b /\
    (cb = Some record_progress -> 0 < b ->
     last (progress_values body) = Some (level b)).

(** A generator of blocks of the requested length that emits nothing. *)
Definition gen_spec (gen : Z -> M (list Byte.byte)) : Prop :=
  forall c w, 0 <= c ->
    match gen c w with
    | (Ok data, w1) => Z.of_nat (length data) = c /\ trace w1 = trace w
    | (Raise _, _) => True
    end.

(** A progress update that hands the level of [b] to the callback. *)
Definition report_spec (cb : option callback) (level : Z -> Q)
    (report : Z -> M unit) : Prop :=
  forall b w,
    match report b w with
    | (Ok _, w1) =>
        trace w1 = trace w ++
          match cb with
          | Some _ => [(ticks w, EvProgress (level b))]
          | None => []
          end
    | (Raise _, _) => True
    end.

(** A pattern of at most one byte: the pass writes as many bytes as the
    file holds. *)
Definition unit_pattern (pattern : option (list Byte.byte)) : Prop :=
  match pattern with
  | Some (_ :: _ :: _) => False
  | _ => True
  end.

(** The values reported to the progress callback between the worlds [w]
    and [w']. *)
Definition reports (w w' : World) : list Q :=
  progress_values (drop (length (trace w)) (trace w')).

(** Values that never decrease and stay between 0 and 100. *)
Definition rising (qs : list Q) : Prop :=
  StronglySorted Qle qs /\ Forall (fun q => 0 <= q <= 100)%Q qs.

(** The policy of a batch: any event, but no report of 100 or more. *)
Definition below_100 : oracle -> nat * event -> Prop :=
  allow (fun _ _ _ _ _ => True) (fun q => (q < 100)%Q) (fun _ => True).

Definition any_event : oracle -> nat * event -> Prop := fun _ _ => True.

(** The policy of the code that does not call the callback. *)
Definition no_report : oracle -> nat * event -> Prop :=
  fun _ e => ~ is_progress e.2.










(** A step that leaves the file system, the trace and the cancellation
    flag as they are: time passes, nothing else. *)
Definition untouched (w w' : World) : Prop :=
  fs w' = fs w /\ trace w' = trace w /\
  cancel_requested w' = cancel_requested w /\ faults w' = faults w /\
  (ticks w <= ticks w')%nat.

(** Every entry directly below [p] is a directory. *)
Definition only_dirs_below (m : gmap string node) (p : string) : Prop :=
  forall c nd, m !! c = Some nd -> path_parent c = p -> c <> p ->
               exists md, nd = Dir md.

(** [w'] is [w] with some directories removed, each of which held nothing
    but directories in [w]; nothing else differs. *)
Definition pruned (w w' : World) : Prop :=
  trace w' = trace w /\ cancel_requested w' = cancel_requested w /\
  forall k, fs w' !! k = fs w !! k \/
            (fs w' !! k = None /\ (exists md, fs w !! k = Some (Dir md)) /\
             only_dirs_below (fs w) k).

(** [m'] is [m] but for the bytes of the regular file [key]. *)
Definition reshaped (key : string) (m m' : gmap string node) : Prop :=
  (forall k, k <> key -> m' !! k = m !! k) /\
  (forall data md, m !! key = Some (File data md) ->
     exists data', m' !! key = Some (File data' md)) /\
  (m !! key = None -> m' !! key = None).

(** A step that, in the file system, changes at most the bytes of the
    regular file [key], and leaves the fault oracle and the cancellation
    flag as they are. *)
Definition rewrites (key : string) (w w' : World) : Prop :=
  faults w' = faults w /\ cancel_requested w' = cancel_requested w /\
  reshaped key (fs w) (fs w').

(** [through pi R m]: whatever its outcome, [m] takes the world to one
    related to it by [R]. *)
Definition through {S A} (pi : S -> World) (R : World -> World -> Prop)
    (m : ST S A) : Prop :=
  forall s, R (pi s) (pi (m s).2).

(** A step that leaves the file system, the fault oracle and the
    cancellation flag as they are; it may emit events. *)
Definition steady (w w' : World) : Prop :=
  fs w' = fs w /\ faults w' = faults w /\
  cancel_requested w' = cancel_requested w.

(** [path] resolves to the regular file [key], whose mode is [md]. *)
Definition target (path key : string) (md : perms) (m : gmap string node) : Prop :=
  exists data, lookup_path m path = Some (key, File data md).

(** The same names in the file system. *)
Definition same_names (w w' : World) : Prop := dom (fs w') = dom (fs w).

(** The name [path] is gone, and no other name has come or gone. *)
Definition removed (path : string) (w w' : World) : Prop :=
  path ∈ dom (fs w) /\ dom (fs w') = dom (fs w) ∖ {[path]}.


(** [triple P m Q E]: from a state in [P], a run of [m] that returns [a]
    ends in [Q a], and a run that raises ends in [E]. *)
Definition triple {S A} (P : S -> Prop) (m : ST S A) (Q : A -> S -> Prop)
    (E : S -> Prop) : Prop :=
  forall s, P s -> match m s with
                   | (Ok a, s') => Q a s'
                   | (Raise _, s') => E s'
                   end.

(** What [wipe_file] has reported and done so far, from the world [w0]:
    no success and the same names, or success and the name gone. *)
Definition verdict (path : string) (w0 : World) (s : dict * World) : Prop :=
  (s.1 !! "success" = Some (JBool true) /\ removed path w0 s.2) \/
  (s.1 !! "success" = Some (JBool false) /\ same_names w0 s.2).




(** What [sign_deletion_log] and [verify_certificate] need of the
    cryptographic library for the key [key]: signing succeeds with a
    signature that is not empty and that verifies under the public key,
    and the public key survives its PEM encoding, which is not empty. *)
Definition signs_well (lib : CertificateManager.Library)
    (key : CertificateManager.private_key_t lib) : Prop :=
  (forall t msg, exists signature,
     CertificateManager.pss_sign lib key t msg = Some signature /\
     signature <> [] /\
     CertificateManager.pss_verify lib (CertificateManager.public_key_of lib key)
       signature msg = true) /\
  CertificateManager.load_pem_public_key lib
    (CertificateManager.public_bytes_pem lib (CertificateManager.public_key_of lib key))
    = Some (CertificateManager.public_key_of lib key) /\
  CertificateManager.public_bytes_pem lib (CertificateManager.public_key_of lib key)
    <> "".

(** No two slashes in a row. *)
Fixpoint single_slashes (s : list N) : Prop :=
  match s with
  | a :: rest =>
      match rest with
      | b :: _ => ~ (a = 47%N /\ b = 47%N)
      | [] => True
      end /\ single_slashes rest
  | [] => True
  end.

(** The levels the public methods of the logger write. *)
Definition known_level (e : Logger.entry) : Prop :=
  Logger.level e ∈ ["INFO"; "WARNING"; "ERROR"; "DEBUG"; "CRITICAL"].

(** The six counters of [get_statistics]. *)
Definition counters (stats : gmap string Z) (i w e d c t : Z) : Prop :=
  stats !! "INFO" = Some i /\ stats !! "WARNING" = Some w /\
  stats !! "ERROR" = Some e /\ stats !! "DEBUG" = Some d /\
  stats !! "CRITICAL" = Some c /\ stats !! "TOTAL" = Some t.

(** The characters [validate_path] lets through: everything from the
    space on, and tab, line feed and carriage return. *)
Definition accepted_character (c : ascii) : Prop :=
  (32 <= nat_of_ascii c)%nat \/ nat_of_ascii c = 9%nat \/
  nat_of_ascii c = 10%nat \/ nat_of_ascii c = 13%nat.


(** The entry of a certificate for the result of one file. *)
Definition listed (file_result : dict) : json :=
  JDict (<["path" := dict_get file_result "file" (JStr "unknown")]>
         (<["success" := dict_get file_result "success" (JBool false)]>
         (<["verified" := dict_get file_result "verified" (JBool false)]> ∅))).
End Observations.

(** ** Concrete worlds *)

Module Scenarios.

Definition rw : perms := {| r_ok := true; w_ok := true |}.
Definition ro : perms := {| r_ok := true; w_ok := false |}.
Definition no_access : perms := {| r_ok := false; w_ok := false |}.

Definition epoch (t : nat) : datetime :=
  {| micros := Z.of_nat t; iso := "2024-01-01T00:00:00"; compact := "20240101_000000" |}.

(** A world with the given name space in which nothing fails, nobody
    interrupts, and the entropy source counts. *)
Definition calm (m : gmap string node) : World :=
  {| fs := m; ticks := 0; faults := fun _ => false; wallclock := epoch;
     entropy := fun t i => byte_of_ascii (ascii_of_nat (t + i));
     interrupt := fun _ => false; cancel_requested := false; trace := [] |}.

(** The same world with a fault at tick [t]. *)
Definition faulty_at (t : nat) (m : gmap string node) : World :=
  {| fs := m; ticks := 0; faults := fun i => Nat.eqb i t; wallclock := epoch;
     entropy := fun t i => byte_of_ascii (ascii_of_nat (t + i));
     interrupt := fun _ => false; cancel_requested := false; trace := [] |}.

(** The same world with a stop request once [i] files are processed. *)
Definition stopped_after (i : nat) (m : gmap string node) : World :=
  {| fs := m; ticks := 0; faults := fun _ => false; wallclock := epoch;
     entropy := fun t i => byte_of_ascii (ascii_of_nat (t + i));
     interrupt := fun j => Nat.eqb j i; cancel_requested := false; trace := [] |}.

(** A progress callback that raises, as a [print] to a closed pipe
    does. *)
Definition failing_progress : callback :=
  fun _ => raise (OSError "Broken pipe").

(** A file of one full block and three more bytes. *)
Definition big_file : gmap string node :=
  <["/data/report.bin" := File (replicate (Z.to_nat 65539) Byte.x41) rw]>
  (<["/data" := Dir rw]> ∅).

Definition small_file : gmap string node :=
  <["/data/note.txt" := File (replicate 5 Byte.x41) rw]>
  (<["/data" := Dir rw]> ∅).

(** A writable file in a directory that may not be written. *)
Definition locked : gmap string node :=
  <["/data/note.txt" := File (replicate 5 Byte.x41) rw]>
  (<["/data" := Dir ro]> ∅).

(** A regular file and a symbolic link to it. *)
Definition linked : gmap string node :=
  <["/home/u/data.txt" := File (replicate 5 Byte.x41) rw]>
  (<["/home/u/link" := Link "/home/u/data.txt"]>
  (<["/home/u" := Dir rw]> ∅)).

(** A system file that the user may not read. *)
Definition shadowed : gmap string node :=
  <["/etc/shadow" := File (replicate 5 Byte.x41) no_access]>
  (<["/etc" := Dir ro]> ∅).

(** A folder with two files. *)
Definition two_files : gmap string node :=
  <["/data/a.txt" := File (replicate 5 Byte.x41) rw]>
  (<["/data/b.txt" := File (replicate 3 Byte.x42) rw]>
  (<["/data" := Dir rw]> ∅)).

(** A toy instance of the cryptographic library: one key pair, a
    signature that is the signed text itself. *)
Definition toy_pem : string := "-----BEGIN PUBLIC KEY-----".

Definition toy_dumps (j : json) : string :=
  match j with
  | JDict d => String.concat "," (map_to_list d).*1
  | _ => ""
  end.

Definition toy_library : CertificateManager.Library :=
  {| CertificateManager.private_key_t := unit;
     CertificateManager.public_key_t := unit;
     CertificateManager.generate_private_key := fun _ => Some tt;
     CertificateManager.public_key_of := fun _ => tt;
     CertificateManager.pss_sign := fun _ _ msg => Some (list_byte_of_string msg);
     CertificateManager.pss_verify :=
       fun _ signature msg => String.eqb (string_of_list_byte signature) msg;
     CertificateManager.public_bytes_pem := fun _ => toy_pem;
     CertificateManager.load_pem_public_key :=
       fun pem => if String.eqb pem toy_pem then Some tt else None;
     CertificateManager.json_dumps_sorted := toy_dumps;
     CertificateManager.sha256_hexdigest := fun s => s;
     CertificateManager.str_upper := fun s => s |}.

(** A manager state before [__init__], with a disk that takes writes,
    and one with a disk that refuses them. *)
Definition blank (refuse : bool) : CertificateManager.State toy_library :=
  CertificateManager.Build_State toy_library None None ∅ 0%nat
    (fun _ => refuse) epoch.

(** A manager that holds both keys, as [__init__] is meant to leave it. *)
Definition keyed : CertificateManager.State toy_library :=
  CertificateManager.Build_State toy_library (Some tt) (Some tt) ∅ 0%nat
    (fun _ => false) epoch.

(** A library whose signatures are never empty: a tag byte, then the
    signed text. *)
Definition tagged_library : CertificateManager.Library :=
  {| CertificateManager.private_key_t := unit;
     CertificateManager.public_key_t := unit;
     CertificateManager.generate_private_key := fun _ => Some tt;
     CertificateManager.public_key_of := fun _ => tt;
     CertificateManager.pss_sign :=
       fun _ _ msg => Some (Byte.x01 :: list_byte_of_string msg);
     CertificateManager.pss_verify :=
       fun _ signature msg =>
         match signature with
         | Byte.x01 :: rest => String.eqb (string_of_list_byte rest) msg
         | _ => false
         end;
     CertificateManager.public_bytes_pem := fun _ => toy_pem;
     CertificateManager.load_pem_public_key :=
       fun pem => if String.eqb pem toy_pem then Some tt else None;
     CertificateManager.json_dumps_sorted := toy_dumps;
     CertificateManager.sha256_hexdigest := fun s => s;
     CertificateManager.str_upper := fun s => s |}.

Definition keyed_tagged : CertificateManager.State tagged_library :=
  CertificateManager.Build_State tagged_library (Some tt) (Some tt) ∅ 0%nat
    (fun _ => false) epoch.

(** The result of a batch of one wiped file. *)
Definition one_file_batch : dict :=
  <["method" := JStr "clear"]> (<["total_files" := JInt 1]>
  (<["successful" := JInt 1]> (<["failed" := JInt 0]>
  (<["files" := JList [JDict (<["file" := JStr "/data/a.txt"]>
                              (<["success" := JBool true]>
                              (<["verified" := JBool true]> ∅)))]]> ∅)))).

(** The result of a batch of 1001 wiped files. *)
Definition wiped (p : string) : json :=
  JDict (<["file" := JStr p]> (<["success" := JBool true]>
        (<["verified" := JBool true]> ∅))).

Definition large_batch : dict :=
  <["method" := JStr "clear"]> (<["total_files" := JInt 1001]>
  (<["successful" := JInt 1001]> (<["failed" := JInt 0]>
  (<["files" := JList (replicate 1000 (wiped "/data/a.txt")
                       ++ [wiped "/data/last.txt"])]> ∅)))).

End Scenarios.
(** * Properties *)

Ltac Zify.zify_post_hook ::= Z.div_mod_to_equations.

(** ** Reasoning about monadic code *)

Tactic Notation "unfold_monad" :=
  unfold mbind, ST_bind, bind, mret, ST_ret, ret, raise, try_except, liftW.
Tactic Notation "unfold_monad" "in" hyp(H) :=
  unfold mbind, ST_bind, bind, mret, ST_ret, ret, raise, try_except, liftW in H.
Tactic Notation "unfold_monad" "in" "*" :=
  unfold mbind, ST_bind, bind, mret, ST_ret, ret, raise, try_except, liftW in *.

Lemma bind_ok {S A B} (m : ST S A) (k : A -> ST S B) s b s' :
  (x ← m; k x) s = (Ok b, s') ->
  exists a s1, m s = (Ok a, s1) /\ k a s1 = (Ok b, s').
Proof.
  unfold_monad. destruct (m s) as [[a|e] s1]; [eauto | discriminate].
Qed.

Lemma bind_run {S A B} (m : ST S A) (k : A -> ST S B) s a s1 :
  m s = (Ok a, s1) -> (x ← m; k x) s = k a s1.
Proof. unfold_monad. intros ->. reflexivity. Qed.

Lemma bind_raise {S A B} (m : ST S A) (k : A -> ST S B) s e s1 :
  m s = (Raise e, s1) -> (x ← m; k x) s = (Raise e, s1).
Proof. unfold_monad. intros ->. reflexivity. Qed.

(** A system call either faults or runs its operation one tick later. *)
Lemma syscall_cases {A} (op : M A) w :
  (faults w (ticks w) = true /\
   syscall op w = (Raise (OSError "Input/output error"), tick w)) \/
  (faults w (ticks w) = false /\ syscall op w = op (tick w)).
Proof. unfold syscall. destruct (faults w (ticks w)); auto. Qed.

Lemma syscall_ok {A} (op : M A) w a w' :
  syscall op w = (Ok a, w') ->
  faults w (ticks w) = false /\ op (tick w) = (Ok a, w').
Proof. unfold syscall. destruct (faults w (ticks w)); [discriminate | auto]. Qed.

(** ** The block loop *)

Module LoopFacts.

Import NISTAlgorithms Observations.

Lemma chunk_positive file_size bytes_written :
  bytes_written < file_size ->
  0 < Z.min BLOCK_SIZE (file_size - bytes_written).
Proof. unfold BLOCK_SIZE. lia. Qed.

(** The loop rule: an invariant [I] kept by every iteration holds when the
    loop ends, with all the bytes written; [R] holds when an iteration
    raises. *)
Lemma block_loop_rule (I : handle -> Z -> World -> Prop) (R : World -> Prop)
    gen report file_size :
  (forall f b w, I f b w -> b < file_size ->
     match iteration gen report file_size f b w with
     | (Ok f1, w1) => I f1 (b + Z.min BLOCK_SIZE (file_size - b)) w1
     | (Raise _, w1) => R w1
     end) ->
  forall fuel f b w, I f b w -> (Z.to_nat (file_size - b) <= fuel)%nat ->
     match block_loop fuel gen report file_size f b w with
     | (Ok b', w') => file_size <= b' /\ exists f', I f' b' w'
     | (Raise _, w') => R w'
     end.
Proof.
  intros Hstep. induction fuel as [|fuel IH]; intros f b w HI Hfuel.
  - simpl. unfold_monad. split; [lia | eauto].
  - simpl. destruct (b <? file_size) eqn:Hlt.
    + apply Z.ltb_lt in Hlt.
      specialize (Hstep f b w HI Hlt). unfold iteration in Hstep.
      unfold_monad in *.
      destruct (gen _ w) as [[data|e] w1]; [| exact Hstep].
      destruct (f_write f data w1) as [[f1|e] w2]; [| exact Hstep].
      destruct (report _ w2) as [[u|e] w3]; [| exact Hstep].
      apply IH; [exact Hstep |].
      pose proof (chunk_positive file_size b Hlt). lia.
    + apply Z.ltb_ge in Hlt. unfold_monad. split; [lia | eauto].
Qed.

End LoopFacts.

(** ** How a computation advances the world *)

Import NISTAlgorithms Observations LoopFacts.

Lemma stamped_writes_app evs1 evs2 :
  stamped_writes (evs1 ++ evs2) = stamped_writes evs1 ++ stamped_writes evs2.
Proof. unfold stamped_writes. apply omap_app. Qed.

Lemma write_stamps_app evs1 evs2 :
  write_stamps (evs1 ++ evs2) = write_stamps evs1 ++ write_stamps evs2.
Proof. unfold write_stamps. now rewrite stamped_writes_app, fmap_app. Qed.

Lemma write_stamps_elem t evs :
  t ∈ write_stamps evs -> exists e, e ∈ evs /\ is_write e /\ e.1 = t.
Proof.
  unfold write_stamps, stamped_writes. intros H.
  apply list_elem_of_fmap in H as ([t' d] & -> & H).
  apply list_elem_of_omap in H as ([t0 e] & Hin & He).
  exists (t0, e). split; [exact Hin|].
  unfold stamped_write_of, is_write in *. simpl in *.
  destruct e; inversion He; subst; auto.
Qed.

Lemma timed_nil lo hi : timed lo hi [].
Proof. split; constructor. Qed.

Lemma timed_weaken lo lo' hi hi' evs :
  (lo' <= lo)%nat -> (hi <= hi')%nat -> timed lo hi evs -> timed lo' hi' evs.
Proof.
  intros Hlo Hhi [Hall Hs]. split; [|exact Hs].
  eapply Forall_impl; [exact Hall|]. intros e [Hb Hw]. split; [lia|].
  intros He. specialize (Hw He). lia.
Qed.

Lemma timed_app lo mid hi evs1 evs2 :
  timed lo mid evs1 -> timed mid hi evs2 -> (lo <= mid <= hi)%nat ->
  timed lo hi (evs1 ++ evs2).
Proof.
  intros [H1 S1] [H2 S2] Hm. split.
  - apply Forall_app. split.
    + eapply Forall_impl; [exact H1|]. intros e [Hb Hw]. split; [lia|exact Hw].
    + eapply Forall_impl; [exact H2|]. intros e [Hb Hw]. split; [lia|].
      intros He. specialize (Hw He). lia.
  - rewrite write_stamps_app. apply StronglySorted_app_2; [|exact S1|exact S2].
    intros t1 t2 Ht1 Ht2.
    apply write_stamps_elem in Ht1 as (e1 & Hin1 & _ & <-).
    apply write_stamps_elem in Ht2 as (e2 & Hin2 & Hw2 & <-).
    rewrite Forall_forall in H1, H2.
    destruct (H1 _ Hin1) as [? _]. destruct (H2 _ Hin2) as [_ Hlt].
    specialize (Hlt Hw2). lia.
Qed.

Lemma progress_values_app evs1 evs2 :
  progress_values (evs1 ++ evs2) = progress_values evs1 ++ progress_values evs2.
Proof. unfold progress_values. apply omap_app. Qed.

Lemma climbs_nil lo hi : (lo <= hi)%Q -> climbs lo hi [].
Proof. intros H. split; [exact H|]. split; constructor. Qed.

Lemma climbs_app lo mid hi evs1 evs2 :
  climbs lo mid evs1 -> climbs mid hi evs2 -> climbs lo hi (evs1 ++ evs2).
Proof.
  intros (L1 & B1 & S1) (L2 & B2 & S2).
  split; [eapply Qle_trans; eauto|].
  rewrite progress_values_app. split.
  - apply Forall_app. split.
    + eapply Forall_impl; [exact B1|]. intros q [? ?]. split; [auto|].
      eapply Qle_trans; eauto.
    + eapply Forall_impl; [exact B2|]. intros q [? ?]. split; [|auto].
      eapply Qle_trans; eauto.
  - apply StronglySorted_app_2; [|exact S1|exact S2].
    intros q1 q2 H1 H2. rewrite Forall_forall in B1, B2.
    destruct (B1 _ H1) as [_ ?]. destruct (B2 _ H2) as [? _].
    eapply Qle_trans; eauto.
Qed.

Lemma climbs_level lo lo' hi hi' evs :
  (lo' <= lo)%Q -> (hi <= hi')%Q -> climbs lo hi evs -> climbs lo' hi' evs.
Proof.
  intros Hlo Hhi (L & B & S).
  split; [eapply Qle_trans; [exact Hlo|]; eapply Qle_trans; eauto|].
  split; [|exact S].
  eapply Forall_impl; [exact B|]. intros q [? ?].
  split; eapply Qle_trans; eauto.
Qed.

(** Events without progress values stay at any level. *)
Lemma climbs_quiet q evs : progress_values evs = [] -> climbs q q evs.
Proof.
  intros H. split; [apply Qle_refl|]. rewrite H. split; constructor.
Qed.

Lemma advance_refl k P q w : advance k P q q w w.
Proof.
  repeat split; auto. exists []. rewrite app_nil_r.
  split; [reflexivity|]. split; [constructor|].
  split; [apply timed_nil | apply climbs_nil, Qle_refl].
Qed.

Lemma advance_trans k P lo mid hi w1 w2 w3 :
  advance k P lo mid w1 w2 -> advance k P mid hi w2 w3 -> advance k P lo hi w1 w3.
Proof.
  intros (F1 & E1 & C1 & I1 & K1 & T1 & evs1 & Tr1 & P1 & Tm1 & Cl1)
         (F2 & E2 & C2 & I2 & K2 & T2 & evs2 & Tr2 & P2 & Tm2 & Cl2).
  repeat split; try congruence; try lia.
  { intros Hk. rewrite K2, K1; auto. }
  exists (evs1 ++ evs2). split; [rewrite Tr2, Tr1; now rewrite app_assoc|].
  split; [apply Forall_app; split; [exact P1 | now rewrite <- E1] |].
  split; [eapply timed_app; eauto; lia | eapply climbs_app; eauto].
Qed.

Lemma advance_weaken k (P P' : oracle -> nat * event -> Prop) lo hi w w' :
  (forall en e, P en e -> P' en e) -> advance k P lo hi w w' -> advance k P' lo hi w w'.
Proof.
  intros HPQ (F1 & E1 & C1 & I1 & K1 & T1 & evs1 & Tr1 & P1 & Tm1 & Cl1).
  repeat split; auto. exists evs1. repeat split; auto; try apply Tm1; try apply Cl1.
  eapply Forall_impl; [exact P1|]. auto.
Qed.

Lemma advance_level k P lo lo' hi hi' w w' :
  (lo' <= lo)%Q -> (hi <= hi')%Q -> advance k P lo hi w w' -> advance k P lo' hi' w w'.
Proof.
  intros Hlo Hhi (F1 & E1 & C1 & I1 & K1 & T1 & evs1 & Tr1 & P1 & Tm1 & Cl1).
  repeat split; auto. exists evs1. repeat split; auto; try apply Tm1.
  all: eapply climbs_level in Cl1; eauto; apply Cl1.
Qed.

(** A step that emits nothing. *)
Lemma advance_silent k P q w w' :
  faults w' = faults w -> entropy w' = entropy w ->
  wallclock w' = wallclock w -> interrupt w' = interrupt w ->
  (k = true -> cancel_requested w' = cancel_requested w) ->
  (ticks w <= ticks w')%nat -> trace w' = trace w -> advance k P q q w w'.
Proof.
  intros. repeat split; auto. exists []. rewrite app_nil_r.
  split; [assumption|]. split; [constructor|].
  split; [apply timed_nil | apply climbs_nil, Qle_refl].
Qed.

Lemma advance_tick k P q w : advance k P q q w (tick w).
Proof. apply advance_silent; simpl; auto. Qed.

Lemma advance_set_fs k P q m w : advance k P q q w (set_fs m w).
Proof. apply advance_silent; simpl; auto. Qed.

(** A system call emits its event one tick later. *)
Lemma advance_tick_emit k (P : oracle -> nat * event -> Prop) q e w :
  P (entropy w) (S (ticks w), e) -> (forall v, e <> EvProgress v) ->
  advance k P q q w (emit e (tick w)).
Proof.
  intros HP Hnp. repeat split; simpl; auto. exists [(S (ticks w), e)].
  split; [reflexivity|]. split; [repeat constructor; exact HP|].
  split; [split|].
  - constructor; [|constructor]. split; [simpl; lia|]. intros _. simpl. lia.
  - unfold write_stamps, stamped_writes. simpl.
    unfold stamped_write_of. simpl. destruct e; simpl; repeat constructor.
  - apply climbs_quiet. unfold progress_values. simpl.
    unfold progress_of. simpl. destruct e; try reflexivity.
    exfalso. eapply Hnp. reflexivity.
Qed.

(** The callback reports a value between the two levels. *)
Lemma advance_progress k (P : oracle -> nat * event -> Prop) lo hi v w :
  P (entropy w) (ticks w, EvProgress v) -> (lo <= v)%Q -> (v <= hi)%Q ->
  advance k P lo hi w (record_progress v w).2.
Proof.
  intros HP Hlo Hhi. repeat split; simpl; auto. exists [(ticks w, EvProgress v)].
  split; [reflexivity|]. split; [repeat constructor; exact HP|].
  split; [split|].
  - constructor; [|constructor]. split; [simpl; lia|]. intros H. destruct H.
  - constructor.
  - split; [eapply Qle_trans; eauto|].
    unfold progress_values. simpl. split; repeat constructor; auto.
Qed.

Section Rules.
Context {S : Type} (pi : S -> World) (k : bool)
  (P : oracle -> nat * event -> Prop).

Lemma runs_ret {A} q (a : A) : runs pi k P q q (mret a : ST S A).
Proof. intros s. apply advance_refl. Qed.

Lemma runs_raise {A} q e : runs pi k P q q (raise e : ST S A).
Proof. intros s. apply advance_refl. Qed.

Lemma runs_level {A} lo lo' hi hi' (m : ST S A) :
  (lo' <= lo)%Q -> (hi <= hi')%Q -> runs pi k P lo hi m -> runs pi k P lo' hi' m.
Proof. intros Hlo Hhi Hm s. eapply advance_level; eauto. Qed.

Lemma runs_bind {A B} lo mid hi (m : ST S A) (f : A -> ST S B) :
  (mid <= hi)%Q ->
  runs pi k P lo mid m -> (forall a, runs pi k P mid hi (f a)) ->
  runs pi k P lo hi (x ← m; f x).
Proof.
  intros Hle Hm Hk s. specialize (Hm s). unfold_monad.
  destruct (m s) as [[a|e] s1]; simpl in *.
  - eapply advance_trans; [exact Hm | apply Hk].
  - eapply advance_level; [apply Qle_refl | exact Hle | exact Hm].
Qed.

(** The same at a single level, for code that reports no progress. *)
Lemma runs_seq {A B} q (m : ST S A) (f : A -> ST S B) :
  runs pi k P q q m -> (forall a, runs pi k P q q (f a)) ->
  runs pi k P q q (x ← m; f x).
Proof. apply runs_bind, Qle_refl. Qed.

Lemma runs_try_except {A} lo mid hi (m : ST S A) (h : exn -> ST S A) :
  (lo <= mid)%Q ->
  runs pi k P lo mid m -> (forall e, runs pi k P mid hi (h e)) -> (mid <= hi)%Q ->
  runs pi k P lo hi (try_except m h).
Proof.
  intros Hlm Hm Hh Hle s. specialize (Hm s). unfold try_except.
  destruct (m s) as [[a|e] s1]; simpl in *.
  - eapply advance_level; [apply Qle_refl | exact Hle | exact Hm].
  - eapply advance_trans; [exact Hm | apply Hh].
Qed.

Lemma runs_try_quiet {A} q (m : ST S A) (h : exn -> ST S A) :
  runs pi k P q q m -> (forall e, runs pi k P q q (h e)) ->
  runs pi k P q q (try_except m h).
Proof. intros Hm Hh. apply runs_try_except with (mid := q); auto; apply Qle_refl. Qed.

Lemma runs_if {A} lo hi (b : bool) (m1 m2 : ST S A) :
  runs pi k P lo hi m1 -> runs pi k P lo hi m2 ->
  runs pi k P lo hi (if b then m1 else m2).
Proof. destruct b; auto. Qed.

Lemma runs_for_each {A} q (xs : list A) (body : A -> ST S unit) :
  (forall x, runs pi k P q q (body x)) -> runs pi k P q q (for_each xs body).
Proof.
  intros Hb. induction xs as [|x xs IH]; simpl; [apply runs_ret|].
  apply runs_seq; auto.
Qed.

Lemma runs_filter_m {A} q (keep : A -> ST S bool) (xs : list A) :
  (forall x, runs pi k P q q (keep x)) -> runs pi k P q q (filter_m keep xs).
Proof.
  intros Hb. induction xs as [|x xs IH]; simpl; [apply runs_ret|].
  apply runs_seq; [auto|]. intros b. apply runs_seq; [auto|].
  intros kept. apply runs_ret.
Qed.

End Rules.

Lemma runs_weaken {S A} (pi : S -> World) k (P P' : oracle -> nat * event -> Prop)
    lo hi (m : ST S A) :
  (forall en e, P en e -> P' en e) -> runs pi k P lo hi m -> runs pi k P' lo hi m.
Proof. intros HPQ Hm s. eapply advance_weaken; eauto. Qed.

Lemma runs_liftW {A} k P lo hi (m : M A) :
  runs id k P lo hi m -> runs snd k P lo hi (liftW m).
Proof.
  intros Hm [d w]. specialize (Hm w). unfold liftW. simpl in *.
  destruct (m w) as [r w1]. exact Hm.
Qed.

Lemma runs_syscall {A} k P q (op : M A) :
  (forall w, advance k P q q w (op (tick w)).2) -> runs id k P q q (syscall op).
Proof.
  intros Hop w. unfold syscall, id.
  destruct (faults w (ticks w)); simpl; [apply advance_tick | apply Hop].
Qed.

(** *** System calls *)

Section Primitives.
Context (k : bool) (P : oracle -> nat * event -> Prop) (q : Q).

Ltac silent_call :=
  apply runs_syscall; intros w; simpl;
  repeat match goal with
         | |- context [match ?x with _ => _ end] => destruct x; simpl
         end;
  try apply advance_tick;
  try (eapply advance_trans; [apply advance_tick | apply advance_set_fs]).

Lemma runs_path_exists p : runs id k P q q (path_exists p).
Proof. silent_call. Qed.
Lemma runs_path_is_file p : runs id k P q q (path_is_file p).
Proof. silent_call. Qed.
Lemma runs_path_is_dir p : runs id k P q q (path_is_dir p).
Proof. silent_call. Qed.
Lemma runs_path_is_symlink p : runs id k P q q (path_is_symlink p).
Proof. silent_call. Qed.
Lemma runs_path_stat_size p : runs id k P q q (path_stat_size p).
Proof. unfold path_stat_size. silent_call. Qed.
Lemma runs_f_flush f : runs id k P q q (f_flush f).
Proof. silent_call. Qed.
Lemma runs_f_seek f pos : runs id k P q q (f_seek f pos).
Proof. unfold f_seek. silent_call. Qed.
Lemma runs_f_seek_end f pos : runs id k P q q (f_seek_end f pos).
Proof. unfold f_seek_end. silent_call. Qed.
Lemma runs_f_read f n : runs id k P q q (f_read f n).
Proof. unfold f_read. apply runs_syscall. intros w. simpl. apply advance_tick. Qed.
Lemma runs_iterdir p : runs id k P q q (iterdir p).
Proof. unfold iterdir. silent_call. Qed.
Lemma runs_rglob_all p : runs id k P q q (rglob_all p).
Proof. unfold rglob_all. silent_call. Qed.
Lemma runs_rmdir p : runs id k P q q (rmdir p).
Proof. unfold rmdir. silent_call. Qed.

Lemma runs_os_access p want : runs id k P q q (os_access p want).
Proof.
  intros w. unfold os_access, id.
  destruct (faults w (ticks w)); simpl; [apply advance_tick|].
  destruct (lookup_path (fs w) p) as [[key nd]|]; apply advance_tick.
Qed.

Lemma runs_token_bytes n : runs id k P q q (token_bytes n).
Proof. intros w. apply advance_tick. Qed.

Lemma runs_datetime_now : runs id k P q q datetime_now.
Proof. intros w. apply advance_tick. Qed.

Lemma runs_truediv a b : runs id k P q q (truediv a b).
Proof. unfold truediv. destruct (b =? 0); [apply runs_raise | apply runs_ret]. Qed.

Lemma runs_fdiv x b : runs id k P q q (fdiv x b).
Proof. unfold fdiv. destruct (b =? 0); [apply runs_raise | apply runs_ret]. Qed.

Lemma runs_open_file p md :
  (forall en t, P en (t, EvOpen p md)) -> runs id k P q q (open_file p md).
Proof.
  intros HP. unfold open_file. apply runs_syscall. intros w. simpl.
  destruct (lookup_path (fs w) p) as [[key nd]|]; [|apply advance_tick].
  destruct nd; try apply advance_tick;
    (destruct (may_open md _); [|apply advance_tick]);
    (apply advance_tick_emit; [apply HP | discriminate]).
Qed.

Lemma runs_f_write f data :
  (forall en t, P en (t, EvWrite (h_name f) (h_pos f) data)) ->
  runs id k P q q (f_write f data).
Proof.
  intros HP. unfold f_write. apply runs_syscall. intros w. simpl.
  destruct (fs w !! h_key f) as [[]|]; simpl.
  all: apply advance_tick_emit; [apply HP | discriminate].
Qed.

Lemma runs_os_fsync f :
  (forall en t, P en (t, EvSync (h_name f))) -> runs id k P q q (os_fsync f).
Proof.
  intros HP. apply runs_syscall. intros w. simpl.
  apply advance_tick_emit; [apply HP | discriminate].
Qed.

Lemma runs_unlink p :
  (forall en t, P en (t, EvUnlink p)) -> runs id k P q q (unlink p).
Proof.
  intros HP. unfold unlink. apply runs_syscall. intros w. simpl.
  destruct (fs w !! p) as [[]|]; simpl; try apply advance_tick.
  all: destruct (holder_writable _ _); simpl; [|apply advance_tick].
  all: apply advance_tick_emit; [apply HP | discriminate].
Qed.

End Primitives.

Lemma runs_record_progress k P lo hi v :
  (forall en t, P en (t, EvProgress v)) -> (lo <= v)%Q -> (v <= hi)%Q ->
  runs id k P lo hi (call record_progress v).
Proof. intros HP Hlo Hhi w. unfold call, id. simpl. now apply advance_progress. Qed.

(** *** The sanitization algorithms *)

Lemma f_write_name f data w f1 w1 :
  f_write f data w = (Ok f1, w1) -> h_name f1 = h_name f.
Proof.
  intros H. apply syscall_ok in H as [_ H]. simpl in H.
  destruct (fs w !! h_key f) as [[]|]; now inversion H.
Qed.

Lemma runs_block_loop k P name gen report file_size (level : Z -> Q) :
  (forall q f c, h_name f = name -> runs id k P q q (data ← gen c; f_write f data)) ->
  (forall b b', 0 <= b <= b' -> b' <= file_size ->
     runs id k P (level b) (level b') (report b')) ->
  (forall b b', 0 <= b <= b' -> b' <= file_size -> (level b <= level b')%Q) ->
  forall fuel f b, h_name f = name -> 0 <= b <= file_size ->
    runs id k P (level b) (level file_size)
      (block_loop fuel gen report file_size f b).
Proof.
  intros Hgw Hrep Hmono. induction fuel as [|fuel IH]; intros f b Hname Hb w.
  - simpl. eapply advance_level; [apply Qle_refl | | apply advance_refl].
    apply Hmono; lia.
  - simpl. destruct (b <? file_size) eqn:Hlt.
    + apply Z.ltb_lt in Hlt.
      pose proof (chunk_positive file_size b Hlt) as Hc.
      set (c := Z.min BLOCK_SIZE (file_size - b)) in *.
      assert (Hbc : b + c <= file_size) by (unfold c; lia).
      assert (Hle : (level (b + c)%Z <= level file_size)%Q) by (apply Hmono; lia).
      pose proof (Hgw (level b) f c Hname w) as H1. unfold id in *.
      unfold_monad in *.
      destruct (gen c w) as [[data|e] w1]; simpl in *;
        [| eapply advance_level; [| | exact H1]; [apply Qle_refl | apply Hmono; lia]].
      destruct (f_write f data w1) as [[f1|e] w2] eqn:Hw; simpl in *;
        [| eapply advance_level; [| | exact H1]; [apply Qle_refl | apply Hmono; lia]].
      apply f_write_name in Hw.
      pose proof (Hrep b (b + c) ltac:(lia) Hbc w2) as H2. unfold id in H2.
      destruct (report (b + c) w2) as [[u|e] w3]; simpl in *.
      * eapply advance_trans; [exact H1|].
        eapply advance_trans; [exact H2|].
        apply (IH f1 (b + c)); [congruence | lia].
      * eapply advance_trans; [exact H1|].
        eapply advance_level; [apply Qle_refl | exact Hle | exact H2].
    + eapply advance_level; [apply Qle_refl | | apply advance_refl].
      apply Hmono; lia.
Qed.

Lemma inject_Z_pos z : 0 < z -> (0 < inject_Z z)%Q.
Proof. intros H. unfold Qlt. simpl. lia. Qed.

Lemma inject_Z_le a b : a <= b -> (inject_Z a <= inject_Z b)%Q.
Proof. intros H. rewrite <- Zle_Qle. exact H. Qed.

Lemma Qdiv_le_compat a b c : (0 < c)%Q -> (a <= b)%Q -> (a / c <= b / c)%Q.
Proof.
  intros Hc Hab. unfold Qdiv. apply Qmult_le_compat_r; [exact Hab|].
  apply Qlt_le_weak, Qinv_lt_0_compat, Hc.
Qed.

Lemma clear_level_mono file_size b b' :
  0 < file_size -> b <= b' ->
  (clear_level file_size b <= clear_level file_size b')%Q.
Proof.
  intros HS Hb. unfold clear_level.
  apply Qmult_le_compat_r; [|discriminate].
  apply Qdiv_le_compat; [now apply inject_Z_pos | now apply inject_Z_le].
Qed.

Lemma clear_level_0 file_size : (clear_level file_size 0 == 0)%Q.
Proof. unfold clear_level. unfold Qdiv. now rewrite !Qmult_0_l. Qed.

Lemma inject_Z_nonzero z : z <> 0 -> ~ (inject_Z z == 0)%Q.
Proof. intros H. unfold Qeq. simpl. lia. Qed.

Lemma clear_level_full file_size :
  0 < file_size -> (clear_level file_size file_size == 100)%Q.
Proof.
  intros HS. unfold clear_level. field. apply inject_Z_nonzero. lia.
Qed.

Lemma pass_level_mono file_size pass_num total_passes b b' :
  0 < file_size -> 0 < total_passes -> b <= b' ->
  (pass_level file_size pass_num total_passes b
   <= pass_level file_size pass_num total_passes b')%Q.
Proof.
  intros HS HN Hb. unfold pass_level.
  apply Qmult_le_compat_r; [|discriminate].
  apply Qplus_le_r.
  apply Qdiv_le_compat; [now apply inject_Z_pos|].
  apply Qdiv_le_compat; [now apply inject_Z_pos | now apply inject_Z_le].
Qed.

(** A pass starts where the previous one ended. *)
Lemma pass_level_next file_size pass_num total_passes :
  0 < file_size -> 0 < total_passes ->
  (pass_level file_size pass_num total_passes file_size
   == pass_level file_size (pass_num + 1) total_passes 0)%Q.
Proof.
  intros HS HN. unfold pass_level.
  replace (pass_num + 1 - 1) with (pass_num - 1 + 1) by lia.
  rewrite inject_Z_plus. field.
  split; apply inject_Z_nonzero; lia.
Qed.

Lemma pass_level_first file_size total_passes :
  (pass_level file_size 1 total_passes 0 == 0)%Q.
Proof.
  unfold pass_level. simpl. unfold Qdiv. rewrite !Qmult_0_l. reflexivity.
Qed.

Lemma pass_level_last file_size total_passes :
  0 < file_size -> 0 < total_passes ->
  (pass_level file_size total_passes total_passes file_size == 100)%Q.
Proof.
  intros HS HN. unfold pass_level.
  assert (H : (inject_Z (total_passes - 1) == inject_Z total_passes - 1)%Q).
  { unfold Z.sub. rewrite inject_Z_plus. reflexivity. }
  rewrite H. field.
  split; apply inject_Z_nonzero; lia.
Qed.

Lemma runs_bind_ok {S A B} (pi : S -> World) k P lo mid hi
    (Phi : A -> Prop) (m : ST S A) (f : A -> ST S B) :
  (mid <= hi)%Q ->
  runs pi k P lo mid m ->
  (forall s a s1, m s = (Ok a, s1) -> Phi a) ->
  (forall a, Phi a -> runs pi k P mid hi (f a)) ->
  runs pi k P lo hi (x ← m; f x).
Proof.
  intros Hle Hm HPhi Hf s. specialize (Hm s). specialize (HPhi s). unfold_monad.
  destruct (m s) as [[a|e] s1]; simpl in *.
  - eapply advance_trans; [exact Hm | apply Hf; eauto].
  - eapply advance_level; [apply Qle_refl | exact Hle | exact Hm].
Qed.

Lemma runs_ret_bind {S A B} (pi : S -> World) k P lo hi (a : A)
    (f : A -> ST S B) :
  runs pi k P lo hi (f a) -> runs pi k P lo hi (x ← mret a; f x).
Proof. intros H s. unfold_monad. apply H. Qed.

Lemma path_stat_size_nonneg p w n w1 :
  path_stat_size p w = (Ok n, w1) -> 0 <= n.
Proof.
  intros H. apply syscall_ok in H as [_ H]. simpl in H.
  unfold st_size in H.
  destruct (lookup_path (fs w) p) as [[key []]|]; inversion H; unfold DIR_SIZE; lia.
Qed.

Lemma open_file_name p md w f w1 :
  open_file p md w = (Ok f, w1) -> h_name f = p.
Proof.
  intros H. apply syscall_ok in H as [_ H]. simpl in H.
  destruct (lookup_path (fs w) p) as [[key nd]|]; [|discriminate].
  destruct nd; try discriminate;
    (destruct (may_open md _); [|discriminate]); now inversion H.
Qed.

Lemma permits_open P p md : permits P -> forall en t, P en (t, EvOpen p md).
Proof. intros H en t. apply H. simpl. tauto. Qed.
Lemma permits_write P p o d : permits P -> forall en t, P en (t, EvWrite p o d).
Proof. intros H en t. apply H. simpl. tauto. Qed.
Lemma permits_sync P p : permits P -> forall en t, P en (t, EvSync p).
Proof. intros H en t. apply H. simpl. tauto. Qed.
Lemma permits_unlink P p : permits P -> forall en t, P en (t, EvUnlink p).
Proof. intros H en t. apply H. simpl. tauto. Qed.

Ltac run_quiet :=
  repeat first
    [ apply runs_ret | apply runs_raise
    | apply runs_liftW
    | apply runs_path_exists | apply runs_path_is_file | apply runs_path_is_dir
    | apply runs_path_is_symlink | apply runs_path_stat_size | apply runs_f_flush
    | apply runs_f_seek | apply runs_f_seek_end | apply runs_f_read
    | apply runs_iterdir | apply runs_rglob_all | apply runs_rmdir
    | apply runs_os_access | apply runs_token_bytes | apply runs_datetime_now
    | apply runs_truediv | apply runs_fdiv
    | apply runs_open_file; apply permits_open; assumption
    | apply runs_f_write; apply permits_write; assumption
    | apply runs_os_fsync; apply permits_sync; assumption
    | apply runs_unlink; apply permits_unlink; assumption
    | apply runs_seq; [|intros ?]
    | apply runs_try_quiet; [|intros ?]
    | apply runs_if
    | match goal with
      | |- runs _ _ _ _ _ (match ?x with _ => _ end) => destruct x
      | |- runs _ _ _ _ _ (let _ := _ in _) => cbv zeta
      end ].

Section Algorithms.
Context (k : bool) (P : oracle -> nat * event -> Prop) (Hperm : permits P).

Lemma runs_clear_progress cb file_size q b b' :
  cb_ok P cb -> 0 <= b <= b' -> b' <= file_size ->
  runs id k P (cb_level cb (clear_level file_size) q b)
    (cb_level cb (clear_level file_size) q b')
    (clear_progress cb file_size b').
Proof.
  intros [-> | [-> Hpr]] Hb Hb'; simpl; [apply runs_ret|].
  unfold truediv. destruct (file_size =? 0) eqn:HS.
  - apply Z.eqb_eq in HS. assert (b = b') as -> by lia.
    intros w. unfold_monad. apply advance_refl.
  - apply Z.eqb_neq in HS. apply runs_ret_bind.
    apply runs_record_progress; [intros; apply Hpr | | apply Qle_refl].
    apply clear_level_mono; lia.
Qed.

Lemma cb_level_clear_mono cb file_size q b b' :
  0 <= b <= b' -> b' <= file_size ->
  (cb_level cb (clear_level file_size) q b
   <= cb_level cb (clear_level file_size) q b')%Q.
Proof.
  intros Hb Hb'. destruct cb; simpl; [|apply Qle_refl].
  destruct (Z.eq_dec file_size 0) as [-> | HS].
  - assert (b = b') as -> by lia. apply Qle_refl.
  - apply clear_level_mono; lia.
Qed.

Lemma clear_level_le_100 file_size : 0 <= file_size ->
  (clear_level file_size file_size <= 100)%Q.
Proof.
  intros HS. destruct (Z.eq_dec file_size 0) as [-> | Hnz].
  - rewrite clear_level_0. discriminate.
  - rewrite clear_level_full by lia. apply Qle_refl.
Qed.

Lemma span_levels cb (level : Z -> Q) lo hi (file_size : Z) :
  span cb lo hi -> (0 <= level 0%Z)%Q -> (level file_size <= 100)%Q ->
  (lo <= cb_level cb level lo 0%Z)%Q /\ (cb_level cb level lo file_size <= hi)%Q.
Proof.
  destruct cb; simpl.
  - intros [Hlo Hhi] H0 H1. split; eapply Qle_trans; eauto.
  - intros -> _ _. split; apply Qle_refl.
Qed.

Lemma span_le cb lo hi : span cb lo hi -> (lo <= hi)%Q.
Proof.
  destruct cb; simpl.
  - intros [Hlo Hhi]. eapply Qle_trans; [exact Hlo|].
    eapply Qle_trans; [|exact Hhi]. discriminate.
  - intros ->. apply Qle_refl.
Qed.

Lemma runs_clear_method path cb lo hi :
  cb_ok P cb -> span cb lo hi -> runs id k P lo hi (clear_method path cb).
Proof.
  intros Hcb Hspan. pose proof (span_le _ _ _ Hspan) as Hle.
  unfold clear_method.
  apply runs_try_except with (mid := hi);
    [exact Hle | | intros e; apply runs_ret | apply Qle_refl].
  apply runs_bind with (mid := lo); [exact Hle | run_quiet |]. intros present.
  apply runs_if; [apply runs_level with (lo := lo) (hi := lo);
                  [apply Qle_refl | exact Hle | apply runs_ret] |].
  apply runs_bind_ok with (mid := lo) (Phi := fun n => 0 <= n);
    [exact Hle | run_quiet | apply path_stat_size_nonneg |].
  intros file_size HS.
  apply runs_bind_ok with (mid := lo) (Phi := fun f => h_name f = path);
    [exact Hle | run_quiet | apply open_file_name |].
  intros f Hname.
  apply runs_bind with (mid := hi); [apply Qle_refl | | intros b'; run_quiet].
  destruct (span_levels cb (clear_level file_size) lo hi file_size Hspan) as [H0 H1].
  { rewrite clear_level_0. apply Qle_refl. }
  { now apply clear_level_le_100. }
  eapply runs_level; [exact H0 | exact H1 |].
  apply runs_block_loop with (name := path) (level := cb_level cb (clear_level file_size) lo).
  - intros q f0 c Hf0. run_quiet.
  - intros b b' Hb Hb'. now apply runs_clear_progress.
  - intros b b' Hb Hb'. now apply cb_level_clear_mono.
  - exact Hname.
  - lia.
Qed.

Lemma pass_end_le_next file_size pass_num total_passes :
  0 <= file_size -> 0 < total_passes ->
  (pass_level file_size pass_num total_passes file_size
   <= pass_level file_size (pass_num + 1) total_passes 0)%Q.
Proof.
  intros HS HN. destruct (Z.eq_dec file_size 0) as [-> | Hnz].
  - unfold pass_level. apply Qmult_le_compat_r; [|discriminate].
    apply Qplus_le_l. apply Qdiv_le_compat; [now apply inject_Z_pos|].
    apply inject_Z_le. lia.
  - rewrite pass_level_next by lia. apply Qle_refl.
Qed.

Lemma pass_start_mono file_size total_passes p p' :
  0 < total_passes -> p <= p' ->
  (pass_level file_size p total_passes 0
   <= pass_level file_size p' total_passes 0)%Q.
Proof.
  intros HN Hp. unfold pass_level. apply Qmult_le_compat_r; [|discriminate].
  apply Qplus_le_l. apply Qdiv_le_compat; [now apply inject_Z_pos|].
  apply inject_Z_le. lia.
Qed.

Lemma pass_level_top file_size total_passes :
  0 < total_passes ->
  (pass_level file_size (total_passes + 1) total_passes 0 == 100)%Q.
Proof.
  intros HN. unfold pass_level.
  replace (total_passes + 1 - 1) with total_passes by lia.
  assert (H : (inject_Z 0 / inject_Z file_size / inject_Z total_passes == 0)%Q).
  { unfold Qdiv. rewrite !Qmult_0_l. reflexivity. }
  rewrite H. field. apply inject_Z_nonzero. lia.
Qed.

Lemma cb_level_pass_mono cb file_size p total_passes q b b' :
  0 < total_passes -> 0 <= b <= b' -> b' <= file_size ->
  (cb_level cb (pass_level file_size p total_passes) q b
   <= cb_level cb (pass_level file_size p total_passes) q b')%Q.
Proof.
  intros HN Hb Hb'. destruct cb; simpl; [|apply Qle_refl].
  destruct (Z.eq_dec file_size 0) as [-> | HS].
  - assert (b = b') as -> by lia. apply Qle_refl.
  - apply pass_level_mono; lia.
Qed.

Lemma runs_pass_progress_report cb file_size p total_passes q b b' :
  cb_ok P cb -> 0 < total_passes -> 0 <= b <= b' -> b' <= file_size ->
  runs id k P (cb_level cb (pass_level file_size p total_passes) q b)
    (cb_level cb (pass_level file_size p total_passes) q b')
    (pass_progress_report cb file_size p total_passes b').
Proof.
  intros [-> | [-> Hpr]] HN Hb Hb'; simpl; [apply runs_ret|].
  unfold truediv, fdiv.
  destruct (total_passes =? 0) eqn:HN0; [apply Z.eqb_eq in HN0; lia|].
  apply runs_ret_bind.
  destruct (file_size =? 0) eqn:HS.
  - apply Z.eqb_eq in HS. assert (b = b') as -> by lia.
    intros w. unfold_monad. apply advance_refl.
  - apply Z.eqb_neq in HS. apply runs_ret_bind. apply runs_ret_bind.
    apply runs_record_progress; [intros; apply Hpr | | apply Qle_refl].
    apply pass_level_mono; lia.
Qed.

Lemma runs_pass_data q pattern f c :
  runs id k P q q (data ← pass_data pattern c; f_write f data).
Proof. unfold pass_data. run_quiet. Qed.

Lemma runs_overwrite_pass path file_size pattern p total_passes cb q :
  cb_ok P cb -> 0 <= file_size -> 0 < total_passes ->
  runs id k P (cb_level cb (pass_level file_size p total_passes) q 0)
    (cb_level cb (pass_level file_size p total_passes) q file_size)
    (_overwrite_pass path file_size pattern p total_passes cb).
Proof.
  intros Hcb HS HN.
  set (L := cb_level cb (pass_level file_size p total_passes) q).
  assert (Hle : (L 0%Z <= L file_size)%Q) by (apply cb_level_pass_mono; lia).
  unfold _overwrite_pass.
  apply runs_try_except with (mid := L file_size);
    [exact Hle | | intros e; apply runs_ret | apply Qle_refl].
  apply runs_bind_ok with (mid := L 0) (Phi := fun f => h_name f = path);
    [exact Hle | run_quiet | apply open_file_name |].
  intros f Hname.
  apply runs_bind with (mid := L file_size); [apply Qle_refl | | intros b'; run_quiet].
  apply runs_block_loop with (name := path) (level := L).
  - intros q0 f0 c Hf0. apply runs_pass_data.
  - intros b b' Hb Hb'. now apply runs_pass_progress_report.
  - intros b b' Hb Hb'. now apply cb_level_pass_mono.
  - exact Hname.
  - lia.
Qed.

Lemma py_range_nil a b : b <= a -> py_range a b = [].
Proof. intros H. unfold py_range. replace (Z.to_nat (b - a)) with O by lia. reflexivity. Qed.

Lemma py_range_cons a b : a < b -> py_range a b = a :: py_range (a + 1) b.
Proof.
  intros H. unfold py_range.
  replace (Z.to_nat (b - a)) with (S (Z.to_nat (b - (a + 1)))) by lia.
  simpl. rewrite Z.add_0_r. f_equal.
  rewrite <- seq_shift, map_map. apply map_ext. intros i. lia.
Qed.

Lemma runs_purge_passes path file_size total_passes cb q :
  cb_ok P cb -> 0 <= file_size -> 0 < total_passes ->
  forall n p, n = Z.to_nat (total_passes + 1 - p) -> p <= total_passes + 1 ->
  runs id k P (cb_level cb (pass_level file_size p total_passes) q 0)
    (cb_level cb (pass_level file_size (total_passes + 1) total_passes) q 0)
    (purge_passes (py_range p (total_passes + 1)) path file_size total_passes cb).
Proof.
  intros Hcb HS HN. induction n as [|n IH]; intros p Hn Hp.
  - rewrite py_range_nil by lia. simpl.
    assert (p = total_passes + 1) as -> by lia. apply runs_ret.
  - rewrite py_range_cons by lia. simpl.
    assert (Hnext : (cb_level cb (pass_level file_size p total_passes) q file_size
                     <= cb_level cb (pass_level file_size (p + 1) total_passes) q 0)%Q).
    { destruct cb; simpl; [now apply pass_end_le_next | apply Qle_refl]. }
    assert (Htop : (cb_level cb (pass_level file_size (p + 1)%Z total_passes) q 0%Z
                    <= cb_level cb (pass_level file_size (total_passes + 1)%Z total_passes) q 0%Z)%Q).
    { destruct cb; simpl; [apply pass_start_mono; lia | apply Qle_refl]. }
    eapply runs_bind; [| now apply runs_overwrite_pass |].
    + eapply Qle_trans; eauto.
    + intros ok. apply runs_if.
      * eapply runs_level; [apply Qle_refl | | apply runs_ret].
        eapply Qle_trans; eauto.
      * eapply runs_level; [exact Hnext | apply Qle_refl |].
        apply IH; lia.
Qed.

Lemma runs_verify_overwrite q path : runs id k P q q (_verify_overwrite path).
Proof. unfold _verify_overwrite. run_quiet. Qed.

Lemma runs_verify_wipe q path : runs id k P q q (verify_wipe path).
Proof. unfold verify_wipe. run_quiet. Qed.

Lemma runs_purge_method path total_passes cb lo hi :
  cb_ok P cb -> span cb lo hi -> 0 < total_passes ->
  runs id k P lo hi (purge_method path total_passes cb).
Proof.
  intros Hcb Hspan HN. pose proof (span_le _ _ _ Hspan) as Hle.
  unfold purge_method.
  apply runs_try_except with (mid := hi);
    [exact Hle | | intros e; apply runs_ret | apply Qle_refl].
  apply runs_bind with (mid := lo); [exact Hle | run_quiet |]. intros present.
  apply runs_if; [apply runs_level with (lo := lo) (hi := lo);
                  [apply Qle_refl | exact Hle | apply runs_ret] |].
  apply runs_bind_ok with (mid := lo) (Phi := fun n => 0 <= n);
    [exact Hle | run_quiet | apply path_stat_size_nonneg |].
  intros file_size HS.
  apply runs_bind with (mid := hi); [apply Qle_refl | |
    intros completed; run_quiet; apply runs_verify_overwrite].
  assert (H0 : (lo <= cb_level cb (pass_level file_size 1%Z total_passes) lo 0%Z)%Q).
  { destruct cb; simpl; [|apply Qle_refl]. destruct Hspan as [Hlo _].
    rewrite pass_level_first. exact Hlo. }
  assert (H1 : (cb_level cb (pass_level file_size (total_passes + 1)%Z total_passes) lo 0%Z <= hi)%Q).
  { destruct cb; simpl; [|rewrite Hspan; apply Qle_refl]. destruct Hspan as [_ Hhi].
    rewrite pass_level_top by lia. exact Hhi. }
  eapply runs_level; [exact H0 | exact H1 |].
  eapply runs_purge_passes; eauto. lia.
Qed.

End Algorithms.

(** *** The wiping engine *)

Import WipingEngine.

Lemma advance_relax k P lo hi w w' :
  advance true P lo hi w w' -> advance k P lo hi w w'.
Proof.
  intros (F1 & E1 & C1 & I1 & K1 & T1 & R). repeat split; auto.
Qed.

Lemma runs_relax {S A} (pi : S -> World) k P lo hi (m : ST S A) :
  runs pi true P lo hi m -> runs pi k P lo hi m.
Proof. intros H s. apply advance_relax, H. Qed.

Section LocalDict.
Context (k : bool) (P : oracle -> nat * event -> Prop) (q : Q).

Lemma runs_setitem key v : runs snd k P q q (setitem key v).
Proof. intros s. apply advance_refl. Qed.

Lemma runs_getitem key : runs snd k P q q (getitem key).
Proof. intros s. unfold getitem. destruct (s.1 !! key); apply advance_refl. Qed.

Lemma runs_append_item key v : runs snd k P q q (append_item key v).
Proof.
  intros s. unfold append_item.
  destruct (s.1 !! key) as [[]|]; apply advance_refl.
Qed.

Lemma runs_incr_item key : runs snd k P q q (incr_item key).
Proof.
  intros s. unfold incr_item.
  destruct (s.1 !! key) as [[]|]; apply advance_refl.
Qed.

Lemma runs_dict_getitem {S} (pi : S -> World) d key :
  runs pi k P q q (dict_getitem d key).
Proof. unfold dict_getitem. destruct (d !! key); [apply runs_ret | apply runs_raise]. Qed.

Lemma runs_get_cancel : runs id k P q q get_cancel.
Proof. intros w. apply advance_refl. Qed.

Lemma runs_stamp_end start_time : runs snd k P q q (stamp_end start_time).
Proof.
  unfold stamp_end. apply runs_seq; [apply runs_liftW, runs_datetime_now|].
  intros end_time. apply runs_seq; [apply runs_setitem|]. intros _.
  apply runs_setitem.
Qed.

End LocalDict.

Lemma runs_returning_result k P lo hi init (body : ML unit) :
  runs snd k P lo hi body -> runs id k P lo hi (returning_result init body).
Proof.
  intros H w. specialize (H (init, w)). unfold returning_result, id. simpl in *.
  destruct (body (init, w)) as [[u|e] s1]; exact H.
Qed.

Lemma runs_try_except_finally {S A} (pi : S -> World) k P lo hi
    (body : ST S A) (handler : exn -> ST S A) (cleanup : ST S unit) :
  runs pi k P lo hi (try_except body handler) ->
  runs pi k P hi hi cleanup ->
  runs pi k P lo hi (try_except_finally body handler cleanup).
Proof.
  intros Hb Hc s. specialize (Hb s). unfold try_except_finally.
  destruct (try_except body handler s) as [r s1]. simpl in Hb.
  specialize (Hc s1). destruct (cleanup s1) as [[u|e] s2]; simpl in *;
    eapply advance_trans; eauto.
Qed.

Ltac run_local :=
  repeat first
    [ apply runs_setitem | apply runs_getitem | apply runs_append_item
    | apply runs_incr_item | apply runs_dict_getitem | apply runs_get_cancel
    | apply runs_stamp_end | apply runs_verify_wipe; assumption
    | apply runs_verify_overwrite; assumption
    | progress run_quiet ].

Section Engine.
Context (P : oracle -> nat * event -> Prop) (Hperm : permits P).

Lemma runs_wipe_file k path method cb lo hi :
  cb_ok P cb -> span cb lo hi ->
  runs id k P lo hi (wipe_file path method cb).
Proof.
  intros Hcb Hspan. pose proof (span_le _ _ _ Hspan) as Hle.
  unfold wipe_file.
  apply runs_bind with (mid := lo); [exact Hle | run_quiet |]. intros start_time.
  apply runs_returning_result. apply runs_try_except_finally; [|run_local].
  apply runs_try_except with (mid := hi);
    [exact Hle | | intros e; run_local | apply Qle_refl].
  assert (Hret : forall (m : ML unit), runs snd k P lo lo m -> runs snd k P lo hi m).
  { intros m Hm. eapply runs_level; [apply Qle_refl | exact Hle | exact Hm]. }
  apply runs_bind with (mid := lo); [exact Hle | run_local |]. intros present.
  apply runs_if; [apply Hret; run_local|].
  apply runs_bind with (mid := lo); [exact Hle | run_local |]. intros cancelled.
  apply runs_if; [apply Hret; run_local|].
  apply runs_bind with (mid := lo); [exact Hle | run_local |]. intros file_size.
  cbv zeta.
  assert (Hfin : forall success : bool,
            runs snd k P hi hi
              (setitem "success" (JBool success);;
               (if success
                then verified ← liftW (verify_wipe path);
                     setitem "verified" (JBool verified)
                else mret tt))).
  { intros success. run_local. }
  apply runs_if; [| apply runs_if; [| apply Hret; run_local]].
  - apply runs_bind with (mid := hi); [apply Qle_refl | | exact Hfin].
    apply runs_liftW. now apply runs_clear_method.
  - apply runs_bind with (mid := hi); [apply Qle_refl | | exact Hfin].
    apply runs_liftW. apply runs_purge_method; auto. lia.
Qed.

End Engine.

Section Batch.
Context (P : oracle -> nat * event -> Prop) (Hperm : permits P).

Lemma runs_poll_interrupt q idx : runs id false P q q (poll_interrupt idx).
Proof.
  intros w. unfold poll_interrupt, id.
  destruct (interrupt w idx); [|apply advance_refl].
  simpl. apply advance_silent; simpl; auto. discriminate.
Qed.

Lemma clear_level_lt_100 total b :
  0 <= b < total -> (clear_level total b < 100)%Q.
Proof.
  intros Hb. unfold clear_level.
  assert (H : (inject_Z total / inject_Z total * 100 == 100)%Q)
    by (field; apply inject_Z_nonzero; lia).
  apply Qlt_le_trans with (y := (inject_Z total / inject_Z total * 100)%Q);
    [| rewrite H; apply Qle_refl].
  apply Qmult_lt_compat_r; [reflexivity|].
  unfold Qdiv. apply Qmult_lt_compat_r.
  - apply Qinv_lt_0_compat, inject_Z_pos. lia.
  - rewrite <- Zlt_Qlt. lia.
Qed.

Lemma cb_ok_low cb : cb_ok P cb -> cb_low P cb.
Proof. intros [-> | [-> H]]; [now left | right]. split; [reflexivity|]. intros; apply H. Qed.

(** The report made before file [idx] of [total]. *)
Lemma runs_batch_progress k cb total q (idx : nat) :
  cb_low P cb -> Z.of_nat idx < total ->
  runs id k P (cb_level cb (clear_level total) q (Z.of_nat idx))
    (cb_level cb (clear_level total) q (Z.of_nat idx))
    (batch_progress cb idx total).
Proof.
  intros [-> | [-> Hpr]] Ht; simpl; [apply runs_ret|].
  unfold truediv. destruct (total =? 0) eqn:HS; [apply Z.eqb_eq in HS; lia|].
  apply runs_ret_bind.
  apply runs_record_progress; [| apply Qle_refl | apply Qle_refl].
  intros en t. apply Hpr. apply clear_level_lt_100. lia.
Qed.

Lemma runs_remove_empty_dirs k q depth folder :
  runs id k P q q (_remove_empty_dirs depth folder).
Proof.
  revert folder. induction depth as [|depth IH]; intros folder; simpl.
  - apply runs_raise.
  - apply runs_seq; [run_quiet|]. intros items.
    apply runs_for_each. intros item.
    apply runs_seq; [run_quiet|]. intros is_dir.
    apply runs_if; [|apply runs_ret].
    apply runs_seq; [apply IH|]. intros _.
    apply runs_try_quiet; [run_quiet|]. intros e. destruct e; run_quiet.
Qed.

Lemma runs_selection_loop cb total method q files :
  cb_low P cb ->
  forall idx, Z.of_nat idx + Z.of_nat (length files) = total ->
  runs snd false P (cb_level cb (clear_level total) q (Z.of_nat idx))
    (cb_level cb (clear_level total) q total)
    (selection_loop files idx total method cb).
Proof.
  intros Hcb. induction files as [|file_path rest IH]; intros idx Hlen; simpl in *.
  - replace (Z.of_nat idx) with total by lia. apply runs_ret.
  - set (L := cb_level cb (clear_level total) q) in *.
    assert (Hup : (L (Z.of_nat idx) <= L total)%Q)
      by (apply cb_level_clear_mono; lia).
    assert (Hnext : (L (Z.of_nat idx) <= L (Z.of_nat (S idx)))%Q)
      by (apply cb_level_clear_mono; lia).
    assert (Hret : forall (m : ML unit),
              runs snd false P (L (Z.of_nat idx)) (L (Z.of_nat idx)) m ->
              runs snd false P (L (Z.of_nat idx)) (L total) m).
    { intros m Hm. eapply runs_level; [apply Qle_refl | exact Hup | exact Hm]. }
    eapply runs_bind; [exact Hup | apply runs_liftW, runs_poll_interrupt |].
    intros _.
    eapply runs_bind; [exact Hup | run_local |]. intros cancelled.
    apply runs_if; [apply Hret; run_local|].
    eapply runs_bind; [exact Hup | apply runs_liftW |].
    { apply (runs_batch_progress false cb total q idx Hcb); lia. }
    intros _.
    eapply runs_bind; [exact Hup | apply runs_liftW |].
    { apply runs_relax. apply runs_wipe_file; [exact Hperm | now left | reflexivity]. }
    intros file_result.
    eapply runs_bind; [exact Hup | run_local |]. intros _.
    eapply runs_bind; [exact Hup | run_local |]. intros success.
    eapply runs_bind; [exact Hup | apply runs_if; run_local |]. intros _.
    eapply runs_level; [exact Hnext | apply Qle_refl |].
    apply IH. lia.
Qed.

Lemma runs_folder_loop cb total method q files :
  cb_low P cb ->
  forall idx, Z.of_nat idx + Z.of_nat (length files) = total ->
  runs snd false P (cb_level cb (clear_level total) q (Z.of_nat idx))
    (cb_level cb (clear_level total) q total)
    (folder_loop files idx total method cb).
Proof.
  intros Hcb. induction files as [|file_path rest IH]; intros idx Hlen; simpl in *.
  - replace (Z.of_nat idx) with total by lia. apply runs_ret.
  - set (L := cb_level cb (clear_level total) q) in *.
    assert (Hup : (L (Z.of_nat idx) <= L total)%Q)
      by (apply cb_level_clear_mono; lia).
    assert (Hnext : (L (Z.of_nat idx) <= L (Z.of_nat (S idx)))%Q)
      by (apply cb_level_clear_mono; lia).
    assert (Hret : forall (m : ML unit),
              runs snd false P (L (Z.of_nat idx)) (L (Z.of_nat idx)) m ->
              runs snd false P (L (Z.of_nat idx)) (L total) m).
    { intros m Hm. eapply runs_level; [apply Qle_refl | exact Hup | exact Hm]. }
    eapply runs_bind; [exact Hup | apply runs_liftW, runs_poll_interrupt |].
    intros _.
    eapply runs_bind; [exact Hup | run_local |]. intros cancelled.
    apply runs_if; [apply Hret; run_local|].
    eapply runs_bind; [exact Hup | apply runs_liftW |].
    { apply (runs_batch_progress false cb total q idx Hcb); lia. }
    intros _.
    eapply runs_bind; [exact Hup | apply runs_liftW |].
    { apply runs_relax. apply runs_wipe_file; [exact Hperm | now left | reflexivity]. }
    intros file_result.
    eapply runs_bind; [exact Hup | run_local |]. intros success.
    eapply runs_bind; [exact Hup | apply runs_if; run_local |]. intros _.
    eapply runs_level; [exact Hnext | apply Qle_refl |].
    apply IH. lia.
Qed.

Lemma batch_levels cb lo hi total :
  span cb lo hi -> 0 <= total ->
  (lo <= cb_level cb (clear_level total) lo 0)%Q /\
  (cb_level cb (clear_level total) lo total <= hi)%Q.
Proof.
  intros Hspan Ht. apply span_levels; [exact Hspan | |].
  - rewrite clear_level_0. apply Qle_refl.
  - now apply clear_level_le_100.
Qed.

Lemma runs_wipe_selection file_list method cb lo hi :
  cb_low P cb -> span cb lo hi ->
  runs id false P lo hi (wipe_selection file_list method cb).
Proof.
  intros Hcb Hspan. pose proof (span_le _ _ _ Hspan) as Hle.
  unfold wipe_selection.
  apply runs_bind with (mid := lo); [exact Hle | run_quiet |]. intros start_time.
  cbv zeta.
  apply runs_returning_result. apply runs_try_except_finally; [|run_local].
  apply runs_try_except with (mid := hi);
    [exact Hle | | intros e; run_local | apply Qle_refl].
  destruct (batch_levels cb lo hi (Z.of_nat (length file_list)) Hspan ltac:(lia))
    as [H0 H1].
  eapply runs_level; [exact H0 | exact H1 |].
  apply (runs_selection_loop cb _ method lo file_list Hcb 0%nat). lia.
Qed.

Lemma runs_wipe_folder folder_path method recursive cb lo hi :
  cb_low P cb -> span cb lo hi ->
  runs id false P lo hi (wipe_folder folder_path method recursive cb).
Proof.
  intros Hcb Hspan. pose proof (span_le _ _ _ Hspan) as Hle.
  unfold wipe_folder.
  apply runs_bind with (mid := lo); [exact Hle | run_quiet |]. intros start_time.
  apply runs_returning_result. apply runs_try_except_finally; [|run_local].
  apply runs_try_except with (mid := hi);
    [exact Hle | | intros e; run_local | apply Qle_refl].
  assert (Hret : forall A (m : ML A), runs snd false P lo lo m -> runs snd false P lo hi m).
  { intros A m Hm. eapply runs_level; [apply Qle_refl | exact Hle | exact Hm]. }
  apply runs_bind with (mid := lo); [exact Hle | run_local |]. intros present.
  apply runs_bind with (mid := lo); [exact Hle | run_local |]. intros is_dir.
  apply runs_if; [apply Hret; run_local|].
  apply runs_bind with (mid := lo); [exact Hle | run_local |]. intros items.
  apply runs_bind with (mid := lo); [exact Hle | |].
  { apply runs_liftW. apply runs_filter_m. intros x. run_quiet. }
  intros files_to_wipe. cbv zeta.
  apply runs_bind with (mid := lo); [exact Hle | run_local |]. intros _.
  apply runs_bind with (mid := hi); [apply Qle_refl | |].
  - destruct (batch_levels cb lo hi (Z.of_nat (length files_to_wipe)) Hspan ltac:(lia))
      as [H0 H1].
    eapply runs_level; [exact H0 | exact H1 |].
    apply (runs_folder_loop cb _ method lo files_to_wipe Hcb 0%nat). lia.
  - intros _. apply runs_if; [|apply runs_ret].
    apply runs_liftW. apply runs_try_quiet; [|intros e; apply runs_ret].
    apply runs_remove_empty_dirs.
Qed.

End Batch.
Lemma writes_app evs1 evs2 : writes (evs1 ++ evs2) = writes evs1 ++ writes evs2.
Proof. unfold writes. apply omap_app. Qed.

Lemma sequential_app start ws1 ws2 :
  sequential start (ws1 ++ ws2) <->
  sequential start ws1 /\
  sequential (start + Z.of_nat (length (concat ws1.*2))) ws2.
Proof.
  revert start. induction ws1 as [|[off d] ws1 IH]; intros start; simpl.
  - rewrite Z.add_0_r. tauto.
  - rewrite IH, length_app, Nat2Z.inj_add, Z.add_assoc. tauto.
Qed.

Lemma bytes_mul_single b n :
  bytes_mul [b] n = replicate (Z.to_nat n) b.
Proof.
  unfold bytes_mul. induction (Z.to_nat n) as [|k IH]; simpl; [reflexivity|].
  now rewrite IH.
Qed.

Lemma f_write_spec f data w :
  (faults w (ticks w) = true /\
   f_write f data w = (Raise (OSError "Input/output error"), tick w)) \/
  (faults w (ticks w) = false /\
   exists w1,
     f_write f data w =
       (Ok {| h_name := h_name f; h_key := h_key f;
              h_pos := h_pos f + Z.of_nat (length data) |}, w1) /\
     trace w1 = trace w ++ [(S (ticks w), EvWrite (h_name f) (h_pos f) data)] /\
     ticks w1 = S (ticks w) /\ faults w1 = faults w /\ entropy w1 = entropy w /\
     wallclock w1 = wallclock w /\ interrupt w1 = interrupt w /\
     cancel_requested w1 = cancel_requested w).
Proof.
  unfold f_write, syscall. destruct (faults w (ticks w)); [left; auto | right].
  split; [reflexivity|].
  destruct (fs (tick w) !! h_key f) as [[old pm| | |]|]; eexists; (split; [reflexivity|]); simpl; auto 10.
Qed.

Lemma clear_progress_spec cb file_size b w :
  cb = None \/ cb = Some record_progress -> file_size <> 0 ->
  exists w1 evs, clear_progress cb file_size b w = (Ok tt, w1) /\
    trace w1 = trace w ++ evs /\
    Forall (fun e => exists q, e.2 = EvProgress q) evs /\
    ticks w1 = ticks w /\ fs w1 = fs w.
Proof.
  intros [-> | ->] HS; simpl.
  - exists w, []. unfold_monad. rewrite app_nil_r. auto.
  - unfold truediv. apply Z.eqb_neq in HS. rewrite HS. unfold_monad. unfold call, record_progress.
    eexists _, [_]. split; [reflexivity|]. simpl. repeat split; eauto.
Qed.

Lemma written_bytes_app evs1 evs2 :
  written_bytes (evs1 ++ evs2) = written_bytes evs1 ++ written_bytes evs2.
Proof. unfold written_bytes. now rewrite writes_app, fmap_app, concat_app. Qed.

Lemma writes_progress evs :
  Forall (fun e => exists q, e.2 = EvProgress q) evs -> writes evs = [].
Proof.
  induction 1 as [|[t e] evs [q Hq] _ IH]; [reflexivity|].
  simpl in Hq. subst e. exact IH.
Qed.

Lemma progress_body path evs :
  Forall (fun e => exists q, e.2 = EvProgress q) evs -> Forall (body_event path) evs.
Proof.
  intros H. eapply Forall_impl; [exact H|].
  intros [t e] [q Hq]. simpl in Hq. subst e. exact I.
Qed.

Lemma clear_iteration path cb file_size w0 f b w :
  cb = None \/ cb = Some record_progress ->
  clear_inv path file_size w0 f b w -> b < file_size ->
  match iteration (fun chunk_size => mret (bytes_mul [Byte.x00] chunk_size))
          (clear_progress cb file_size) file_size f b w with
  | (Ok f1, w1) =>
      clear_inv path file_size w0 f1 (b + Z.min BLOCK_SIZE (file_size - b)) w1
  | (Raise _, _) => True
  end.
Proof.
  intros Hcb (Hname & Hpos & Hb & body & Htr & Hbody & Hseq & Hbytes & Hcount & Hmult) Hlt.
  unfold iteration. set (c := Z.min BLOCK_SIZE (file_size - b)).
  assert (Hc : 0 < c <= BLOCK_SIZE /\ b + c <= file_size) by (unfold c, BLOCK_SIZE; lia).
  unfold_monad.
  destruct (f_write_spec f (bytes_mul [Byte.x00] c) w) as [[_ ->] | [_ (w1 & -> & Htr1 & _)]]; [exact I|].
  destruct (clear_progress_spec cb file_size (b + c) w1 Hcb ltac:(lia))
    as (w2 & evs & -> & Htr2 & Hevs & _).
  rewrite bytes_mul_single in *.
  split; [exact Hname|]. split; [simpl; rewrite length_replicate; lia|].
  split; [lia|].
  exists (body ++ [(S (ticks w), EvWrite (h_name f) (h_pos f) (replicate (Z.to_nat c) Byte.x00))] ++ evs).
  split; [rewrite Htr2, Htr1, Htr; now rewrite <- !app_assoc|].
  split.
  { apply Forall_app; split; [exact Hbody|]. apply Forall_app; split.
    - constructor; [exact Hname | constructor].
    - now apply progress_body. }
  rewrite !writes_app, (writes_progress evs Hevs), app_nil_r.
  split.
  { apply sequential_app. split; [exact Hseq|]. simpl. split; [|exact I].
    fold (written_bytes body). rewrite Hbytes, length_replicate. lia. }
  split.
  { rewrite !written_bytes_app. unfold written_bytes at 3.
    rewrite (writes_progress evs Hevs). simpl. rewrite !app_nil_r.
    unfold written_bytes at 2. simpl. rewrite app_nil_r, Hbytes.
    rewrite <- replicate_add. f_equal. lia. }
  rewrite length_app. simpl length.
  specialize (Hmult Hlt). unfold ceil_div in *. unfold c, BLOCK_SIZE in *.
  split; [| intros ?]; lia.
Qed.

Lemma path_exists_ok p w b w1 :
  path_exists p w = (Ok b, w1) -> b = exists_in (fs w) p /\ w1 = tick w.
Proof. intros H. apply syscall_ok in H as [_ H]. now inversion H. Qed.

Lemma path_stat_size_ok p w n w1 :
  path_stat_size p w = (Ok n, w1) -> st_size (fs w) p = Some n /\ w1 = tick w.
Proof.
  intros H. apply syscall_ok in H as [_ H]. simpl in H.
  destruct (st_size (fs w) p); now inversion H.
Qed.

Lemma open_file_ok p md w f w1 :
  open_file p md w = (Ok f, w1) ->
  h_name f = p /\ h_pos f = 0 /\
  w1 = emit (EvOpen p md) (tick w).
Proof.
  intros H. apply syscall_ok in H as [_ H]. simpl in H.
  destruct (lookup_path (fs w) p) as [[k nd]|]; [|discriminate].
  destruct nd; try discriminate;
    (destruct (may_open md _); [|discriminate]); now inversion H.
Qed.

Lemma f_flush_ok f w u w1 : f_flush f w = (Ok u, w1) -> w1 = tick w.
Proof. intros H. apply syscall_ok in H as [_ H]. now inversion H. Qed.

Lemma os_fsync_ok f w u w1 :
  os_fsync f w = (Ok u, w1) -> w1 = emit (EvSync (h_name f)) (tick w).
Proof. intros H. apply syscall_ok in H as [_ H]. now inversion H. Qed.

Lemma unlink_ok p w u w1 :
  unlink p w = (Ok u, w1) ->
  w1 = set_fs (delete p (fs w)) (emit (EvUnlink p) (tick w)).
Proof.
  intros H. apply syscall_ok in H as [_ H]. simpl in H.
  destruct (fs w !! p) as [[]|]; try discriminate;
    (destruct (holder_writable _ _); [|discriminate]); now inversion H.
Qed.

Lemma exists_in_delete m p : exists_in (delete p m) p = false.
Proof.
  unfold exists_in, lookup_path, SYMLOOP_MAX. simpl.
  now rewrite lookup_delete_eq.
Qed.

(** C1: when [clear_method] returns [True] on a file of [size] bytes, the
    path no longer exists, and between the opening of the file and its
    sync there are exactly [ceil (size / 65536)] writes, one after the
    other from offset 0, whose bytes are [size] zeros. *)
Theorem clear_method_correct (path : string) (cb : option callback)
    (w w' : World) (size : Z) :
  cb = None \/ cb = Some record_progress ->
  st_size (fs w) path = Some size ->
  clear_method path cb w = (Ok true, w') ->
  exists_in (fs w') path = false /\
  exists t_open body t_sync t_unlink,
    trace w' = trace w ++ (t_open, EvOpen path ReadWriteBinary) :: body
                 ++ [(t_sync, EvSync path); (t_unlink, EvUnlink path)] /\
    Forall (body_event path) body /\
    length (writes body) = Z.to_nat (ceil_div size BLOCK_SIZE) /\
    written_bytes body = replicate (Z.to_nat size) Byte.x00 /\
    sequential 0 (writes body).
Proof.
  intros Hcb Hsize Hrun. unfold clear_method in Hrun.
  unfold try_except in Hrun.
  match type of Hrun with context [match ?b w with _ => _ end] =>
    destruct (b w) as [[r|e] wz] eqn:Hbody end;
    [| unfold_monad in Hrun; discriminate].
  inversion Hrun; subst r wz; clear Hrun.
  apply bind_ok in Hbody as (present & w1 & Hex & Hbody).
  apply path_exists_ok in Hex as [-> ->].
  destruct (negb (exists_in (fs w) path)); [unfold_monad in Hbody; discriminate|].
  apply bind_ok in Hbody as (n & w2 & Hst & Hbody).
  apply path_stat_size_ok in Hst as [Hst ->]. simpl in Hst.
  rewrite Hsize in Hst. inversion Hst; subst n; clear Hst.
  apply bind_ok in Hbody as (f & w3 & Hop & Hbody).
  apply open_file_ok in Hop as (Hname & Hpos & ->).
  apply bind_ok in Hbody as (b' & w4 & Hloop & Hbody).
  apply bind_ok in Hbody as (u1 & w5 & Hfl & Hbody).
  apply f_flush_ok in Hfl as ->.
  apply bind_ok in Hbody as (u2 & w6 & Hsy & Hbody).
  apply os_fsync_ok in Hsy as ->.
  apply bind_ok in Hbody as (u3 & w7 & Hun & Hbody).
  apply unlink_ok in Hun as ->.
  unfold_monad in Hbody. inversion Hbody; subst w'; clear Hbody.
  simpl. split; [apply exists_in_delete|].
  assert (Hsz : 0 <= size).
  { unfold st_size in Hsize. destruct (lookup_path (fs w) path) as [[k []]|]; inversion Hsize; unfold DIR_SIZE; lia. }
  set (w3 := emit (EvOpen path ReadWriteBinary) (tick (tick (tick w)))) in *.
  pose proof (block_loop_rule (clear_inv path size w3) (fun _ => True) _ _ size
                (fun f b w HI Hlt => clear_iteration path cb size w3 f b w Hcb HI Hlt)
                (Z.to_nat size) f 0 w3) as Hrule.
  rewrite Hloop in Hrule.
  assert (Hinit : clear_inv path size w3 f 0 w3).
  { repeat split; auto; try lia. exists []. rewrite app_nil_r.
    repeat split; auto. }
  specialize (Hrule Hinit ltac:(lia)). clear Hinit.
  destruct Hrule as (Hge & f' & _ & _ & Hb' & body & Htr & Hbody & Hseq & Hbytes & Hcount & _).
  assert (b' = size) by lia. subst b'.
  eexists _, body, _, _.
  split.
  { rewrite Htr. unfold w3. simpl. rewrite Hname. rewrite <- !app_assoc. reflexivity. }
  repeat split; auto. now rewrite <- Hcount, Nat2Z.id.
Qed.

(** ** Certificates *)

Module CertificateFacts.

Import CertificateManager.

Section WithLibrary.
Context (lib : Library).

Lemma fromhex_empty : fromhex_chars (list_ascii_of_string "") = Some [].
Proof. reflexivity. Qed.

(** Building the self-signed certificate fails on [datetime.timedelta]:
    the class [datetime.datetime] has no such attribute. *)
Lemma timedelta_lookup_fails {S} (s : S) :
  exists msg, getattr global_datetime "timedelta" s = (Raise (AttributeError msg), s).
Proof. eexists. reflexivity. Qed.

(** After [_initialize_keys] the certificate is what it was before. *)
Lemma initialize_keys_certificate s :
  certificate lib (_initialize_keys lib s).2 = certificate lib s.
Proof.
  unfold _initialize_keys, try_except, rsa_generate_private_key.
  unfold_monad.
  destruct (generate_private_key lib (c_ticks lib s)); reflexivity.
Qed.

(** [_initialize_keys] stores the private key whenever one is generated. *)
Lemma initialize_keys_private_key s key :
  generate_private_key lib (c_ticks lib s) = Some key ->
  private_key lib (_initialize_keys lib s).2 = Some key.
Proof.
  intros H. unfold _initialize_keys, try_except, rsa_generate_private_key.
  unfold_monad. rewrite H. reflexivity.
Qed.

(** A manager built by [__init__] holds no certificate. *)
Lemma init_certificate s : certificate lib (init lib s).2 = None.
Proof.
  unfold init, modify. unfold_monad.
  rewrite (surjective_pairing (_initialize_keys lib _)).
  simpl. rewrite initialize_keys_certificate. reflexivity.
Qed.

Lemma init_ok s : exists s', init lib s = (Ok tt, s').
Proof.
  unfold init, modify, _initialize_keys, try_except, rsa_generate_private_key.
  unfold_monad.
  destruct (generate_private_key lib _); eexists; reflexivity.
Qed.

(** [sign_deletion_log] never raises. *)
Lemma sign_deletion_log_total data s :
  exists signature s', sign_deletion_log lib data s = (Ok signature, s').
Proof.
  unfold sign_deletion_log, try_except.
  destruct (private_key lib s) as [key|]; [|unfold_monad; eauto].
  destruct (pss_sign lib key _ _); unfold_monad; eauto.
Qed.

Lemma sign_deletion_log_no_key data s :
  private_key lib s = None -> sign_deletion_log lib data s = (Ok "", s).
Proof.
  intros H. unfold sign_deletion_log, try_except. rewrite H. reflexivity.
Qed.

Lemma sign_deletion_log_failure data s key :
  private_key lib s = Some key ->
  pss_sign lib key (c_ticks lib s) (json_dumps_sorted lib (JDict data)) = None ->
  (sign_deletion_log lib data s).1 = Ok "".
Proof.
  intros Hk Hs. unfold sign_deletion_log, try_except. rewrite Hk, Hs. reflexivity.
Qed.

(** On success the signature is the hex form of the PSS signature of the
    sorted-key serialization of the data. *)
Lemma sign_deletion_log_success data s key signature :
  private_key lib s = Some key ->
  pss_sign lib key (c_ticks lib s) (json_dumps_sorted lib (JDict data)) = Some signature ->
  sign_deletion_log lib data s = (Ok (bytes_hex signature), c_tick lib s).
Proof.
  intros Hk Hs. unfold sign_deletion_log, try_except. rewrite Hk, Hs. reflexivity.
Qed.

Lemma sign_deletion_log_frame data s :
  certificate lib (sign_deletion_log lib data s).2 = certificate lib s /\
  docs lib (sign_deletion_log lib data s).2 = docs lib s.
Proof.
  unfold sign_deletion_log, try_except.
  destruct (private_key lib s) as [key|]; [|split; reflexivity].
  destruct (pss_sign lib key _ _); split; reflexivity.
Qed.


(** A certificate whose signature or public key is empty or missing is
    rejected. *)
Lemma verify_certificate_rejects cert_path s cert_data :
  docs lib s !! cert_path = Some (JDict cert_data) ->
  dict_get cert_data "signature" (JStr "") = JStr "" \/
  dict_get cert_data "public_key" (JStr "") = JStr "" ->
  (verify_certificate lib cert_path s).1 = Ok false.
Proof.
  intros Hdoc Hempty. unfold verify_certificate, try_except, read_json.
  unfold_monad.
  destruct (c_faults lib s (c_ticks lib s)); [reflexivity|].
  rewrite Hdoc. unfold bytes_fromhex.
  destruct (dict_get cert_data "signature" (JStr "")) as [| | | |sig| |] eqn:Hsig;
    try reflexivity.
  destruct (fromhex_chars (list_ascii_of_string sig)) as [[|b bs]|] eqn:Hhex;
    try reflexivity.
  destruct Hempty as [Hs | Hp]; [inversion Hs; subst; discriminate|].
  assert (Hpk : dict_get (delete "signature" cert_data) "public_key" (JStr "") = JStr "").
  { unfold dict_get in *. rewrite lookup_delete_ne by discriminate. exact Hp. }
  unfold_monad. simpl. rewrite Hpk. reflexivity.
Qed.

(** The manager object is not changed by the helpers of
    [generate_wipe_certificate]. *)
Definition same_manager (s s' : State lib) : Prop :=
  private_key lib s' = private_key lib s /\ certificate lib s' = certificate lib s.

Lemma same_manager_refl s : same_manager s s.
Proof. split; reflexivity. Qed.

Lemma same_manager_trans s1 s2 s3 :
  same_manager s1 s2 -> same_manager s2 s3 -> same_manager s1 s3.
Proof. intros [? ?] [? ?]. split; congruence. Qed.

Lemma now_ok s t s1 : now lib s = (Ok t, s1) -> same_manager s s1.
Proof. intros H. inversion H. split; reflexivity. Qed.

Lemma generate_certificate_id_ok s i s1 :
  _generate_certificate_id lib s = (Ok i, s1) -> same_manager s s1.
Proof. intros H. inversion H. split; reflexivity. Qed.

Lemma get_method_description_ok method s d s1 :
  _get_method_description lib method s = (Ok d, s1) -> s1 = s.
Proof.
  unfold _get_method_description, raise. unfold_monad.
  destruct method as [| | | |m| |]; try (intros H; now inversion H).
  destruct (String.eqb m "clear"); [intros H; now inversion H|].
  destruct (String.eqb m "purge"); intros H; now inversion H.
Qed.

Lemma file_entries_ok files : forall s l s1,
  file_entries lib files s = (Ok l, s1) -> s1 = s.
Proof.
  induction files as [|x files IH]; intros s l s1 H; simpl in H.
  - now inversion H.
  - destruct x; try discriminate.
    apply bind_ok in H as (entries & s2 & H1 & H2).
    apply IH in H1. subst s2. now inversion H2.
Qed.

Lemma sliced_files_ok files s l s1 :
  sliced_files lib files s = (Ok l, s1) -> s1 = s.
Proof.
  unfold sliced_files. destruct files; try discriminate.
  - destruct (String.eqb s0 ""); [intros H; now inversion H | discriminate].
  - apply file_entries_ok.
Qed.

Lemma sign_deletion_log_ok data s signature s1 :
  sign_deletion_log lib data s = (Ok signature, s1) ->
  same_manager s s1 /\
  (private_key lib s = None \/
   (exists key, private_key lib s = Some key /\
                forall t msg, pss_sign lib key t msg = None) ->
   signature = "").
Proof.
  unfold sign_deletion_log, try_except.
  destruct (private_key lib s) as [key|] eqn:Hk.
  - destruct (pss_sign lib key _ _) eqn:Hs; intros H; inversion H; subst.
    + split; [split; reflexivity|].
      intros [Hn | (key' & Hk' & Hfail)]; [discriminate|].
      inversion Hk'; subst. rewrite Hfail in Hs. discriminate.
    + split; [split; reflexivity | reflexivity].
  - intros H. inversion H; subst. split; [apply same_manager_refl | reflexivity].
Qed.

Lemma default_output_path_ok s p s1 :
  default_output_path lib s = (Ok p, s1) -> same_manager s s1.
Proof. intros H. inversion H. split; reflexivity. Qed.

(** What a successful [generate_wipe_certificate] leaves in the file. *)
Lemma generate_wipe_certificate_ok operation_results output_path s p s1 :
  generate_wipe_certificate lib operation_results output_path s = (Ok p, s1) ->
  exists cert_data signature,
    docs lib s1 !! p = Some (JDict cert_data) /\
    cert_data !! "signature" = Some (JStr signature) /\
    cert_data !! "public_key" =
      Some (JStr (match certificate lib s with
                  | None => ""
                  | Some public_key => public_bytes_pem lib public_key
                  end)) /\
    (private_key lib s = None \/
     (exists key, private_key lib s = Some key /\
                  forall t msg, pss_sign lib key t msg = None) ->
     signature = "").
Proof.
  intros H. unfold generate_wipe_certificate, try_except in H.
  match type of H with context [match ?m s with _ => _ end] =>
    destruct (m s) as [[r|e] sz] eqn:Hbody end; [|discriminate].
  inversion H; subst r sz; clear H.
  apply bind_ok in Hbody as (certificate_id & s2 & H1 & Hbody).
  apply generate_certificate_id_ok in H1.
  apply bind_ok in Hbody as (timestamp & s3 & H2 & Hbody).
  apply now_ok in H2.
  apply bind_ok in Hbody as (method_description & s4 & H3 & Hbody).
  apply get_method_description_ok in H3. subst s4.
  apply bind_ok in Hbody as (files & s4 & H4 & Hbody).
  apply sliced_files_ok in H4. subst s4.
  cbv zeta in Hbody.
  apply bind_ok in Hbody as (signature & s4 & H5 & Hbody).
  apply sign_deletion_log_ok in H5 as [H5 Hsig].
  apply bind_ok in Hbody as (public_key & s5 & H6 & Hbody).
  assert (Hm : same_manager s s4).
  { eapply same_manager_trans; [exact H1|].
    eapply same_manager_trans; [exact H2 | exact H5]. }
  assert (Hpem : public_key = match certificate lib s with
                              | None => ""
                              | Some pk => public_bytes_pem lib pk
                              end /\ s5 = s4).
  { unfold _get_public_key_pem in H6. destruct Hm as [_ Hc]. rewrite Hc in H6.
    destruct (certificate lib s); now inversion H6. }
  destruct Hpem as [-> ->].
  apply bind_ok in Hbody as (path & s6 & H7 & Hbody).
  apply bind_ok in Hbody as (u & s7 & H8 & Hbody).
  unfold_monad in Hbody. inversion Hbody; subst; clear Hbody.
  unfold write_json in H8.
  destruct (c_faults lib s6 (c_ticks lib s6)); [discriminate|].
  inversion H8; subst; clear H8. simpl.
  eexists _, signature. split; [apply lookup_insert_eq|].
  split; [rewrite lookup_insert_ne by discriminate; apply lookup_insert_eq|].
  split; [apply lookup_insert_eq|].
  intros Hfail. apply Hsig.
  destruct H1 as [Hk1 _]. destruct H2 as [Hk2 _].
  destruct Hfail as [Hn | (key & Hk & Hf)].
  - left. congruence.
  - right. exists key. split; [congruence | exact Hf].
Qed.

End WithLibrary.

(** C3 (round trip): a manager built by [__init__] never holds a
    certificate, so every certificate it generates carries an empty
    public key and [verify_certificate] rejects it. *)
Theorem generated_certificate_fails_verification (lib : Library)
    (s0 : State lib) (operation_results : dict) (output_path : option string) :
  match (init lib;; generate_wipe_certificate lib operation_results output_path) s0 with
  | (Ok p, s1) => (verify_certificate lib p s1).1 = Ok false
  | (Raise _, _) => True
  end.
Proof.
  destruct (init_ok lib s0) as [s Hinit].
  pose proof (init_certificate lib s0) as Hcert. rewrite Hinit in Hcert. simpl in Hcert.
  unfold_monad. rewrite Hinit.
  destruct (generate_wipe_certificate lib operation_results output_path s)
    as [[p|e] s1] eqn:Hgen; [|exact I].
  apply generate_wipe_certificate_ok in Hgen
    as (cert_data & signature & Hdoc & _ & Hpk & _).
  rewrite Hcert in Hpk.
  eapply verify_certificate_rejects; [exact Hdoc|].
  right. unfold dict_get. rewrite Hpk. reflexivity.
Qed.

(** C10: [sign_deletion_log] never raises and yields the empty string on
    any failure; [verify_certificate] rejects an empty or missing
    signature, hence every certificate generated after a signing
    failure. *)
Theorem signing_failure_never_verifies (lib : Library) :
  (forall data s, exists signature s',
      sign_deletion_log lib data s = (Ok signature, s')) /\
  (forall data s, private_key lib s = None ->
      sign_deletion_log lib data s = (Ok "", s)) /\
  (forall data s key, private_key lib s = Some key ->
      pss_sign lib key (c_ticks lib s) (json_dumps_sorted lib (JDict data)) = None ->
      (sign_deletion_log lib data s).1 = Ok "") /\
  (forall cert_path s cert_data,
      docs lib s !! cert_path = Some (JDict cert_data) ->
      cert_data !! "signature" = None \/
      cert_data !! "signature" = Some (JStr "") ->
      (verify_certificate lib cert_path s).1 = Ok false) /\
  (forall operation_results output_path s p s1,
      private_key lib s = None \/
      (exists key, private_key lib s = Some key /\
                   forall t msg, pss_sign lib key t msg = None) ->
      generate_wipe_certificate lib operation_results output_path s = (Ok p, s1) ->
      (verify_certificate lib p s1).1 = Ok false).
Proof.
  split; [apply sign_deletion_log_total|].
  split; [apply sign_deletion_log_no_key|].
  split; [apply sign_deletion_log_failure|].
  split.
  - intros cert_path s cert_data Hdoc Hsig.
    eapply verify_certificate_rejects; [exact Hdoc|].
    left. unfold dict_get. destruct Hsig as [-> | ->]; reflexivity.
  - intros operation_results output_path s p s1 Hfail Hgen.
    apply generate_wipe_certificate_ok in Hgen
      as (cert_data & signature & Hdoc & Hsig & _ & Hempty).
    rewrite (Hempty Hfail) in Hsig.
    eapply verify_certificate_rejects; [exact Hdoc|].
    left. unfold dict_get. rewrite Hsig. reflexivity.
Qed.

Import Scenarios.

(** With the toy library: after [__init__] a certificate is generated
    but does not verify; a manager that holds its public key produces
    one that does. *)
Example fresh_manager_certificate_rejected :
  let run := (init toy_library;;
              generate_wipe_certificate toy_library one_file_batch
                (Some "cert.json")) (blank false) in
  run.1 = Ok "cert.json" /\
  (verify_certificate toy_library "cert.json" run.2).1 = Ok false.
Proof. split; vm_compute; reflexivity. Qed.

Example keyed_manager_certificate_verifies :
  let run := generate_wipe_certificate toy_library one_file_batch
               (Some "cert.json") keyed in
  run.1 = Ok "cert.json" /\
  (verify_certificate toy_library "cert.json" run.2).1 = Ok true.
Proof. split; vm_compute; reflexivity. Qed.


End CertificateFacts.

(** ** Invariants of the local result dict *)

Section Keeps.
Context (Inv : dict -> Prop).

Lemma keeps_ret {A} (a : A) : keeps Inv (mret a).
Proof. intros s H. exact H. Qed.

Lemma keeps_raise {A} e : keeps Inv (raise e : ML A).
Proof. intros s H. exact H. Qed.

Lemma keeps_bind {A B} (m : ML A) (f : A -> ML B) :
  keeps Inv m -> (forall a, keeps Inv (f a)) -> keeps Inv (x ← m; f x).
Proof.
  intros Hm Hf s H. specialize (Hm s H). unfold_monad.
  destruct (m s) as [[a|e] s1]; simpl in *; [apply Hf, Hm | exact Hm].
Qed.

Lemma keeps_try_except {A} (m : ML A) (h : exn -> ML A) :
  keeps Inv m -> (forall e, keeps Inv (h e)) -> keeps Inv (try_except m h).
Proof.
  intros Hm Hh s H. specialize (Hm s H). unfold try_except.
  destruct (m s) as [[a|e] s1]; simpl in *; [exact Hm | apply Hh, Hm].
Qed.


Lemma keeps_if {A} (b : bool) (m1 m2 : ML A) :
  keeps Inv m1 -> keeps Inv m2 -> keeps Inv (if b then m1 else m2).
Proof. destruct b; auto. Qed.

Lemma keeps_liftW {A} (m : M A) : keeps Inv (liftW m).
Proof. intros [d w] H. unfold liftW. simpl. destruct (m w). exact H. Qed.

Lemma keeps_for_each {A} (xs : list A) (body : A -> ML unit) :
  (forall x, keeps Inv (body x)) -> keeps Inv (for_each xs body).
Proof.
  intros Hb. induction xs as [|x xs IH]; simpl; [apply keeps_ret|].
  apply keeps_bind; auto.
Qed.

Lemma keeps_getitem key : keeps Inv (getitem key).
Proof. intros s H. unfold getitem. destruct (s.1 !! key); exact H. Qed.

Lemma keeps_dict_getitem d key : keeps Inv (dict_getitem d key).
Proof. unfold dict_getitem. destruct (d !! key); [apply keeps_ret | apply keeps_raise]. Qed.

Lemma keeps_setitem key v :
  (forall d, Inv d -> Inv (<[key := v]> d)) -> keeps Inv (setitem key v).
Proof. intros HI s H. apply HI, H. Qed.

Lemma keeps_append_item key v :
  (forall d l, Inv d -> d !! key = Some (JList l) ->
               Inv (<[key := JList (l ++ [v])]> d)) ->
  keeps Inv (append_item key v).
Proof.
  intros HI s H. unfold append_item.
  destruct (s.1 !! key) as [[]|] eqn:Hk; simpl; auto.
Qed.


Lemma keeps_len_item key : keeps Inv (Validator.len_item key).
Proof.
  unfold Validator.len_item. apply keeps_bind; [apply keeps_getitem|].
  intros []; try apply keeps_ret; apply keeps_raise.
Qed.


Lemma safe_append_item key v :
  (forall d, Inv d -> holds_list d key) -> safe Inv (append_item key v).
Proof.
  intros HI s H. destruct (HI _ H) as [l Hl]. unfold append_item.
  rewrite Hl. eauto.
Qed.

Lemma safe_incr_item key :
  (forall d, Inv d -> holds_int d key) -> safe Inv (incr_item key).
Proof.
  intros HI s H. destruct (HI _ H) as [n Hn]. unfold incr_item.
  rewrite Hn. eauto.
Qed.


(** A function body that keeps [Inv], with a handler and a clean-up that
    keep it and do not raise, returns a dict that satisfies [Inv]. *)
Lemma returning_result_ok init (body : ML unit) w :
  Inv init -> keeps Inv body -> safe Inv body ->
  exists d w', returning_result init body w = (Ok d, w') /\ Inv d.
Proof.
  intros Hi Hk Hs. unfold returning_result.
  destruct (Hs (init, w) Hi) as (u & s' & Hrun).
  specialize (Hk (init, w) Hi). rewrite Hrun in *. simpl in Hk. eauto.
Qed.

Lemma safe_try_except {A} (m : ML A) (h : exn -> ML A) :
  keeps Inv m -> (forall e, safe Inv (h e)) -> safe Inv (try_except m h).
Proof.
  intros Hk Hh s H. specialize (Hk s H). unfold try_except.
  destruct (m s) as [[a|e] s1]; simpl in *; [eauto | apply Hh, Hk].
Qed.


End Keeps.

Ltac keep_auto :=
  repeat first
    [ apply keeps_ret | apply keeps_raise | apply keeps_liftW
    | apply keeps_getitem | apply keeps_dict_getitem | apply keeps_len_item
    | apply keeps_bind; [|intros ?]
    | apply keeps_try_except; [|intros ?]
    | apply keeps_if
    | apply keeps_for_each; intros ?
    | match goal with
      | |- keeps _ (match ?x with _ => _ end) => destruct x
      | |- keeps _ (let _ := _ in _) => cbv zeta
      end ].

(** *** Running dict operations on a known dict *)

Lemma setitem_run key v d w :
  setitem key v (d, w) = (Ok tt, (<[key := v]> d, w)).
Proof. reflexivity. Qed.

Lemma getitem_run key v d w :
  d !! key = Some v -> getitem key (d, w) = (Ok v, (d, w)).
Proof. intros H. unfold getitem. simpl. now rewrite H. Qed.

Lemma append_item_run key v d w l :
  d !! key = Some (JList l) ->
  append_item key v (d, w) = (Ok tt, (<[key := JList (l ++ [v])]> d, w)).
Proof. intros H. unfold append_item. simpl. now rewrite H. Qed.

Lemma incr_item_run key d w n :
  d !! key = Some (JInt n) ->
  incr_item key (d, w) = (Ok tt, (<[key := JInt (n + 1)]> d, w)).
Proof. intros H. unfold incr_item. simpl. now rewrite H. Qed.

Lemma len_item_run key d w l :
  d !! key = Some (JList l) ->
  Validator.len_item key (d, w) = (Ok (Z.of_nat (length l)), (d, w)).
Proof.
  intros H. unfold Validator.len_item. unfold_monad.
  rewrite (getitem_run _ _ _ _ H). reflexivity.
Qed.

Lemma liftW_run {A} (m : M A) d w r w1 :
  m w = (r, w1) -> liftW m (d, w) = (r, (d, w1)).
Proof. intros H. unfold liftW. simpl. now rewrite H. Qed.

(** Looks a literal key up in a stack of inserts. *)
Ltac solve_lookup :=
  repeat (rewrite lookup_insert_ne by discriminate);
  first [ apply lookup_insert_eq | apply lookup_empty | eassumption ].

Ltac dict_step :=
  first
    [ rewrite setitem_run
    | erewrite getitem_run by solve_lookup
    | erewrite append_item_run by solve_lookup
    | erewrite incr_item_run by solve_lookup
    | erewrite len_item_run by solve_lookup ];
  cbv beta iota.

Ltac ml_run :=
  repeat first
    [ dict_step
    | progress cbv beta iota zeta delta
        [fst snd truthy negb app length Z.of_nat Pos.of_succ_nat
         Pos.succ Z.eqb Pos.eqb] ].

Lemma syscall_run {A} (op : M A) w :
  faults w (ticks w) = false -> syscall op w = op (tick w).
Proof. intros H. unfold syscall. now rewrite H. Qed.

Ltac insert_solver :=
  intros; unfold holds_bool, holds_list, holds_int in *;
  repeat match goal with
         | H : _ /\ _ |- _ => destruct H
         | H : exists _, _ |- _ => destruct H
         end;
  repeat split;
  rewrite ?lookup_insert_eq, ?lookup_insert_ne by discriminate; eauto.


(** ** The validator *)

Module ValidatorFacts.

Import Platforms Validator.

Definition checked (ok_key : string) (d : dict) : Prop :=
  holds_bool d ok_key /\ holds_list d "errors".

(** [validate_path] always returns a dict, with a boolean [valid] and a
    list of [errors]. *)
Lemma validate_path_ok path w :
  exists d w', validate_path path w = (Ok d, w') /\ checked "valid" d.
Proof.
  unfold validate_path. apply returning_result_ok.
  - unfold checked. insert_solver.
  - keep_auto; try (apply keeps_setitem; unfold checked; insert_solver);
      try (apply keeps_append_item; unfold checked; insert_solver).
  - apply safe_try_except.
    + keep_auto; try (apply keeps_setitem; unfold checked; insert_solver);
        try (apply keeps_append_item; unfold checked; insert_solver).
    + intros e. apply safe_append_item. unfold checked. tauto.
Qed.


(** Lower-casing keeps a prefix that is already in lower case. *)
Lemma prefix_lower pre : forall path,
  lower pre = pre -> String.prefix pre path = true ->
  String.prefix pre (lower path) = true.
Proof.
  induction pre as [|c pre IH]; intros path Hl Hp; [now destruct path|].
  destruct path as [|c' path]; [discriminate|]. simpl in *.
  inversion Hl as [[Hc Hpre]]. rewrite Hc, Hpre.
  destruct (ascii_dec c c') as [<- | Hne]; [|discriminate].
  rewrite Hc. destruct (ascii_dec c c) as [_ | Hne]; [|contradiction].
  now apply IH.
Qed.

Lemma on_deny_list_lower system_paths path :
  Forall (fun pre => lower pre = pre) system_paths ->
  on_deny_list system_paths path = true ->
  on_deny_list system_paths (lower path) = true.
Proof.
  intros Hall H. unfold on_deny_list in *.
  apply existsb_exists in H as (pre & Hin & Hpre).
  apply existsb_exists. exists pre. split; [exact Hin|].
  unfold startswith in *. apply prefix_lower; [|exact Hpre].
  rewrite Forall_forall in Hall. apply Hall. now apply list_elem_of_In.
Qed.

(** The deny lists of the two handlers are in lower case, so a path they
    flag is still flagged once lower-cased, as [validate_selection] does
    before asking. *)
Lemma is_system_file_lower handler path :
  handler = WindowsPlatform \/ handler = MacOSPlatform ->
  is_system_file handler path = true ->
  is_system_file handler (lower path) = true.
Proof.
  intros [-> | ->] H.
  - apply (on_deny_list_lower windows_system_paths); [repeat constructor | exact H].
  - apply (on_deny_list_lower macos_system_paths); [repeat constructor | exact H].
Qed.

(** C9, as the code has it: a path flagged by the platform handler makes
    the selection invalid and never reaches [valid_files]; it is listed
    in [system_files] when [validate_path] accepts it, whatever
    [validate_permissions] would say, and in [invalid_files]
    otherwise. *)
Theorem system_file_never_valid (handler : platform_handler) (p : string)
    (w : World) :
  handler = WindowsPlatform \/ handler = MacOSPlatform ->
  is_system_file handler p = true ->
  exists d w' d_p w_p,
    validate_selection [p] (Some handler) w = (Ok d, w') /\
    validate_path p w = (Ok d_p, w_p) /\
    d !! "valid" = Some (JBool false) /\
    d !! "valid_files" = Some (JList []) /\
    ((d_p !! "valid" = Some (JBool true) /\
      d !! "system_files" = Some (JList [JStr p]) /\
      d !! "invalid_files" = Some (JList []))
     \/
     (d_p !! "valid" = Some (JBool false) /\
      d !! "system_files" = Some (JList []) /\
      exists reasons,
        d !! "invalid_files" =
          Some (JList [JDict (<["path" := JStr p]> (<["reasons" := reasons]> ∅))]))).
Proof.
  intros Hh Hsys. apply (is_system_file_lower _ _ Hh) in Hsys.
  destruct (validate_path_ok p w) as (d_p & w_p & Hvp & [b Hb] & [l Hl]).
  unfold validate_selection, returning_result. simpl for_each.
  unfold check_file. unfold mbind, ST_bind, bind, mret, ST_ret, ret.
  rewrite (liftW_run _ _ _ _ _ Hvp). cbv beta iota.
  unfold dict_getitem. rewrite Hb. unfold mbind, ST_bind, bind, mret, ST_ret, ret. cbv beta iota. simpl truthy.
  destruct b; ml_run.
  - rewrite Hsys. ml_run.
    eexists _, _, d_p, w_p. split; [reflexivity|].
    split; [exact Hvp|]. split; [solve_lookup|]. split; [solve_lookup|].
    left. split; [exact Hb|]. split; solve_lookup.
  - rewrite Hl. ml_run.
    eexists _, _, d_p, w_p. split; [reflexivity|].
    split; [exact Hvp|]. split; [solve_lookup|]. split; [solve_lookup|].
    right. split; [exact Hb|]. split; [solve_lookup|].
    exists (JList l). solve_lookup.
Qed.

Import Scenarios.

Lemma system_file_never_valid_witness :
  exists d w' d_p w_p,
    validate_selection ["/etc/shadow"] (Some WindowsPlatform) (calm shadowed) = (Ok d, w') /\
    validate_path "/etc/shadow" (calm shadowed) = (Ok d_p, w_p) /\
    d !! "valid" = Some (JBool false) /\
    d !! "valid_files" = Some (JList []) /\
    ((d_p !! "valid" = Some (JBool true) /\
      d !! "system_files" = Some (JList [JStr "/etc/shadow"]) /\
      d !! "invalid_files" = Some (JList []))
     \/
     (d_p !! "valid" = Some (JBool false) /\
      d !! "system_files" = Some (JList []) /\
      exists reasons,
        d !! "invalid_files" =
          Some (JList [JDict (<["path" := JStr "/etc/shadow"]>
                              (<["reasons" := reasons]> ∅))]))).
Proof.
  apply (system_file_never_valid WindowsPlatform "/etc/shadow" (calm shadowed)).
  - left. reflexivity.
  - vm_compute. reflexivity.
Defined.

(** C9, as stated, fails for a system file that cannot be read: it is
    flagged by the handler but is reported in [invalid_files], and
    [system_files] stays empty. *)
Lemma unreadable_system_file_counterexample :
  is_system_file WindowsPlatform "/etc/shadow" = true /\
  returned (validate_selection ["/etc/shadow"] (Some WindowsPlatform)
              (calm shadowed)) "system_files" = Some (JList []).
Proof. split; vm_compute; reflexivity. Qed.

(** C4: a symbolic link to a readable regular file is accepted as a
    file: [is_file()] follows the link, so the [is_symlink()] branch is
    never reached. *)
Theorem symlink_to_regular_file_is_accepted :
  is_symlink_in linked "/home/u/link" = true /\
  returned (validate_path "/home/u/link" (calm linked)) "valid" = Some (JBool true) /\
  returned (validate_path "/home/u/link" (calm linked)) "type" = Some (JStr "file") /\
  returned (validate_path "/home/u/link" (calm linked)) "errors" = Some (JList []).
Proof. repeat split; vm_compute; reflexivity. Qed.

(** The same for every link that resolves to a readable regular file,
    when the three system calls of [validate_path] do not fail. *)
Lemma symlink_to_file_validates (p target key : string) (w : World)
    (data : list Byte.byte) (md : perms) :
  fs w !! p = Some (Link target) ->
  lookup_path (fs w) p = Some (key, File data md) ->
  r_ok md = true ->
  has_invalid_characters p = false ->
  faults w (ticks w) = false ->
  faults w (S (ticks w)) = false ->
  faults w (S (S (ticks w))) = false ->
  is_symlink_in (fs w) p = true /\
  returned (validate_path p w) "valid" = Some (JBool true) /\
  returned (validate_path p w) "type" = Some (JStr "file").
Proof.
  intros Hlink Hres Hr Hchars Hf0 Hf1 Hf2.
  split; [unfold is_symlink_in; now rewrite Hlink|].
  assert (Hex : path_exists p w = (Ok true, tick w)).
  { unfold path_exists. rewrite syscall_run by exact Hf0. simpl.
    unfold exists_in. now rewrite Hres. }
  assert (Hfile : path_is_file p (tick w) = (Ok true, tick (tick w))).
  { unfold path_is_file. rewrite syscall_run by exact Hf1. simpl.
    unfold is_file_in. now rewrite Hres. }
  assert (Hacc : os_access p r_ok (tick (tick w)) = (Ok true, tick (tick (tick w)))).
  { unfold os_access. simpl. rewrite Hf2, Hres. simpl. now rewrite Hr. }
  unfold returned, validate_path, returning_result.
  rewrite Hchars. unfold try_except, mbind, ST_bind, bind, mret, ST_ret, ret.
  rewrite (liftW_run _ _ _ _ _ Hex). ml_run.
  rewrite (liftW_run _ _ _ _ _ Hfile). ml_run.
  rewrite (liftW_run _ _ _ _ _ Hacc). ml_run.
  split; solve_lookup.
Qed.

End ValidatorFacts.

(** ** The sanitization algorithms and the wiping engine *)

Module EngineFacts.

Import NISTAlgorithms WipingEngine Scenarios.

(** [_verify_overwrite] never raises. *)
Lemma verify_overwrite_total path w :
  exists verified w', _verify_overwrite path w = (Ok verified, w').
Proof.
  unfold _verify_overwrite, try_except.
  match goal with |- context [match ?m w with _ => _ end] =>
    destruct (m w) as [[b|e] w1] end; unfold_monad; eauto.
Qed.

(** C7: once the passes are complete, the file is unlinked and
    [purge_method] returns [True] whatever [_verify_overwrite] answers,
    as long as the unlink itself succeeds. *)
Theorem purge_unlinks_whatever_verification_says (path : string)
    (passes : Z) (cb : option callback) (size : Z) (verified : bool)
    (w w_exists w_stat w_passes w_verify w' : World) :
  path_exists path w = (Ok true, w_exists) ->
  path_stat_size path w_exists = (Ok size, w_stat) ->
  purge_passes (py_range 1 (passes + 1)) path size passes cb w_stat
    = (Ok true, w_passes) ->
  _verify_overwrite path w_passes = (Ok verified, w_verify) ->
  unlink path w_verify = (Ok tt, w') ->
  purge_method path passes cb w = (Ok true, w') /\
  fs w' !! path = None /\
  exists_in (fs w') path = false.
Proof.
  intros Hex Hst Hpasses Hver Hun.
  split.
  - unfold purge_method, try_except. unfold_monad.
    rewrite Hex. simpl. rewrite Hst, Hpasses. simpl. rewrite Hver, Hun. reflexivity.
  - apply unlink_ok in Hun. subst w'. simpl.
    split; [apply lookup_delete_eq | apply exists_in_delete].
Qed.

(** A run in which reading the file back fails: the stat of
    [_verify_overwrite] is the system call number 35. *)
Lemma purge_unlinks_whatever_verification_says_witness :
  let w := faulty_at 35 small_file in
  let w_exists := (path_exists "/data/note.txt" w).2 in
  let w_stat := (path_stat_size "/data/note.txt" w_exists).2 in
  let w_passes :=
    (purge_passes (py_range 1 (7 + 1)) "/data/note.txt" 5 7 None w_stat).2 in
  let w_verify := (_verify_overwrite "/data/note.txt" w_passes).2 in
  let w' := (unlink "/data/note.txt" w_verify).2 in
  (_verify_overwrite "/data/note.txt" w_passes).1 = Ok false /\
  (purge_method "/data/note.txt" 7 None w = (Ok true, w') /\
   fs w' !! "/data/note.txt" = None /\
   exists_in (fs w') "/data/note.txt" = false).
Proof.
  split; [vm_compute; reflexivity|].
  apply (purge_unlinks_whatever_verification_says
           "/data/note.txt" 7 None 5 false (faulty_at 35 small_file)
           (path_exists "/data/note.txt" (faulty_at 35 small_file)).2
           (path_stat_size "/data/note.txt"
              (path_exists "/data/note.txt" (faulty_at 35 small_file)).2).2
           (purge_passes (py_range 1 (7 + 1)) "/data/note.txt" 5 7 None
              (path_stat_size "/data/note.txt"
                 (path_exists "/data/note.txt" (faulty_at 35 small_file)).2).2).2
           (_verify_overwrite "/data/note.txt"
              (purge_passes (py_range 1 (7 + 1)) "/data/note.txt" 5 7 None
                 (path_stat_size "/data/note.txt"
                    (path_exists "/data/note.txt" (faulty_at 35 small_file)).2).2).2).2);
    vm_compute; reflexivity.
Defined.

(** *** No exception leaves the engine *)










(** A callback that raises is caught: [wipe_file] returns a failure
    without an error message, after the block written before the
    report. *)
Example raising_callback_fails_the_wipe :
  let run := wipe_file "/data/note.txt" "clear" (Some failing_progress)
               (calm small_file) in
  returned run "success" = Some (JBool false) /\
  returned run "error" = Some JNull /\
  writes (trace run.2) =
    [(0, [Byte.x00; Byte.x00; Byte.x00; Byte.x00; Byte.x00])] /\
  exists_in (fs run.2) "/data/note.txt" = true.
Proof. repeat split; vm_compute; reflexivity. Qed.

(** C5: a folder wipe stopped after the first of two files counts one
    success and no failure, and has no [skipped] entry at all: the
    counts do not add up to the number of files. *)
Theorem cancelled_folder_wipe_has_no_skipped_count :
  let run := wipe_folder "/data" "clear" true None (stopped_after 1 two_files) in
  returned run "total_files" = Some (JInt 2) /\
  returned run "successful" = Some (JInt 1) /\
  returned run "failed" = Some (JInt 0) /\
  returned run "skipped" = None /\
  returned run "errors" = Some (JList [JStr "Operation cancelled by user"]).
Proof. repeat split; vm_compute; reflexivity. Qed.

(** The same files wiped as a selection: the file left out is counted
    as skipped. *)
Example cancelled_selection_wipe_counts_skipped :
  let run := wipe_selection ["/data/a.txt"; "/data/b.txt"] "clear" None
               (stopped_after 1 two_files) in
  returned run "total_files" = Some (JInt 2) /\
  returned run "successful" = Some (JInt 1) /\
  returned run "failed" = Some (JInt 0) /\
  returned run "skipped" = Some (JInt 1).
Proof. repeat split; vm_compute; reflexivity. Qed.

End EngineFacts.

(** ** What a completed pass has written and reported *)

Module PassFacts.

Import NISTAlgorithms.

Lemma progress_values_write t p off data :
  progress_values [(t, EvWrite p off data)] = [].
Proof. reflexivity. Qed.

Lemma written_bytes_single t p off data :
  written_bytes [(t, EvWrite p off data)] = data.
Proof. unfold written_bytes. simpl. apply app_nil_r. Qed.

Lemma pass_data_spec pattern : unit_pattern pattern -> gen_spec (pass_data pattern).
Proof.
  intros Hp c w Hc. unfold pass_data.
  destruct pattern as [[|b [|b' p]]|]; try contradiction; unfold_monad.
  - unfold token_bytes, block_at. simpl. rewrite length_map, length_seq. split; [lia | reflexivity].
  - rewrite bytes_mul_single, length_replicate. split; [lia | reflexivity].
  - unfold token_bytes, block_at. simpl. rewrite length_map, length_seq. split; [lia | reflexivity].
Qed.

Lemma clear_progress_report cb file_size :
  cb = None \/ cb = Some record_progress ->
  report_spec cb (clear_level file_size) (clear_progress cb file_size).
Proof.
  intros [-> | ->] b w; simpl.
  - unfold_monad. now rewrite app_nil_r.
  - unfold truediv. destruct (file_size =? 0); unfold_monad; [exact I | reflexivity].
Qed.

Lemma pass_progress_report_spec cb file_size p total_passes :
  cb = None \/ cb = Some record_progress ->
  report_spec cb (pass_level file_size p total_passes)
    (pass_progress_report cb file_size p total_passes).
Proof.
  intros [-> | ->] b w; simpl.
  - unfold_monad. now rewrite app_nil_r.
  - unfold truediv, fdiv. destruct (total_passes =? 0); unfold_monad; [exact I|].
    destruct (file_size =? 0); unfold_monad; [exact I | reflexivity].
Qed.

Section Loop.
Context (cb : option callback) (level : Z -> Q) (file_size : Z)
  (gen : Z -> M (list Byte.byte)) (report : Z -> M unit)
  (Hcb : cb = None \/ cb = Some record_progress)
  (Hgen : gen_spec gen) (Hrep : report_spec cb level report).

Lemma loop_iteration w0 f b w :
  loop_inv cb level file_size w0 f b w -> b < file_size ->
  match Observations.iteration gen report file_size f b w with
  | (Ok f1, w1) =>
      loop_inv cb level file_size w0 f1 (b + Z.min BLOCK_SIZE (file_size - b)) w1
  | (Raise _, _) => True
  end.
Proof.
  intros (Hb & body & Htr & Hlen & Hlast) Hlt.
  unfold Observations.iteration. set (c := Z.min BLOCK_SIZE (file_size - b)).
  assert (Hc : 0 < c /\ b + c <= file_size) by (unfold c, BLOCK_SIZE; lia).
  unfold_monad.
  pose proof (Hgen c w ltac:(lia)) as Hg.
  destruct (gen c w) as [[data|e] w1]; [|exact I]. destruct Hg as [Hdata Htr1].
  destruct (f_write_spec f data w1) as [[_ ->] | [_ (w2 & -> & Htr2 & _)]]; [exact I|].
  pose proof (Hrep (b + c) w2) as Hr.
  destruct (report (b + c) w2) as [[u|e] w3]; [|exact I].
  split; [lia|].
  eexists (body ++ [(S (ticks w1), EvWrite (h_name f) (h_pos f) data)] ++ _).
  split; [rewrite Hr, Htr2, Htr1, Htr, <- !app_assoc; reflexivity|].
  split.
  - rewrite !written_bytes_app, written_bytes_single, !length_app.
    clearbody c.
    match goal with |- context [written_bytes (match cb with _ => _ end)] =>
      replace (written_bytes (match cb with
                              | Some _ => [(ticks w2, EvProgress (level (b + c)))]
                              | None => []
                              end)) with (@nil Byte.byte) by (now destruct cb)
    end.
    simpl length. lia.
  - intros -> _. rewrite !progress_values_app, progress_values_write. simpl.
    unfold progress_values. simpl. now rewrite last_snoc.
Qed.

(** A loop that ends has written [file_size] bytes and, on a file that is
    not empty, reported the level of [file_size] last. *)
Lemma loop_result f w b' w' :
  0 <= file_size ->
  block_loop (Z.to_nat file_size) gen report file_size f 0 w = (Ok b', w') ->
  exists body, trace w' = trace w ++ body /\
    Z.of_nat (length (written_bytes body)) = file_size /\
    (cb = Some record_progress -> 0 < file_size ->
     last (progress_values body) = Some (level file_size)).
Proof.
  intros HS Hloop.
  pose proof (LoopFacts.block_loop_rule (loop_inv cb level file_size w) (fun _ => True)
                gen report file_size
                (fun f b w1 HI Hlt => loop_iteration w f b w1 HI Hlt)
                (Z.to_nat file_size) f 0 w) as Hrule.
  rewrite Hloop in Hrule.
  assert (Hinit : loop_inv cb level file_size w f 0 w).
  { split; [lia|]. exists []. rewrite app_nil_r. repeat split; auto. lia. }
  specialize (Hrule Hinit ltac:(lia)).
  destruct Hrule as (Hge & f' & Hb & body & Htr & Hlen & Hlast).
  assert (Hb' : b' = file_size) by lia. rewrite Hb' in *.
  exists body. split; [exact Htr|]. split; [exact Hlen | exact Hlast].
Qed.

End Loop.

Lemma try_except_true (m : M bool) (h : exn -> M bool) w w' :
  (forall e w1, h e w1 = (Ok false, w1)) ->
  try_except m h w = (Ok true, w') -> m w = (Ok true, w').
Proof.
  intros Hh. unfold try_except. destruct (m w) as [[r|e] w1]; [auto|].
  rewrite Hh. discriminate.
Qed.

(** A pass that succeeds: the file is opened, [file_size] bytes are
    written, the file is synced. *)
Lemma overwrite_pass_success path file_size pattern p total_passes cb w w' :
  cb = None \/ cb = Some record_progress -> unit_pattern pattern -> 0 <= file_size ->
  _overwrite_pass path file_size pattern p total_passes cb w = (Ok true, w') ->
  exists body t_sync,
    trace w' = trace w ++ (S (ticks w), EvOpen path ReadWriteBinary) :: body
                 ++ [(t_sync, EvSync path)] /\
    Z.of_nat (length (written_bytes body)) = file_size /\
    (cb = Some record_progress -> 0 < file_size ->
     last (progress_values body) = Some (pass_level file_size p total_passes file_size)).
Proof.
  intros Hcb Hpat HS Hrun. unfold _overwrite_pass in Hrun.
  apply try_except_true in Hrun; [|reflexivity].
  apply bind_ok in Hrun as (f & w1 & Hop & Hrun).
  apply open_file_ok in Hop as (Hname & _ & ->).
  apply bind_ok in Hrun as (b' & w2 & Hloop & Hrun).
  apply bind_ok in Hrun as (u1 & w3 & Hfl & Hrun).
  apply f_flush_ok in Hfl as ->.
  apply bind_ok in Hrun as (u2 & w4 & Hsy & Hrun).
  apply os_fsync_ok in Hsy as ->.
  unfold_monad in Hrun. inversion Hrun; subst w'; clear Hrun.
  eapply (loop_result cb (pass_level file_size p total_passes)) in Hloop;
    eauto using pass_data_spec, pass_progress_report_spec.
  destruct Hloop as (body & Htr & Hlen & Hlast).
  exists body, (S (ticks (tick w2))). simpl. rewrite Htr. simpl.
  rewrite Hname, <- !app_assoc. auto.
Qed.

End PassFacts.

(** ** The passes of [purge_method] *)

Module PurgeFacts.

Import NISTAlgorithms WipingEngine PassFacts.

Lemma pass_policy_cb path pattern cb :
  cb = None \/ cb = Some record_progress -> cb_ok (pass_policy path pattern) cb.
Proof. intros [-> | ->]; [now left | right]. split; [reflexivity|]. intros en t v. exact I. Qed.

Section Pass.
Context (path : string) (pattern : option (list Byte.byte)).

Let P := pass_policy path pattern.

(** A block of the pass: drawn, when the pattern is empty, right before
    it is written. *)
Lemma pass_write_ok q f c :
  h_name f = path ->
  runs id true P q q (data ← pass_data pattern c; f_write f data).
Proof.
  intros Hname.
  assert (Hrandom : pattern = None \/ pattern = Some [] ->
            runs id true P q q (data ← token_bytes c; f_write f data)).
  { intros Hpat w. unfold_monad. unfold token_bytes, id. cbn beta iota.
    eapply advance_trans; [apply advance_tick|].
    unfold f_write, syscall.
    destruct (faults (tick w) (ticks (tick w))); [apply advance_tick|].
    assert (Hev : P (entropy (tick (tick w)))
                    (S (ticks (tick w)),
                     EvWrite (h_name f) (h_pos f) (block_at w (ticks w) (Z.to_nat c)))).
    { unfold P, pass_policy, allow, data_ok. simpl. split; [exact Hname|].
      unfold block_at. rewrite length_map, length_seq, Nat.sub_0_r.
      destruct Hpat as [-> | ->]; reflexivity. }
    destruct (fs (tick (tick w)) !! h_key f) as [[]|]; simpl.
    all: apply (advance_tick_emit true P q _ (tick w)); [exact Hev | discriminate]. }
  unfold pass_data. destruct pattern as [[|b p]|] eqn:Hpat; auto.
  apply runs_ret_bind. apply runs_f_write. intros en t.
  unfold P, pass_policy, allow, data_ok. simpl. eauto.
Qed.

Lemma pass_rest_ok file_size p total_passes cb q f :
  cb = None \/ cb = Some record_progress ->
  0 <= file_size -> 0 < total_passes -> h_name f = path ->
  runs id true P (cb_level cb (pass_level file_size p total_passes) q 0)
    (cb_level cb (pass_level file_size p total_passes) q file_size)
    (block_loop (Z.to_nat file_size) (pass_data pattern)
       (pass_progress_report cb file_size p total_passes) file_size f 0;;
     f_flush f;; os_fsync f;; mret true).
Proof.
  intros Hcb HS HN Hname.
  apply runs_bind with (mid := cb_level cb (pass_level file_size p total_passes) q file_size);
    [apply Qle_refl | |].
  - apply runs_block_loop with (name := path).
    + intros q0 f0 c Hf0. now apply pass_write_ok.
    + intros b b' Hb Hb'. apply runs_pass_progress_report; auto.
      now apply pass_policy_cb.
    + intros b b' Hb Hb'. now apply cb_level_pass_mono.
    + exact Hname.
    + lia.
  - intros b'. apply runs_seq; [apply runs_f_flush | intros _].
    apply runs_seq; [| intros _; apply runs_ret].
    apply runs_os_fsync. intros en t. unfold P, pass_policy, allow. simpl.
    now rewrite Hname.
Qed.

Lemma open_file_raise p md w e w1 :
  open_file p md w = (Raise e, w1) -> w1 = tick w.
Proof.
  unfold open_file, syscall. destruct (faults w (ticks w)); [now inversion 1|].
  simpl. destruct (lookup_path (fs w) p) as [[key nd]|]; [|now inversion 1].
  destruct nd; try (now inversion 1);
    (destruct (may_open md _); now inversion 1).
Qed.

Lemma overwrite_pass_events file_size p total_passes cb w :
  cb = None \/ cb = Some record_progress -> 0 <= file_size -> 0 < total_passes ->
  let run := _overwrite_pass path file_size pattern p total_passes cb w in
  entropy run.2 = entropy w /\ faults run.2 = faults w /\
  (ticks w <= ticks run.2)%nat /\
  ((run.1 = Ok false /\ trace run.2 = trace w) \/
   (exists ok s, run.1 = Ok ok /\ is_session path pattern (entropy w) s /\
      trace run.2 = trace w ++ s /\ timed (ticks w) (ticks run.2) s)).
Proof.
  intros Hcb HS HN. unfold _overwrite_pass, try_except. unfold_monad.
  destruct (open_file path ReadWriteBinary w) as [[f|e] w1] eqn:Hop.
  - apply open_file_ok in Hop as (Hname & _ & ->).
    pose proof (pass_rest_ok file_size p total_passes cb 0 f Hcb HS HN Hname
                  (emit (EvOpen path ReadWriteBinary) (tick w))) as Hadv.
    unfold id in Hadv. unfold_monad in Hadv.
    match type of Hadv with advance _ _ _ _ _ ?x.2 => set (rest := x) in * end.
    destruct Hadv as (F1 & E1 & _ & _ & _ & T1 & evs & Tr & HP & Tm & _).
    simpl in F1, E1, T1, Tr, HP, Tm.
    assert (Hshape : exists ok, (match rest with
                                 | (Ok a, s1) => (Ok a, s1)
                                 | (Raise _, s1) => (Ok false, s1)
                                 end) = (Ok ok, rest.2)).
    { destruct rest as [[a|e] s1]; simpl; eauto. }
    destruct Hshape as [ok Hshape]. cbv zeta. rewrite Hshape. simpl.
    split; [exact E1|]. split; [exact F1|]. split; [lia|]. right.
    exists ok, ((S (ticks w), EvOpen path ReadWriteBinary) :: evs).
    split; [reflexivity|]. split; [exists (S (ticks w)), evs; auto|].
    split; [rewrite Tr, <- app_assoc; reflexivity|].
    apply (timed_app (ticks w) (S (ticks w)) (ticks rest.2)
             [(S (ticks w), EvOpen path ReadWriteBinary)] evs); [| exact Tm | lia].
    split; [|constructor].
    constructor; [|constructor]. simpl. split; [lia|]. intros [].
  - apply open_file_raise in Hop as ->. simpl. auto 10.
Qed.

(** A pass either fails to open the file, and emits nothing, or emits a
    session; the session of a pass that succeeds holds [file_size]
    bytes. *)
Lemma overwrite_pass_session file_size p total_passes cb w :
  cb = None \/ cb = Some record_progress -> 0 <= file_size -> 0 < total_passes ->
  unit_pattern pattern ->
  let run := _overwrite_pass path file_size pattern p total_passes cb w in
  entropy run.2 = entropy w /\ faults run.2 = faults w /\
  (ticks w <= ticks run.2)%nat /\
  ((run.1 = Ok false /\ trace run.2 = trace w) \/
   (exists ok s, run.1 = Ok ok /\ is_session path pattern (entropy w) s /\
      trace run.2 = trace w ++ s /\ timed (ticks w) (ticks run.2) s /\
      (ok = true -> Z.of_nat (length (written_bytes s)) = file_size))).
Proof.
  intros Hcb HS HN Hpat.
  pose proof (overwrite_pass_events file_size p total_passes cb w Hcb HS HN) as H.
  cbv zeta in *.
  destruct (_overwrite_pass path file_size pattern p total_passes cb w) as [r w'] eqn:Hrun.
  simpl in *. destruct H as (E & F & T & [H | (ok & s & -> & Hs & Tr & Tm)]);
    (split; [exact E|]); (split; [exact F|]); (split; [exact T|]); [now left | right].
  exists ok, s. repeat (split; [assumption || reflexivity|]).
  intros ->.
  apply overwrite_pass_success in Hrun as (body & t_sync & Tr' & Hlen & _); auto.
  rewrite Tr in Tr'. apply app_inv_head in Tr'. subst s.
  change ((S (ticks w), EvOpen path ReadWriteBinary) :: body ++ [(t_sync, EvSync path)])
    with ([(S (ticks w), EvOpen path ReadWriteBinary)] ++ body ++ [(t_sync, EvSync path)]).
  rewrite !written_bytes_app. unfold written_bytes at 1 3. simpl.
  now rewrite app_nil_r.
Qed.

End Pass.

Lemma pass_pattern_unit p : unit_pattern (pass_pattern p).
Proof. unfold pass_pattern. destruct (p =? 1), (p =? 2); exact I. Qed.

(** The sessions of the passes [pass_nums], in order; the loop stops at
    the first pass that fails. *)
Lemma purge_passes_sessions path file_size total_passes cb :
  cb = None \/ cb = Some record_progress -> 0 <= file_size -> 0 < total_passes ->
  forall pass_nums w,
  let run := purge_passes pass_nums path file_size total_passes cb w in
  exists sessions,
    trace run.2 = trace w ++ concat sessions /\
    entropy run.2 = entropy w /\ faults run.2 = faults w /\
    (ticks w <= ticks run.2)%nat /\
    timed (ticks w) (ticks run.2) (concat sessions) /\
    (length sessions <= length pass_nums)%nat /\
    (exists ok, run.1 = Ok ok /\
       (ok = true ->
        length sessions = length pass_nums /\
        Forall (fun s => Z.of_nat (length (written_bytes s)) = file_size) sessions)) /\
    (forall i s, sessions !! i = Some s ->
       exists p, pass_nums !! i = Some p /\
                 is_session path (pass_pattern p) (entropy w) s).
Proof.
  intros Hcb HS HN. induction pass_nums as [|p rest IH]; intros w.
  - exists []. simpl. rewrite app_nil_r.
    split; [reflexivity|]. split; [reflexivity|]. split; [reflexivity|].
    split; [lia|]. split; [apply timed_nil|]. split; [lia|].
    split; [exists true; auto|]. intros i s Hs. discriminate.
  - cbn [purge_passes]. cbv zeta.
    pose proof (overwrite_pass_session path (pass_pattern p) file_size p total_passes
                  cb w Hcb HS HN (pass_pattern_unit p)) as Hpass.
    cbv zeta in Hpass. unfold_monad.
    destruct (_overwrite_pass path file_size (pass_pattern p) p total_passes cb w)
      as [r w1]. simpl in Hpass.
    destruct Hpass as (E1 & F1 & T1 & [[-> Tr1] | (ok & s & -> & Hs & Tr1 & Tm1 & Hsz)]).
    + (* the file could not be opened *)
      exists []. simpl. rewrite app_nil_r.
      split; [exact Tr1|]. split; [exact E1|]. split; [exact F1|].
      split; [exact T1|]. split; [apply timed_nil|]. split; [lia|].
      split; [exists false; split; [reflexivity | discriminate]|].
      intros i s Hs. discriminate.
    + destruct ok; simpl.
      * specialize (IH w1). cbv zeta in IH.
        destruct IH as (sessions & Tr & E & F & T & Tm & Hlen & (ok & Hok & Hfull) & Hall).
        exists (s :: sessions). simpl.
        split; [rewrite Tr, Tr1, <- app_assoc; reflexivity|].
        split; [congruence|]. split; [congruence|]. split; [lia|].
        split; [eapply timed_app; eauto; lia|]. split; [lia|].
        split.
        { exists ok. split; [exact Hok|]. intros H. destruct (Hfull H) as [Hl Ha].
          split; [now rewrite Hl | constructor; auto]. }
        intros [|i] s' Hs'; simpl in *.
        -- inversion Hs'; subst s'. eauto.
        -- rewrite <- E1. apply Hall, Hs'.
      * exists [s]. simpl. rewrite app_nil_r.
        split; [exact Tr1|]. split; [exact E1|]. split; [exact F1|].
        split; [exact T1|]. split; [exact Tm1|]. split; [lia|].
        split; [exists false; split; [reflexivity | discriminate]|].
        intros [|i] s' Hs'; simpl in *; [|destruct i; discriminate].
        inversion Hs'; subst s'. eauto.
Qed.

(** *** What the sessions hold *)

Lemma written_bytes_cons e evs :
  written_bytes (e :: evs) =
  match e.2 with EvWrite _ _ data => data | _ => [] end ++ written_bytes evs.
Proof. destruct e as [t []]; reflexivity. Qed.

Lemma stamped_writes_cons e evs :
  stamped_writes (e :: evs) =
  match e.2 with EvWrite _ _ data => [(e.1, data)] | _ => [] end ++ stamped_writes evs.
Proof. destruct e as [t []]; reflexivity. Qed.

Lemma session_all_bytes path b en s :
  is_session path (Some [b]) en s -> all_bytes b s.
Proof.
  intros (t & body & -> & Hbody). unfold all_bytes.
  rewrite written_bytes_cons. simpl.
  induction Hbody as [|[t' e] body He _ IH]; [constructor|].
  rewrite written_bytes_cons. apply Forall_app. split; [|exact IH].
  destruct e; simpl; try constructor.
  destruct He as [_ [n ->]]. rewrite bytes_mul_single. apply Forall_replicate.
  reflexivity.
Qed.

Lemma session_drawn path en s :
  is_session path None en s -> drawn en s.
Proof.
  intros (t & body & -> & Hbody). unfold drawn.
  rewrite stamped_writes_cons. simpl.
  induction Hbody as [|[t' e] body He _ IH]; [constructor|].
  rewrite stamped_writes_cons. apply Forall_app. split; [|exact IH].
  destruct e; simpl; try constructor; [|constructor].
  destruct He as [_ He]. exact He.
Qed.

(** *** After the passes *)

Lemma runs_after_passes path q :
  runs id true (fun _ e => after_passes e) q q
    (_verify_overwrite path;; unlink path;; mret true).
Proof.
  apply runs_seq; [|intros _; apply runs_seq; [|intros _; apply runs_ret]].
  - unfold _verify_overwrite. run_quiet.
    all: apply runs_open_file; intros en t; exact I.
  - apply runs_unlink. intros en t. exact I.
Qed.

(** A computation that may emit nothing leaves the trace as it is. *)
Lemma advance_nothing k lo hi w w' :
  advance k (fun _ _ => False) lo hi w w' ->
  trace w' = trace w /\ entropy w' = entropy w /\ faults w' = faults w /\
  (ticks w <= ticks w')%nat.
Proof.
  intros (F & E & _ & _ & _ & T & evs & Tr & HP & _).
  destruct evs as [|e evs]; [|inversion HP; contradiction].
  rewrite app_nil_r in Tr. auto.
Qed.

Lemma path_exists_quiet p w :
  trace (path_exists p w).2 = trace w /\ entropy (path_exists p w).2 = entropy w.
Proof.
  pose proof (runs_path_exists true (fun _ _ => False) 0 p w) as H.
  apply advance_nothing in H. tauto.
Qed.

Lemma path_stat_size_quiet p w :
  trace (path_stat_size p w).2 = trace w /\ entropy (path_stat_size p w).2 = entropy w.
Proof.
  pose proof (runs_path_stat_size true (fun _ _ => False) 0 p w) as H.
  apply advance_nothing in H. tauto.
Qed.

Lemma session_scheduled path en i p s :
  [1; 2; 3; 4; 5; 6; 7] !! i = Some p ->
  is_session path (pass_pattern p) en s ->
  is_session path (pass_pattern (Z.of_nat i + 1)) en s /\ scheduled en i s.
Proof.
  intros Hi Hs.
  do 7 (destruct i as [|i];
        [inversion Hi; subst p; split; [exact Hs|];
         first [ now apply (session_all_bytes path) with (en := en)
               | now apply (session_drawn path) ] |]).
  discriminate.
Qed.

(** Whatever happens, [purge_method] with seven passes emits at most
    seven sessions on the file, exactly seven of [size] bytes each when it
    returns [True]; all the bytes of the first are 0x00, all the bytes of
    the second are 0xFF, and every block of the later ones is a fresh
    draw from the entropy source, the draws being made at pairwise
    different ticks. *)
Lemma purge_sessions (path : string) (cb : option callback) (w : World) :
  cb = None \/ cb = Some record_progress ->
  let run := purge_method path 7 cb w in
  exists sessions rest,
    trace run.2 = trace w ++ concat sessions ++ rest /\
    Forall after_passes rest /\
    (length sessions <= 7)%nat /\
    (run.1 = Ok true ->
     length sessions = 7%nat /\
     forall size, st_size (fs w) path = Some size ->
       Forall (fun s => Z.of_nat (length (written_bytes s)) = size) sessions) /\
    (forall i s, sessions !! i = Some s ->
       is_session path (pass_pattern (Z.of_nat i + 1)) (entropy w) s /\
       scheduled (entropy w) i s) /\
    StronglySorted lt (write_stamps (concat sessions)).
Proof.
  intros Hcb. cbv zeta.
  assert (Hnone : forall r w1, trace w1 = trace w -> r <> Ok true ->
    exists sessions rest,
      trace w1 = trace w ++ concat sessions ++ rest /\
      Forall after_passes rest /\ (length sessions <= 7)%nat /\
      (r = Ok true ->
       length sessions = 7%nat /\
       forall size, st_size (fs w) path = Some size ->
         Forall (fun s => Z.of_nat (length (written_bytes s)) = size) sessions) /\
      (forall i s, sessions !! i = Some s ->
         is_session path (pass_pattern (Z.of_nat i + 1)) (entropy w) s /\
         scheduled (entropy w) i s) /\
      StronglySorted lt (write_stamps (concat sessions))).
  { intros r w1 Htr Hr. exists [], []. simpl. rewrite app_nil_r.
    split; [exact Htr|]. split; [constructor|]. split; [lia|].
    split; [contradiction|]. split; [|constructor]. intros i s Hs. discriminate. }
  unfold purge_method, try_except. unfold_monad.
  pose proof (path_exists_quiet path w) as [Tr1 E1].
  destruct (path_exists path w) as [[present|e] w1] eqn:Hex; simpl in Tr1, E1;
    [| apply Hnone; [exact Tr1 | discriminate]].
  apply path_exists_ok in Hex as [-> ->].
  destruct (negb (exists_in (fs w) path)); [apply Hnone; [exact Tr1 | discriminate]|].
  pose proof (path_stat_size_quiet path (tick w)) as [Tr2 E2].
  destruct (path_stat_size path (tick w)) as [[size|e] w2] eqn:Hst; simpl in Tr2, E2;
    [| apply Hnone; [exact Tr2 | discriminate]].
  pose proof (path_stat_size_nonneg _ _ _ _ Hst) as Hsize.
  apply path_stat_size_ok in Hst as [Hst ->]. simpl in Hst.
  pose proof (purge_passes_sessions path size 7 cb Hcb Hsize ltac:(lia)
                [1; 2; 3; 4; 5; 6; 7] (tick (tick w))) as Hpasses.
  cbv zeta in Hpasses.
  change (py_range 1 (7 + 1)) with [1; 2; 3; 4; 5; 6; 7].
  destruct (purge_passes [1; 2; 3; 4; 5; 6; 7] path size 7 cb (tick (tick w)))
    as [r w3].
  destruct Hpasses as (sessions & Tr & E & F & T & Tm & Hlen & (ok & Hok & Hfull) & Hall).
  simpl in Tr, E, F, T, Tm, Hlen, Hok, Hall. subst r.
  assert (Hsched : forall i s, sessions !! i = Some s ->
            is_session path (pass_pattern (Z.of_nat i + 1)) (entropy w) s /\
            scheduled (entropy w) i s).
  { intros i s Hs. destruct (Hall i s Hs) as (p & Hp & Hsess).
    now apply (session_scheduled path) with (p := p). }
  destruct ok; simpl.
  - destruct (Hfull eq_refl) as [Hseven Hsizes].
    pose proof (runs_after_passes path 0 w3) as Hrest.
    unfold id in Hrest. unfold_monad in Hrest.
    match type of Hrest with advance _ _ _ _ _ ?x.2 => set (after := x) in * end.
    destruct Hrest as (_ & _ & _ & _ & _ & _ & rest & Trr & HP & _).
    exists sessions, rest.
    assert (Hshape : (match after with
                      | (Ok a, s1) => (Ok a, s1)
                      | (Raise _, s1) => (Ok false, s1)
                      end).2 = after.2) by (destruct after as [[]]; reflexivity).
    rewrite Hshape, Trr, Tr. simpl. rewrite <- app_assoc.
    split; [reflexivity|]. split; [exact HP|]. split; [exact Hlen|].
    split; [| split; [exact Hsched | apply Tm]].
    intros _. split; [exact Hseven|]. intros size' Hsize'.
    rewrite Hst in Hsize'. inversion Hsize'; subst size'. exact Hsizes.
  - exists sessions, []. rewrite app_nil_r.
    split; [exact Tr|]. split; [constructor|]. split; [exact Hlen|].
    split; [discriminate|]. split; [exact Hsched | apply Tm].
Qed.

End PurgeFacts.

(** ** The values handed to the progress callback *)

Module ProgressFacts.

Import NISTAlgorithms WipingEngine PassFacts PurgeFacts.

Lemma reports_app w w' evs :
  trace w' = trace w ++ evs -> reports w w' = progress_values evs.
Proof. intros H. unfold reports. now rewrite H, drop_app_length. Qed.

Lemma advance_rising k P w w' :
  advance k P 0 100 w w' -> rising (reports w w').
Proof.
  intros (_ & _ & _ & _ & _ & _ & evs & Tr & _ & _ & _ & Hall & Hs).
  rewrite (reports_app _ _ _ Tr). split; [exact Hs | exact Hall].
Qed.

Lemma advance_below k lo hi w w' :
  advance k below_100 lo hi w w' -> Forall (fun q => q < 100)%Q (reports w w').
Proof.
  intros (_ & _ & _ & _ & _ & _ & evs & Tr & HP & _).
  rewrite (reports_app _ _ _ Tr). clear Tr.
  induction HP as [|[t e] evs He _ IH]; [constructor|].
  destruct e; try exact IH. constructor; [exact He | exact IH].
Qed.

Lemma any_event_permits : permits any_event.
Proof. intros en t e _. exact I. Qed.

Lemma any_event_cb : cb_ok any_event (Some record_progress).
Proof. right. split; [reflexivity|]. intros en t v. exact I. Qed.

Lemma below_100_permits : permits below_100.
Proof. intros en t e He. destruct e; try exact I. simpl in He. tauto. Qed.

Lemma below_100_cb : cb_low below_100 (Some record_progress).
Proof. right. split; [reflexivity|]. intros en t v Hv. exact Hv. Qed.

Lemma span_0_100 : span (Some record_progress) 0 100.
Proof. split; apply Qle_refl. Qed.

Lemma wipe_file_rising path method w :
  rising (reports w (wipe_file path method (Some record_progress) w).2).
Proof.
  apply (advance_rising false any_event).
  apply (runs_wipe_file any_event any_event_permits false path method _ 0 100
           any_event_cb span_0_100 w).
Qed.

Lemma wipe_folder_rising folder_path method recursive w :
  let w' := (wipe_folder folder_path method recursive (Some record_progress) w).2 in
  rising (reports w w') /\ Forall (fun q => q < 100)%Q (reports w w').
Proof.
  split.
  - apply (advance_rising false any_event).
    apply (runs_wipe_folder any_event any_event_permits folder_path method recursive
             _ 0 100 (cb_ok_low _ _ any_event_cb) span_0_100 w).
  - apply (advance_below false 0 100).
    apply (runs_wipe_folder below_100 below_100_permits folder_path method recursive
             _ 0 100 below_100_cb span_0_100 w).
Qed.

Lemma wipe_selection_rising file_list method w :
  let w' := (wipe_selection file_list method (Some record_progress) w).2 in
  rising (reports w w') /\ Forall (fun q => q < 100)%Q (reports w w').
Proof.
  split.
  - apply (advance_rising false any_event).
    apply (runs_wipe_selection any_event any_event_permits file_list method
             _ 0 100 (cb_ok_low _ _ any_event_cb) span_0_100 w).
  - apply (advance_below false 0 100).
    apply (runs_wipe_selection below_100 below_100_permits file_list method
             _ 0 100 below_100_cb span_0_100 w).
Qed.

(** *** The last value reported by a method that succeeds *)

Lemma progress_values_cons e evs :
  progress_values (e :: evs) =
  match e.2 with EvProgress q => [q] | _ => [] end ++ progress_values evs.
Proof. destruct e as [t []]; reflexivity. Qed.

Lemma clear_method_last path w w' size :
  st_size (fs w) path = Some size -> 0 < size ->
  clear_method path (Some record_progress) w = (Ok true, w') ->
  last (reports w w') = Some (clear_level size size).
Proof.
  intros Hsize Hpos Hrun. unfold clear_method in Hrun.
  apply try_except_true in Hrun; [|reflexivity].
  apply bind_ok in Hrun as (present & w1 & Hex & Hrun).
  apply path_exists_ok in Hex as [-> ->].
  destruct (negb (exists_in (fs w) path)); [unfold_monad in Hrun; discriminate|].
  apply bind_ok in Hrun as (n & w2 & Hst & Hrun).
  apply path_stat_size_ok in Hst as [Hst ->]. simpl in Hst.
  rewrite Hsize in Hst. inversion Hst; subst n; clear Hst.
  apply bind_ok in Hrun as (f & w3 & Hop & Hrun).
  apply open_file_ok in Hop as (Hname & Hpos0 & ->).
  apply bind_ok in Hrun as (b' & w4 & Hloop & Hrun).
  apply bind_ok in Hrun as (u1 & w5 & Hfl & Hrun).
  apply f_flush_ok in Hfl as ->.
  apply bind_ok in Hrun as (u2 & w6 & Hsy & Hrun).
  apply os_fsync_ok in Hsy as ->.
  apply bind_ok in Hrun as (u3 & w7 & Hun & Hrun).
  apply unlink_ok in Hun as ->.
  unfold_monad in Hrun. inversion Hrun; subst w'; clear Hrun.
  eapply (loop_result (Some record_progress) (clear_level size)) in Hloop;
    eauto using clear_progress_report; [| apply (pass_data_spec (Some [Byte.x00])); exact I | lia].
  destruct Hloop as (body & Htr & _ & Hlast).
  erewrite reports_app; [| simpl; rewrite Htr; simpl; rewrite <- !app_assoc; reflexivity].
  rewrite progress_values_app, progress_values_cons, progress_values_app. simpl.
  rewrite app_nil_r. now apply Hlast.
Qed.

Lemma reports_trans w w1 w2 evs1 evs2 :
  trace w1 = trace w ++ evs1 -> trace w2 = trace w1 ++ evs2 ->
  reports w w2 = reports w w1 ++ reports w1 w2.
Proof.
  intros H1 H2.
  rewrite (reports_app w w1 evs1 H1), (reports_app w1 w2 evs2 H2).
  rewrite <- progress_values_app. apply reports_app.
  now rewrite H2, H1, app_assoc.
Qed.

(** The passes that all succeed report, last, the end of the last one. *)
Lemma purge_passes_last path file_size total_passes :
  0 < file_size -> 0 < total_passes ->
  forall pass_nums w w',
  purge_passes pass_nums path file_size total_passes (Some record_progress) w
    = (Ok true, w') ->
  forall p, last pass_nums = Some p ->
  last (reports w w') = Some (pass_level file_size p total_passes file_size).
Proof.
  intros HS HN. induction pass_nums as [|p0 rest IH]; intros w w' Hrun p Hlast;
    [discriminate|].
  cbn [purge_passes] in Hrun.
  apply bind_ok in Hrun as (ok & w1 & Hpass & Hrun).
  destruct ok; simpl in Hrun; [|unfold_monad in Hrun; discriminate].
  apply overwrite_pass_success in Hpass as (body & t_sync & Tr1 & _ & Hl);
    [| now right | apply pass_pattern_unit | lia].
  specialize (Hl eq_refl HS).
  assert (Hfirst : last (reports w w1)
                   = Some (pass_level file_size p0 total_passes file_size)).
  { rewrite (reports_app _ _ _ Tr1).
    rewrite progress_values_cons, progress_values_app. simpl.
    now rewrite app_nil_r. }
  destruct rest as [|p1 rest].
  - simpl in Hrun. unfold_monad in Hrun. inversion Hrun; subst w'.
    simpl in Hlast. inversion Hlast; subst p. exact Hfirst.
  - pose proof (purge_passes_sessions path file_size total_passes (Some record_progress)
                  ltac:(now right) ltac:(lia) HN (p1 :: rest) w1) as Hs.
    cbv zeta in Hs. rewrite Hrun in Hs. destruct Hs as (sessions & Tr2 & _).
    simpl in Tr2.
    rewrite (reports_trans w w1 w' _ _ Tr1 Tr2), last_app.
    rewrite (IH w1 w' Hrun p); [reflexivity|].
    rewrite last_cons in Hlast. rewrite last_cons in *.
    destruct (last rest); exact Hlast.
Qed.

Lemma no_report_permits : permits no_report.
Proof. intros en t e He. exact He. Qed.

Lemma advance_no_report k lo hi w w' :
  advance k no_report lo hi w w' ->
  exists evs, trace w' = trace w ++ evs /\ progress_values evs = [].
Proof.
  intros (_ & _ & _ & _ & _ & _ & evs & Tr & HP & _).
  exists evs. split; [exact Tr|]. clear Tr.
  induction HP as [|[t e] evs He _ IH]; [reflexivity|].
  rewrite progress_values_cons, IH. destruct e; try reflexivity.
  exfalso. apply He. exact I.
Qed.

(** Code that does not call the callback adds nothing to the reports. *)
Lemma reports_quiet_after k lo hi w w1 w2 evs :
  trace w1 = trace w ++ evs ->
  advance k no_report lo hi w1 w2 -> reports w w2 = reports w w1.
Proof.
  intros Tr1 H. apply advance_no_report in H as (evs2 & Tr2 & Hnone).
  rewrite (reports_trans w w1 w2 _ _ Tr1 Tr2), (reports_app w1 w2 _ Tr2), Hnone.
  apply app_nil_r.
Qed.

Lemma purge_method_last path w w' size :
  st_size (fs w) path = Some size -> 0 < size ->
  purge_method path 7 (Some record_progress) w = (Ok true, w') ->
  last (reports w w') = Some (pass_level size 7 7 size).
Proof.
  intros Hsize Hpos Hrun. unfold purge_method in Hrun.
  apply try_except_true in Hrun; [|reflexivity].
  apply bind_ok in Hrun as (present & w1 & Hex & Hrun).
  apply path_exists_ok in Hex as [-> ->].
  destruct (negb (exists_in (fs w) path)); [unfold_monad in Hrun; discriminate|].
  apply bind_ok in Hrun as (n & w2 & Hst & Hrun).
  apply path_stat_size_ok in Hst as [Hst ->]. simpl in Hst.
  rewrite Hsize in Hst. inversion Hst; subst n; clear Hst.
  apply bind_ok in Hrun as (completed & w3 & Hpasses & Hrun).
  destruct completed; simpl in Hrun; [|unfold_monad in Hrun; discriminate].
  change (py_range 1 (7 + 1)) with [1; 2; 3; 4; 5; 6; 7] in Hpasses.
  pose proof (purge_passes_last path size 7 Hpos ltac:(lia) _ _ _ Hpasses 7 eq_refl)
    as Hlast.
  pose proof (purge_passes_sessions path size 7 (Some record_progress)
                ltac:(now right) ltac:(lia) ltac:(lia) [1; 2; 3; 4; 5; 6; 7]
                (tick (tick w))) as Hs.
  cbv zeta in Hs. rewrite Hpasses in Hs. destruct Hs as (sessions & Tr & _).
  simpl in Tr.
  assert (Hafter : advance true no_report 0 0 w3 w').
  { pose proof (runs_seq id true no_report 0 (_verify_overwrite path)
                  (fun _ => unlink path;; mret true)) as H.
    specialize (H (runs_verify_overwrite true no_report no_report_permits 0 path)).
    assert (Hun : runs id true no_report 0 0 (unlink path;; mret true)).
    { apply runs_seq; [|intros _; apply runs_ret].
      apply runs_unlink, permits_unlink, no_report_permits. }
    specialize (H (fun _ => Hun) w3). unfold id in H.
    unfold_monad in H. unfold_monad in Hrun. rewrite Hrun in H. exact H. }
  rewrite (reports_quiet_after true 0 0 w w3 w' _ Tr Hafter). exact Hlast.
Qed.

(** *** The last value reported by [wipe_file] *)

(** The [success] entry of the dict returned is the one the body left,
    and the events are those of the body. *)
Lemma returning_finally init (body : ML unit) (v : exn -> json) start_time w0 :
  exists d,
    returning_result init
      (try_except_finally body (fun e => setitem "error" (v e))
         (stamp_end start_time)) w0
    = (Ok d, tick (body (init, w0)).2.2) /\
    d !! "success" = (body (init, w0)).2.1 !! "success".
Proof.
  unfold returning_result, try_except_finally, try_except.
  destruct (body (init, w0)) as [[u|e] [d1 w1]]; simpl.
  - eexists. split; [reflexivity|]. simpl.
    now rewrite !lookup_insert_ne by discriminate.
  - eexists. split; [reflexivity|]. simpl.
    now rewrite !lookup_insert_ne by discriminate.
Qed.

Lemma verify_wipe_quiet path w :
  advance true no_report 0 0 w (verify_wipe path w).2.
Proof. apply (runs_verify_wipe true no_report 0 path w). Qed.

Lemma advance_extends k P lo hi w w' :
  advance k P lo hi w w' -> exists evs, trace w' = trace w ++ evs.
Proof. intros (_ & _ & _ & _ & _ & _ & evs & Tr & _). eauto. Qed.

(** The end of [wipe_file]: the [success] entry is set when the method
    returned [True], and only a verification follows. *)
Lemma finish_success path (m : M bool) (d0 : dict) (w0 : World) :
  d0 !! "success" = Some (JBool false) ->
  let r := ((success ← liftW m;
             setitem "success" (JBool success);;
             (if (success : bool)
              then verified ← liftW (verify_wipe path);
                   setitem "verified" (JBool verified)
              else mret tt)) : ML unit) (d0, w0) in
  r.2.1 !! "success" = Some (JBool true) ->
  exists w1, m w0 = (Ok true, w1) /\ advance true no_report 0 0 w1 r.2.2.
Proof.
  intros Hd0. cbv zeta.
  destruct (m w0) as [[success|e] w1] eqn:Hm.
  - erewrite bind_run by (apply liftW_run, Hm).
    erewrite bind_run by apply setitem_run.
    destruct success.
    + intros _. exists w1. split; [reflexivity|].
      pose proof (verify_wipe_quiet path w1) as Hv.
      destruct (verify_wipe path w1) as [[verified|e] w2] eqn:Hvw.
      * erewrite bind_run by (apply liftW_run, Hvw). exact Hv.
      * erewrite bind_raise by (apply liftW_run, Hvw). exact Hv.
    + unfold_monad. simpl. rewrite lookup_insert_eq. discriminate.
  - erewrite bind_raise by (apply liftW_run, Hm). simpl. rewrite Hd0. discriminate.
Qed.

Lemma wipe_file_last path method w size :
  st_size (fs w) path = Some size -> 0 < size ->
  let run := wipe_file path method (Some record_progress) w in
  returned run "success" = Some (JBool true) ->
  exists q, last (reports w run.2) = Some q /\ (q == 100)%Q.
Proof.
  intros Hsize Hpos. cbv zeta. unfold wipe_file.
  erewrite bind_run by reflexivity.
  match goal with
  | |- context [returning_result ?i (try_except_finally ?b (fun e => setitem "error" (@?v e)) (stamp_end ?st)) ?w0] =>
      destruct (returning_finally i b v st w0) as (d & Hrun & Hd);
      set (body := b) in *; set (init := i) in *
  end.
  rewrite Hrun. unfold returned. cbn [fst snd]. rewrite Hd. clear Hrun Hd d.
  assert (Hinit : init !! "success" = Some (JBool false)).
  { unfold init. now rewrite !lookup_insert_ne, lookup_insert_eq by discriminate. }
  assert (Herr : forall v, (<["error" := v]> init : dict) !! "success" <> Some (JBool true)).
  { intros v. rewrite lookup_insert_ne, Hinit by discriminate. discriminate. }
  unfold body.
  destruct (path_exists path (tick w)) as [[present|e] w1] eqn:Hex;
    [| erewrite bind_raise by (apply liftW_run, Hex); simpl; rewrite Hinit; discriminate].
  erewrite bind_run by (apply liftW_run, Hex).
  apply path_exists_ok in Hex as [-> ->].
  destruct (negb (exists_in (fs (tick w)) path));
    [rewrite setitem_run; simpl; intros H; now apply Herr in H|].
  erewrite bind_run by (apply liftW_run; reflexivity).
  destruct (cancel_requested (tick (tick w)));
    [rewrite setitem_run; simpl; intros H; now apply Herr in H|].
  destruct (path_stat_size path (tick (tick w))) as [[n|e] w2] eqn:Hst;
    [| erewrite bind_raise by (apply liftW_run, Hst); simpl; rewrite Hinit; discriminate].
  erewrite bind_run by (apply liftW_run, Hst).
  apply path_stat_size_ok in Hst as [_ ->].
  set (w_m := tick (tick (tick w))).
  assert (Hlevel : forall (m : M bool) lvl,
            runs id true any_event 0 100 m ->
            (forall w1, m w_m = (Ok true, w1) -> last (reports w_m w1) = Some lvl) ->
            (lvl == 100)%Q ->
            let r := ((success ← liftW m;
                       setitem "success" (JBool success);;
                       (if (success : bool)
                        then verified ← liftW (verify_wipe path);
                             setitem "verified" (JBool verified)
                        else mret tt)) : ML unit) (init, w_m) in
            r.2.1 !! "success" = Some (JBool true) ->
            exists q, last (reports w (tick r.2.2)) = Some q /\ (q == 100)%Q).
  { intros m lvl Hm Hlast Hlvl. cbv zeta. intros Hr.
    destruct (finish_success path m init w_m Hinit Hr) as (w1 & Hrun & Hafter).
    destruct (advance_extends _ _ _ _ _ _ (Hm w_m)) as [evs Tr].
    unfold id in Tr. rewrite Hrun in Tr. simpl in Tr.
    exists lvl. split; [|exact Hlvl].
    match goal with |- last (reports w (tick ?x)) = _ =>
      change (reports w (tick x)) with (reports w_m x) end.
    rewrite (reports_quiet_after true 0 0 w_m w1 _ evs Tr Hafter).
    now apply Hlast. }
  destruct (String.eqb method "clear");
    [| destruct (String.eqb method "purge");
       [| rewrite setitem_run; simpl; intros H; now apply Herr in H]].
  - apply Hlevel with (lvl := clear_level size size).
    + apply runs_clear_method; [apply any_event_permits | apply any_event_cb | apply span_0_100].
    + intros w1 Hrun. now apply (clear_method_last path w_m w1 size).
    + apply clear_level_full. exact Hpos.
  - apply Hlevel with (lvl := pass_level size 7 7 size).
    + apply runs_purge_method; [apply any_event_permits | apply any_event_cb | apply span_0_100 | lia].
    + intros w1 Hrun. now apply (purge_method_last path w_m w1 size).
    + apply pass_level_last; lia.
Qed.

(** C6 (amended): in a single [wipe_file], [wipe_folder] or
    [wipe_selection] call, the values handed to the progress callback never
    decrease and lie between 0 and 100.  [wipe_file] reports 100 last when
    it succeeds on a file that is not empty; [wipe_folder] and
    [wipe_selection] report only values below 100, whether they are
    cancelled or not. *)
Theorem progress_reports_rise (w : World) :
  (forall path method,
     let run := wipe_file path method (Some record_progress) w in
     rising (reports w run.2) /\
     (forall size, st_size (fs w) path = Some size -> 0 < size ->
        returned run "success" = Some (JBool true) ->
        exists q, last (reports w run.2) = Some q /\ (q == 100)%Q)) /\
  (forall folder_path method recursive,
     let run := wipe_folder folder_path method recursive (Some record_progress) w in
     rising (reports w run.2) /\
     Forall (fun q => q < 100)%Q (reports w run.2)) /\
  (forall file_list method,
     let run := wipe_selection file_list method (Some record_progress) w in
     rising (reports w run.2) /\
     Forall (fun q => q < 100)%Q (reports w run.2)).
Proof.
  split; [|split].
  - intros path method. cbv zeta. split; [apply wipe_file_rising|].
    intros size Hsize Hpos. now apply wipe_file_last with (size := size).
  - intros folder_path method recursive. apply wipe_folder_rising.
  - intros file_list method. apply wipe_selection_rising.
Qed.

End ProgressFacts.

Import Scenarios.

Lemma clear_method_correct_witness :
  let w' := (clear_method "/data/report.bin" None (calm big_file)).2 in
  exists_in (fs w') "/data/report.bin" = false /\
  exists t_open body t_sync t_unlink,
    trace w' = trace (calm big_file)
                 ++ (t_open, EvOpen "/data/report.bin" ReadWriteBinary) :: body
                 ++ [(t_sync, EvSync "/data/report.bin");
                     (t_unlink, EvUnlink "/data/report.bin")] /\
    Forall (body_event "/data/report.bin") body /\
    length (writes body) = Z.to_nat (ceil_div 65539 BLOCK_SIZE) /\
    written_bytes body = replicate (Z.to_nat 65539) Byte.x00 /\
    sequential 0 (writes body).
Proof.
  apply (clear_method_correct "/data/report.bin" None (calm big_file) _ 65539).
  - left. reflexivity.
  - vm_compute. reflexivity.
  - rewrite (surjective_pairing (clear_method _ _ _)) at 1.
    apply (f_equal (fun r => (r, _))). vm_compute. reflexivity.
Defined.

(** A selection of two files, wiped to the end without a stop request:
    the callback is given 0 and 50, never 100. *)
Lemma selection_stops_at_50_counterexample :
  let w := calm two_files in
  let run := wipe_selection ["/data/a.txt"; "/data/b.txt"] "clear"
               (Some record_progress) w in
  cancel_requested run.2 = false /\
  returned run "successful" = Some (JInt 2) /\
  returned run "skipped" = Some (JInt 0) /\
  reports w run.2 = [0 # 2; 100 # 2]%Q /\
  ~ (100 # 2 == 100)%Q.
Proof.
  cbv zeta. repeat split; try (vm_compute; reflexivity). discriminate.
Qed.

(** The same for the folder that holds them. *)
Example folder_stops_at_50 :
  let w := calm two_files in
  let run := wipe_folder "/data" "clear" true (Some record_progress) w in
  returned run "successful" = Some (JInt 2) /\
  reports w run.2 = [0 # 2; 100 # 2]%Q.
Proof. cbv zeta. split; vm_compute; reflexivity. Qed.

(** A file of five bytes: one report for [clear], seven for [purge], the
    last one 100. *)
Example wipe_file_reports :
  let w := calm small_file in
  reports w (wipe_file "/data/note.txt" "clear" (Some record_progress) w).2
    = [500 # 5]%Q /\
  reports w (wipe_file "/data/note.txt" "purge" (Some record_progress) w).2
    = [3500 # 245; 7000 # 245; 10500 # 245; 14000 # 245;
       17500 # 245; 21000 # 245; 24500 # 245]%Q /\
  returned (wipe_file "/data/note.txt" "purge" (Some record_progress) w) "success"
    = Some (JBool true).
Proof. cbv zeta. repeat split; vm_compute; reflexivity. Qed.

(** ** The counters of the batch operations *)

Module BatchFacts.

Import NISTAlgorithms WipingEngine.

Lemma poll_interrupt_run idx w :
  exists w1, poll_interrupt idx w = (Ok tt, w1) /\
    fs w1 = fs w /\ trace w1 = trace w /\
    (cancel_requested w = true -> cancel_requested w1 = true).
Proof.
  unfold poll_interrupt. destruct (interrupt w idx); eexists; split; try reflexivity;
    simpl; auto.
Qed.




Lemma stamp_end_run start_time d w :
  stamp_end start_time (d, w) =
    (Ok tt, (<["duration" := JFloat (total_seconds start_time (wallclock w (ticks w)))]>
             (<["end_time" := JStr (iso (wallclock w (ticks w)))]> d), tick w)).
Proof. reflexivity. Qed.


(** *** [wipe_folder] *)









(** A callback that raises at the first report: both loops stop before
    the first file, with every counter at zero; [wipe_selection] leaves
    the error as a dict in [files], [wipe_folder] as a string in
    [errors]. *)
Example raising_callback_stops_the_batch :
  let selection := wipe_selection ["/data/a.txt"; "/data/b.txt"] "clear"
                     (Some Scenarios.failing_progress)
                     (Scenarios.calm Scenarios.two_files) in
  let folder := wipe_folder "/data" "clear" true (Some Scenarios.failing_progress)
                  (Scenarios.calm Scenarios.two_files) in
  returned selection "total_files" = Some (JInt 2) /\
  returned selection "successful" = Some (JInt 0) /\
  returned selection "failed" = Some (JInt 0) /\
  returned selection "skipped" = Some (JInt 0) /\
  returned selection "files"
    = Some (JList [JDict (<["error" := JStr "Broken pipe"]> ∅)]) /\
  returned folder "total_files" = Some (JInt 2) /\
  returned folder "successful" = Some (JInt 0) /\
  returned folder "failed" = Some (JInt 0) /\
  returned folder "errors" = Some (JList [JStr "Broken pipe"]) /\
  cancel_requested folder.2 = false.
Proof. repeat split; vm_compute; reflexivity. Qed.

End BatchFacts.

(** ** Removing the empty directories *)

Module DirFacts.

Import NISTAlgorithms WipingEngine.

Lemma untouched_refl w : untouched w w.
Proof. repeat split; auto. Qed.

Lemma untouched_trans w1 w2 w3 : untouched w1 w2 -> untouched w2 w3 -> untouched w1 w3.
Proof. intros (A & B & C & D & E) (A' & B' & C' & D' & E'). repeat split; try congruence. lia. Qed.

Lemma untouched_tick w : untouched w (tick w).
Proof. repeat split; simpl; auto. Qed.

(** A system call whose operation keeps the world. *)
Lemma untouched_syscall {A} (op : M A) w :
  (forall w1, untouched w1 (op w1).2) -> untouched w (syscall op w).2.
Proof.
  intros Hop. unfold syscall. destruct (faults w (ticks w)); simpl.
  - apply untouched_tick.
  - eapply untouched_trans; [apply untouched_tick | apply Hop].
Qed.

Ltac untouched_call :=
  apply untouched_syscall; intros w1; simpl;
  repeat match goal with
         | |- context [match ?x with _ => _ end] => destruct x; simpl
         end;
  apply untouched_refl.

Lemma untouched_path_exists p w : untouched w (path_exists p w).2.
Proof. untouched_call. Qed.
Lemma untouched_path_is_dir p w : untouched w (path_is_dir p w).2.
Proof. untouched_call. Qed.
Lemma untouched_path_is_file p w : untouched w (path_is_file p w).2.
Proof. untouched_call. Qed.
Lemma untouched_path_stat_size p w : untouched w (path_stat_size p w).2.
Proof. unfold path_stat_size. untouched_call. Qed.
Lemma untouched_iterdir p w : untouched w (iterdir p w).2.
Proof. unfold iterdir. untouched_call. Qed.
Lemma untouched_rglob_all p w : untouched w (rglob_all p w).2.
Proof. unfold rglob_all. untouched_call. Qed.

Lemma untouched_filter_m (keep : string -> M bool) xs :
  (forall x w, untouched w (keep x w).2) ->
  forall w, untouched w (filter_m keep xs w).2.
Proof.
  intros Hk. induction xs as [|x xs IH]; intros w; simpl; [apply untouched_refl|].
  unfold_monad. pose proof (Hk x w) as H1.
  destruct (keep x w) as [[b|e] w1]; simpl in *; [|exact H1].
  pose proof (IH w1) as H2.
  destruct (filter_m keep xs w1) as [[kept|e] w2]; simpl in *;
    eapply untouched_trans; eauto.
Qed.

(** *** Pruning *)

Lemma pruned_refl w : pruned w w.
Proof. repeat split; auto. Qed.

Lemma untouched_pruned w w' : untouched w w' -> pruned w w'.
Proof. intros (A & B & C & _). repeat split; auto. intros k. left. now rewrite A. Qed.

Lemma pruned_trans w1 w2 w3 : pruned w1 w2 -> pruned w2 w3 -> pruned w1 w3.
Proof.
  intros (T1 & C1 & F1) (T2 & C2 & F2).
  split; [congruence|]. split; [congruence|].
  intros k. destruct (F2 k) as [H2 | (H2 & [md Hd] & Hbelow)].
  - destruct (F1 k) as [H1 | H1]; [left; congruence | right].
    destruct H1 as (H1 & Hd & Hb). split; [congruence | auto].
  - right. split; [exact H2|].
    destruct (F1 k) as [H1 | (H1 & _)]; [|congruence].
    split; [exists md; congruence|].
    intros c nd Hc Hp Hne.
    destruct (F1 c) as [Hc1 | (_ & [md' Hc1] & _)].
    + apply (Hbelow c nd); [congruence | exact Hp | exact Hne].
    + exists md'. congruence.
Qed.

Lemma no_children m p :
  filter (fun k => path_parent k = p /\ k <> p) (entries m) = [] ->
  only_dirs_below m p.
Proof.
  intros Hnil c nd Hc Hp Hne. exfalso.
  assert (Hin : c ∈ filter (fun k => path_parent k = p /\ k <> p) (entries m)).
  { apply list_elem_of_filter. split; [auto|].
    unfold entries. apply list_elem_of_fmap. exists (c, nd). split; [reflexivity|].
    now apply elem_of_map_to_list. }
  rewrite Hnil in Hin. inversion Hin.
Qed.

Lemma rmdir_pruned p w : pruned w (rmdir p w).2.
Proof.
  unfold rmdir, syscall. destruct (faults w (ticks w)); simpl;
    [apply untouched_pruned, untouched_tick|].
  destruct (fs w !! p) as [[| md | |]|] eqn:Hp; simpl;
    try (apply untouched_pruned, untouched_tick).
  destruct (filter _ (entries (fs w))) eqn:Hchildren; simpl;
    [| apply untouched_pruned, untouched_tick].
  destruct (holder_writable (fs w) p); simpl;
    [| apply untouched_pruned, untouched_tick].
  split; [reflexivity|]. split; [reflexivity|]. simpl.
  intros k. destruct (decide (k = p)) as [-> | Hne].
  - right. rewrite lookup_delete_eq. split; [reflexivity|].
    split; [eauto | now apply no_children].
  - left. now rewrite lookup_delete_ne.
Qed.

Lemma for_each_pruned {A} (body : A -> M unit) xs :
  (forall x w, pruned w (body x w).2) ->
  forall w, pruned w (for_each xs body w).2.
Proof.
  intros Hb. induction xs as [|x xs IH]; intros w; simpl; [apply pruned_refl|].
  unfold_monad. pose proof (Hb x w) as H1.
  destruct (body x w) as [[u|e] w1]; simpl in *; [|exact H1].
  eapply pruned_trans; [exact H1 | apply IH].
Qed.

Lemma remove_empty_dirs_pruned depth :
  forall folder w, pruned w (_remove_empty_dirs depth folder w).2.
Proof.
  induction depth as [|depth IH]; intros folder w; simpl; [apply pruned_refl|].
  unfold_monad.
  pose proof (untouched_pruned _ _ (untouched_iterdir folder w)) as H1.
  destruct (iterdir folder w) as [[items|e] w1]; simpl in *; [|exact H1].
  eapply pruned_trans; [exact H1|].
  apply for_each_pruned. clear H1 w w1. intros item w.
  pose proof (untouched_pruned _ _ (untouched_path_is_dir item w)) as H1.
  destruct (path_is_dir item w) as [[is_dir|e] w1]; simpl in *; [|exact H1].
  destruct is_dir; [|exact H1].
  pose proof (IH item w1) as H2.
  destruct (_remove_empty_dirs depth item w1) as [[u|e] w2]; simpl in *;
    [| eapply pruned_trans; eauto].
  pose proof (rmdir_pruned item w2) as H3. unfold try_except.
  destruct (rmdir item w2) as [[u'|e] w3]; simpl in *.
  - eapply pruned_trans; [exact H1 | eapply pruned_trans; eauto].
  - destruct e; simpl;
      (eapply pruned_trans; [exact H1 | eapply pruned_trans; eauto]).
Qed.

(** [_remove_empty_dirs] emits nothing, creates and changes nothing, and
    removes no file, link or special node, nor the directory that holds
    one: what it removes are directories that held only directories. *)
Theorem remove_empty_dirs_spares_files (depth : nat) (folder : string) (w : World) :
  let w' := (_remove_empty_dirs depth folder w).2 in
  trace w' = trace w /\
  (forall k nd, fs w' !! k = Some nd -> fs w !! k = Some nd) /\
  (forall k nd, fs w !! k = Some nd -> (forall md, nd <> Dir md) ->
     fs w' !! k = Some nd /\
     fs w' !! path_parent k = fs w !! path_parent k).
Proof.
  cbv zeta. destruct (remove_empty_dirs_pruned depth folder w) as (Tr & _ & Hfs).
  split; [exact Tr|]. split.
  - intros k nd Hk. destruct (Hfs k) as [H | (H & _)]; congruence.
  - intros k nd Hk Hnd.
    assert (Hkept : fs (_remove_empty_dirs depth folder w).2 !! k = Some nd).
    { destruct (Hfs k) as [H | (_ & [md H] & _)]; [congruence|].
      exfalso. apply (Hnd md). congruence. }
    split; [exact Hkept|].
    destruct (Hfs (path_parent k)) as [H | (_ & [md Hp] & Hbelow)]; [exact H|].
    exfalso. destruct (decide (k = path_parent k)) as [Heq | Hne].
    + apply (Hnd md). rewrite <- Heq in Hp. congruence.
    + destruct (Hbelow k nd Hk eq_refl Hne) as [md' ->]. now apply (Hnd md').
Qed.

End DirFacts.

(** ** After a stop request *)

Module CancelFacts.

Import NISTAlgorithms WipingEngine DirFacts.

(** With the cancellation flag set, [wipe_file] reports a failure and
    leaves the file system and the trace as they are; the flag stays
    set.  When the path exists (and the test for it does not fail) the
    error is the cancellation message. *)
Theorem wipe_file_refuses_once_cancelled (path method : string)
    (cb : option callback) (w : World) :
  cancel_requested w = true ->
  let run := wipe_file path method cb w in
  returned run "success" = Some (JBool false) /\
  (exists msg, returned run "error" = Some (JStr msg) /\
     (faults w (S (ticks w)) = false -> exists_in (fs w) path = true ->
      msg = "Operation cancelled")) /\
  fs run.2 = fs w /\ trace run.2 = trace w /\ cancel_requested run.2 = true.
Proof.
  intros Hflag. cbv zeta. unfold wipe_file. erewrite bind_run by reflexivity.
  unfold returning_result, try_except_finally, try_except.
  unfold path_exists, syscall. unfold_monad. cbn [fst snd tick faults ticks fs].
  destruct (faults w (S (ticks w))) eqn:Hfault.
  - rewrite setitem_run, BatchFacts.stamp_end_run. unfold returned. cbn.
    split; [now rewrite !lookup_insert_ne, lookup_insert_eq by discriminate|].
    split; [|auto].
    eexists. split; [now rewrite !lookup_insert_ne, lookup_insert_eq by discriminate|].
    discriminate.
  - cbn [negb]. destruct (exists_in (fs w) path) eqn:Hex; cbn [negb].
    + unfold get_cancel. cbn. rewrite Hflag.
      rewrite setitem_run, BatchFacts.stamp_end_run. unfold returned. cbn.
      split; [now rewrite !lookup_insert_ne, lookup_insert_eq by discriminate|].
      split; [|auto].
      eexists. split; [now rewrite !lookup_insert_ne, lookup_insert_eq by discriminate|].
      reflexivity.
    + rewrite setitem_run, BatchFacts.stamp_end_run. unfold returned. cbn.
      split; [now rewrite !lookup_insert_ne, lookup_insert_eq by discriminate|].
      split; [|auto].
      eexists. split; [now rewrite !lookup_insert_ne, lookup_insert_eq by discriminate|].
      discriminate.
Qed.

(** With the flag set, [wipe_selection] processes no file: every path is
    counted as skipped, [files] stays empty, and the file system and the
    trace are left as they are. *)
Theorem wipe_selection_skips_all_once_cancelled (file_list : list string)
    (method : string) (cb : option callback) (w : World) :
  cancel_requested w = true ->
  let run := wipe_selection file_list method cb w in
  returned run "successful" = Some (JInt 0) /\
  returned run "failed" = Some (JInt 0) /\
  returned run "skipped" = Some (JInt (Z.of_nat (length file_list))) /\
  returned run "files" = Some (JList []) /\
  fs run.2 = fs w /\ trace run.2 = trace w /\ cancel_requested run.2 = true.
Proof.
  intros Hflag. cbv zeta. unfold wipe_selection. erewrite bind_run by reflexivity.
  cbv zeta. unfold returning_result, try_except_finally, try_except.
  destruct file_list as [|file_path rest].
  - cbn [selection_loop]. unfold_monad. rewrite BatchFacts.stamp_end_run.
    unfold returned. cbn [fst snd length Z.of_nat].
    repeat (split; [now rewrite !lookup_insert_ne, ?lookup_insert_eq by discriminate|]).
    simpl. auto.
  - cbn [selection_loop].
    destruct (BatchFacts.poll_interrupt_run 0 (tick w)) as (w1 & Hpoll & Hfs & Htr & Hkeep).
    erewrite bind_run by (apply liftW_run, Hpoll).
    erewrite bind_run by (apply liftW_run; reflexivity).
    rewrite (Hkeep Hflag). rewrite setitem_run, BatchFacts.stamp_end_run.
    unfold returned. cbn [fst snd].
    split; [now rewrite !lookup_insert_ne, ?lookup_insert_eq by discriminate|].
    split; [now rewrite !lookup_insert_ne, ?lookup_insert_eq by discriminate|].
    split; [rewrite !lookup_insert_ne, ?lookup_insert_eq by discriminate;
            do 2 f_equal; lia|].
    split; [now rewrite !lookup_insert_ne, ?lookup_insert_eq by discriminate|].
    simpl. rewrite Hfs, Htr. split; [reflexivity|]. split; [reflexivity|].
    now apply Hkeep.
Qed.

End CancelFacts.

(** ** A wipe that meets no fault succeeds *)

Module SuccessFacts.

Import NISTAlgorithms WipingEngine PassFacts.

Lemma reshaped_refl key m : reshaped key m m.
Proof. repeat split; eauto. Qed.

Lemma reshaped_trans key m1 m2 m3 :
  reshaped key m1 m2 -> reshaped key m2 m3 -> reshaped key m1 m3.
Proof.
  intros (A1 & B1 & C1) (A2 & B2 & C2). split; [|split].
  - intros k Hk. rewrite A2, A1; auto.
  - intros data md H. destruct (B1 _ _ H) as [d1 H1]. eauto.
  - auto.
Qed.

Lemma rewrites_refl key w : rewrites key w w.
Proof. repeat split; eauto. Qed.

Lemma rewrites_trans key w1 w2 w3 :
  rewrites key w1 w2 -> rewrites key w2 w3 -> rewrites key w1 w3.
Proof.
  intros (A1 & B1 & C1) (A2 & B2 & C2).
  split; [congruence|]. split; [congruence|]. eapply reshaped_trans; eauto.
Qed.

Lemma rewrites_same key w w' :
  faults w' = faults w -> cancel_requested w' = cancel_requested w ->
  fs w' = fs w -> rewrites key w w'.
Proof. intros A B C. split; [exact A|]. split; [exact B|]. rewrite C. apply reshaped_refl. Qed.

(** Resolution does not depend on the bytes of a file. *)
Lemma resolve_reshaped key m m' fuel :
  reshaped key m m' ->
  forall p data md,
    resolve fuel m p = Some (key, File data md) ->
    exists data', resolve fuel m' p = Some (key, File data' md).
Proof.
  intros (Hother & Hfile & _). induction fuel as [|fuel IH]; intros p data md Hres.
  - simpl in *. destruct (decide (p = key)) as [-> | Hne].
    + destruct (m !! key) as [[d pm|?|?|?]|] eqn:Hk; inversion Hres; subst.
      destruct (Hfile _ _ eq_refl) as [d' ->]. eauto.
    + rewrite (Hother p Hne).
      destruct (m !! p) as [[]|]; inversion Hres; congruence.
  - simpl in *. destruct (decide (p = key)) as [-> | Hne].
    + destruct (m !! key) as [[d pm|?|t|?]|] eqn:Hk; try (inversion Hres; fail).
      * inversion Hres; subst. destruct (Hfile _ _ eq_refl) as [d' ->]. eauto.
      * (* the key itself is a link: it resolves further, never to itself *)
        exfalso. clear IH Hother Hfile.
        assert (Hsome : forall fuel p k nd, resolve fuel m p = Some (k, nd) ->
                         m !! k = Some nd).
        { clear. induction fuel as [|fuel IH]; intros p k nd H; simpl in H.
          - destruct (m !! p) as [[]|] eqn:E; inversion H; subst; exact E.
          - destruct (m !! p) as [[]|] eqn:E; try (inversion H; subst; exact E).
            eapply IH; eauto. }
        apply Hsome in Hres. congruence.
    + rewrite (Hother p Hne).
      destruct (m !! p) as [[d pm|?|t|?]|] eqn:Hp; try (inversion Hres; congruence).
      eapply IH; eauto.
Qed.

Lemma resolve_entry m fuel : forall p k nd,
  resolve fuel m p = Some (k, nd) -> m !! k = Some nd.
Proof.
  induction fuel as [|fuel IH]; intros p k nd H; simpl in H.
  - destruct (m !! p) as [[]|] eqn:E; inversion H; subst; exact E.
  - destruct (m !! p) as [[]|] eqn:E; try (inversion H; subst; exact E).
    eapply IH; eauto.
Qed.

(** The entry a path names is the file it resolves to, or a link. *)
Lemma resolve_head m fuel p k nd :
  resolve fuel m p = Some (k, nd) ->
  (p = k /\ m !! p = Some nd) \/ (p <> k /\ exists t, m !! p = Some (Link t)).
Proof.
  intros H. pose proof (resolve_entry _ _ _ _ _ H) as Hk.
  destruct (decide (p = k)) as [-> | Hne]; [left; auto | right].
  split; [exact Hne|].
  destruct fuel; simpl in H; destruct (m !! p) as [[]|] eqn:E;
    try (inversion H; congruence); eauto.
Qed.

(** *** Rules for [through] *)

Section Through.
Context {S : Type} (pi : S -> World) (R : World -> World -> Prop)
  (Rrefl : forall w, R w w)
  (Rtrans : forall w1 w2 w3, R w1 w2 -> R w2 w3 -> R w1 w3).

Lemma through_ret {A} (a : A) : through pi R (mret a : ST S A).
Proof. intros s. apply Rrefl. Qed.

Lemma through_raise {A} e : through pi R (raise e : ST S A).
Proof. intros s. apply Rrefl. Qed.

Lemma through_bind {A B} (m : ST S A) (f : A -> ST S B) :
  through pi R m -> (forall a, through pi R (f a)) -> through pi R (x ← m; f x).
Proof.
  intros Hm Hf s. specialize (Hm s). unfold_monad.
  destruct (m s) as [[a|e] s1]; simpl in *; [|exact Hm].
  eapply Rtrans; [exact Hm | apply Hf].
Qed.

Lemma through_try_except {A} (m : ST S A) (h : exn -> ST S A) :
  through pi R m -> (forall e, through pi R (h e)) -> through pi R (try_except m h).
Proof.
  intros Hm Hh s. specialize (Hm s). unfold try_except.
  destruct (m s) as [[a|e] s1]; simpl in *; [exact Hm|].
  eapply Rtrans; [exact Hm | apply Hh].
Qed.

Lemma through_if {A} (b : bool) (m1 m2 : ST S A) :
  through pi R m1 -> through pi R m2 -> through pi R (if b then m1 else m2).
Proof. destruct b; auto. Qed.

End Through.

Lemma through_liftW {A} R (m : M A) : through id R m -> through snd R (liftW m).
Proof.
  intros H [d w]. specialize (H w). unfold liftW, id in *. simpl.
  destruct (m w). exact H.
Qed.

Lemma steady_refl w : steady w w.
Proof. repeat split. Qed.

Lemma steady_trans w1 w2 w3 : steady w1 w2 -> steady w2 w3 -> steady w1 w3.
Proof. intros (A & B & C) (A' & B' & C'). repeat split; congruence. Qed.

Lemma steady_rewrites key w w' : steady w w' -> rewrites key w w'.
Proof. intros (A & B & C). now apply rewrites_same. Qed.

Lemma through_syscall_steady {A} (op : M A) :
  (forall w, steady w (op w).2) -> through id steady (syscall op).
Proof.
  intros Hop w. unfold syscall, id. destruct (faults w (ticks w)); simpl.
  - repeat split.
  - eapply steady_trans; [|apply Hop]. repeat split.
Qed.

Ltac steady_call :=
  apply through_syscall_steady; intros w; simpl;
  repeat match goal with
         | |- context [match ?x with _ => _ end] => destruct x; simpl
         end;
  repeat split.

Lemma steady_path_exists p : through id steady (path_exists p).
Proof. steady_call. Qed.
Lemma steady_path_stat_size p : through id steady (path_stat_size p).
Proof. unfold path_stat_size. steady_call. Qed.
Lemma steady_open_file p md : through id steady (open_file p md).
Proof. unfold open_file. steady_call. Qed.
Lemma steady_f_read f n : through id steady (f_read f n).
Proof. unfold f_read. steady_call. Qed.
Lemma steady_f_seek f n : through id steady (f_seek f n).
Proof. unfold f_seek. steady_call. Qed.
Lemma steady_f_seek_end f n : through id steady (f_seek_end f n).
Proof. unfold f_seek_end. steady_call. Qed.
Lemma steady_f_flush f : through id steady (f_flush f).
Proof. steady_call. Qed.
Lemma steady_os_fsync f : through id steady (os_fsync f).
Proof. steady_call. Qed.
Lemma steady_datetime_now : through id steady datetime_now.
Proof. intros w. repeat split. Qed.
Lemma steady_token_bytes n : through id steady (token_bytes n).
Proof. intros w. repeat split. Qed.

Ltac steady_auto :=
  repeat first
    [ apply (through_ret id steady steady_refl)
    | apply (through_raise id steady steady_refl)
    | apply steady_path_exists | apply steady_path_stat_size
    | apply steady_open_file | apply steady_f_read | apply steady_f_seek
    | apply steady_f_seek_end | apply steady_f_flush | apply steady_os_fsync
    | apply steady_datetime_now | apply steady_token_bytes
    | apply (through_bind id steady steady_trans); [|intros ?]
    | apply (through_try_except id steady steady_trans); [|intros ?]
    | apply through_if
    | match goal with
      | |- through _ _ (match ?x with _ => _ end) => destruct x
      | |- through _ _ (let _ := _ in _) => cbv zeta
      end ].

Lemma steady_verify_overwrite path : through id steady (_verify_overwrite path).
Proof. unfold _verify_overwrite. steady_auto. Qed.

Lemma steady_verify_wipe path : through id steady (verify_wipe path).
Proof. unfold verify_wipe. steady_auto. Qed.

(** *** Without faults *)

Lemma syscall_no_fault {A} (op : M A) w :
  (forall t, faults w t = false) -> syscall op w = op (tick w).
Proof. intros H. unfold syscall. now rewrite H. Qed.

Lemma no_faults_rewrites key w w' :
  rewrites key w w' -> (forall t, faults w t = false) -> forall t, faults w' t = false.
Proof. intros (F & _) H t. now rewrite F. Qed.

Lemma f_write_ok key f data w :
  (forall t, faults w t = false) -> h_key f = key ->
  exists f1 w1, f_write f data w = (Ok f1, w1) /\
    h_key f1 = key /\ rewrites key w w1.
Proof.
  intros Hnf Hkey. unfold f_write. rewrite syscall_no_fault by exact Hnf.
  cbn [fs tick]. rewrite Hkey.
  destruct (fs w !! key) as [[old pm| | |]|] eqn:Hk;
    eexists _, _; (split; [reflexivity|]); (split; [reflexivity|]);
    try (apply rewrites_same; reflexivity).
  split; [reflexivity|]. split; [reflexivity|]. simpl.
  split; [|split].
  - intros k Hne. now rewrite lookup_insert_ne by congruence.
  - intros data0 md H. rewrite lookup_insert_eq.
    rewrite Hk in H. inversion H; subst. eauto.
  - intros H. congruence.
Qed.


Lemma pass_progress_report_ok key cb file_size p total_passes b w :
  cb = None \/ cb = Some record_progress -> file_size <> 0 -> total_passes <> 0 ->
  exists w1, pass_progress_report cb file_size p total_passes b w = (Ok tt, w1) /\
             rewrites key w w1.
Proof.
  intros [-> | ->] HS HN; simpl.
  - exists w. split; [reflexivity | apply rewrites_refl].
  - unfold truediv, fdiv. apply Z.eqb_neq in HS, HN. rewrite HS, HN. unfold_monad.
    rewrite ?HS, ?HN. eexists. split; [reflexivity|]. apply rewrites_same; reflexivity.
Qed.

Lemma pass_data_ok key pattern c w :
  exists data w1, pass_data pattern c w = (Ok data, w1) /\ rewrites key w w1.
Proof.
  unfold pass_data. destruct pattern as [[|b p]|]; unfold_monad; unfold token_bytes;
    eexists _, _; (split; [reflexivity|]); apply rewrites_same; reflexivity.
Qed.

(** The block loop runs to its end and changes the bytes of the file
    only. *)
Lemma block_loop_ok key gen report file_size :
  0 <= file_size ->
  (forall c w, exists data w1, gen c w = (Ok data, w1) /\ rewrites key w w1) ->
  (0 < file_size ->
   forall b w, exists w1, report b w = (Ok tt, w1) /\ rewrites key w w1) ->
  forall f w, h_key f = key -> (forall t, faults w t = false) ->
  exists b' w', block_loop (Z.to_nat file_size) gen report file_size f 0 w
                  = (Ok b', w') /\ rewrites key w w'.
Proof.
  intros HS Hgen Hrep f w Hkey Hnf.
  pose proof (LoopFacts.block_loop_rule
                (fun f1 b w1 => 0 <= b /\ h_key f1 = key /\ rewrites key w w1)
                (fun _ => False) gen report file_size) as Hrule.
  assert (Hstep : forall f1 b w1,
            0 <= b /\ h_key f1 = key /\ rewrites key w w1 -> b < file_size ->
            match Observations.iteration gen report file_size f1 b w1 with
            | (Ok f2, w2) =>
                0 <= b + Z.min BLOCK_SIZE (file_size - b) /\
                h_key f2 = key /\ rewrites key w w2
            | (Raise _, _) => False
            end).
  { intros f1 b w1 (Hb & Hk1 & Hr1) Hlt. unfold Observations.iteration. unfold_monad.
    destruct (Hgen (Z.min BLOCK_SIZE (file_size - b)) w1) as (data & w2 & -> & Hr2).
    assert (Hnf2 : forall t, faults w2 t = false).
    { eapply no_faults_rewrites; [exact Hr2|].
      eapply no_faults_rewrites; [exact Hr1 | exact Hnf]. }
    destruct (f_write_ok key f1 data w2 Hnf2 Hk1) as (f2 & w3 & -> & Hk2 & Hr3).
    destruct (Hrep ltac:(lia) (b + Z.min BLOCK_SIZE (file_size - b)) w3)
      as (w4 & -> & Hr4).
    split; [unfold BLOCK_SIZE; lia|]. split; [exact Hk2|].
    eapply rewrites_trans; [exact Hr1|]. eapply rewrites_trans; [exact Hr2|].
    eapply rewrites_trans; eauto. }
  specialize (Hrule Hstep (Z.to_nat file_size) f 0 w
                (conj (Z.le_refl 0) (conj Hkey (rewrites_refl key w))) ltac:(lia)).
  destruct (block_loop (Z.to_nat file_size) gen report file_size f 0 w)
    as [[b'|e] w']; [|contradiction].
  destruct Hrule as (_ & f' & _ & _ & Hr). eauto.
Qed.

Lemma target_reshaped path key md m m' :
  reshaped key m m' -> target path key md m -> target path key md m'.
Proof.
  intros Hr [data H]. unfold target, lookup_path in *.
  destruct (resolve_reshaped key m m' SYMLOOP_MAX Hr path data md H) as [data' H'].
  eauto.
Qed.

(** Rewriting the bytes of a regular file changes no directory: the one
    that holds a name stays writable. *)
Lemma resolve_dir_reshaped key data md m m' fuel :
  m !! key = Some (File data md) -> reshaped key m m' ->
  forall p k pm,
    resolve fuel m p = Some (k, Dir pm) -> resolve fuel m' p = Some (k, Dir pm).
Proof.
  intros Hkey (Hother & _ & _). induction fuel as [|fuel IH]; intros p k pm Hres;
    simpl in *.
  - destruct (decide (p = key)) as [-> | Hne];
      [rewrite Hkey in Hres; discriminate|].
    now rewrite (Hother p Hne).
  - destruct (decide (p = key)) as [-> | Hne];
      [rewrite Hkey in Hres; discriminate|].
    rewrite (Hother p Hne). destruct (m !! p) as [[]|]; auto.
Qed.

Lemma holder_reshaped key data md m m' p :
  m !! key = Some (File data md) -> reshaped key m m' ->
  holder_writable m p = true -> holder_writable m' p = true.
Proof.
  intros Hkey Hr. unfold holder_writable, lookup_path.
  destruct (resolve SYMLOOP_MAX m (path_parent p)) as [[k []]|] eqn:H;
    try discriminate.
  now rewrite (resolve_dir_reshaped key data md m m' _ Hkey Hr _ _ _ H).
Qed.

(** The entry itself is a file or a link, never a directory. *)
Lemma target_entry path key md m :
  target path key md m ->
  exists nd, m !! path = Some nd /\ forall pm, nd <> Dir pm.
Proof.
  intros [data H]. unfold lookup_path in H.
  destruct (resolve_head _ _ _ _ _ H) as [[_ Hp] | [_ [t Hp]]];
    eexists; (split; [exact Hp | discriminate]).
Qed.

Lemma unlink_target path key md w :
  (forall t, faults w t = false) -> target path key md (fs w) ->
  holder_writable (fs w) path = true ->
  unlink path w = (Ok tt, set_fs (delete path (fs w)) (emit (EvUnlink path) (tick w))).
Proof.
  intros Hnf Ht Hh. destruct (target_entry _ _ _ _ Ht) as (nd & Hp & Hnd).
  unfold unlink. rewrite syscall_no_fault by exact Hnf. cbn [fs tick].
  rewrite Hp, Hh. destruct nd; try reflexivity. exfalso. now apply (Hnd mode).
Qed.

Lemma open_target path key md w :
  (forall t, faults w t = false) -> target path key md (fs w) ->
  r_ok md = true -> w_ok md = true ->
  open_file path ReadWriteBinary w =
    (Ok {| h_name := path; h_key := key; h_pos := 0 |},
     emit (EvOpen path ReadWriteBinary) (tick w)).
Proof.
  intros Hnf [data Ht] Hr Hw. unfold open_file. rewrite syscall_no_fault by exact Hnf.
  cbn [fs tick]. rewrite Ht. cbn [node_mode may_open]. now rewrite Hr, Hw.
Qed.

Section Target.
Context (path key : string) (md : perms) (cb : option callback)
  (Hcb : cb = None \/ cb = Some record_progress)
  (Hr : r_ok md = true) (Hw : w_ok md = true).

(** A pass on a file that can be opened for update, without faults. *)
Lemma overwrite_pass_ok file_size pattern p total_passes w :
  0 <= file_size -> total_passes <> 0 ->
  (forall t, faults w t = false) -> target path key md (fs w) ->
  exists w', _overwrite_pass path file_size pattern p total_passes cb w = (Ok true, w') /\
             rewrites key w w'.
Proof.
  intros HS HN Hnf Ht. unfold _overwrite_pass, try_except.
  erewrite bind_run by (now apply (open_target path key md)).
  set (w1 := emit (EvOpen path ReadWriteBinary) (tick w)).
  set (f := {| h_name := path; h_key := key; h_pos := 0 |}).
  destruct (block_loop_ok key (pass_data pattern)
              (pass_progress_report cb file_size p total_passes) file_size HS
              (pass_data_ok key pattern)
              (fun Hpos b w0 => pass_progress_report_ok key cb file_size p total_passes
                                  b w0 Hcb ltac:(lia) HN)
              f w1 eq_refl Hnf)
    as (b' & w2 & Hloop & Hr2).
  erewrite bind_run by exact Hloop.
  assert (Hnf2 : forall t, faults w2 t = false)
    by (eapply no_faults_rewrites; [exact Hr2 | exact Hnf]).
  unfold f_flush, os_fsync. unfold_monad.
  rewrite (syscall_no_fault _ w2 Hnf2). cbn [fst snd].
  rewrite syscall_no_fault by exact Hnf2.
  eexists. split; [reflexivity|].
  eapply rewrites_trans; [|eapply rewrites_trans; [exact Hr2|]];
    apply rewrites_same; reflexivity.
Qed.

Lemma purge_passes_ok file_size total_passes pass_nums :
  0 <= file_size -> total_passes <> 0 ->
  forall w, (forall t, faults w t = false) -> target path key md (fs w) ->
  exists w', purge_passes pass_nums path file_size total_passes cb w = (Ok true, w') /\
             rewrites key w w'.
Proof.
  intros HS HN. induction pass_nums as [|p rest IH]; intros w Hnf Ht.
  - exists w. split; [reflexivity | apply rewrites_refl].
  - cbn [purge_passes].
    destruct (overwrite_pass_ok file_size (pass_pattern p) p total_passes w HS HN Hnf Ht)
      as (w1 & Hpass & Hr1).
    erewrite bind_run by exact Hpass. cbn [negb].
    destruct (IH w1) as (w2 & Hrest & Hr2).
    + eapply no_faults_rewrites; eauto.
    + destruct Hr1 as (_ & _ & Hfs). eapply target_reshaped; eauto.
    + exists w2. split; [exact Hrest | eapply rewrites_trans; eauto].
Qed.

Lemma target_size w data :
  lookup_path (fs w) path = Some (key, File data md) ->
  (forall t, faults w t = false) ->
  path_exists path w = (Ok true, tick w) /\
  path_stat_size path (tick w) = (Ok (Z.of_nat (length data)), tick (tick w)).
Proof.
  intros Ht Hnf. split.
  - unfold path_exists. rewrite syscall_no_fault by exact Hnf. cbn [fs tick].
    unfold exists_in. now rewrite Ht.
  - unfold path_stat_size. rewrite syscall_no_fault by exact Hnf. cbn [fs tick].
    unfold st_size. now rewrite Ht.
Qed.


Lemma purge_method_ok w :
  (forall t, faults w t = false) -> target path key md (fs w) ->
  holder_writable (fs w) path = true ->
  exists w', purge_method path 7 cb w = (Ok true, w') /\
    fs w' !! path = None /\ faults w' = faults w /\
    cancel_requested w' = cancel_requested w.
Proof.
  intros Hnf [data Ht] Hh. destruct (target_size w data Ht Hnf) as [Hex Hst].
  pose proof (resolve_entry _ _ _ _ _ Ht) as Hkey.
  unfold purge_method, try_except.
  erewrite bind_run by exact Hex. cbn [negb].
  erewrite bind_run by exact Hst.
  destruct (purge_passes_ok (Z.of_nat (length data)) 7 (py_range 1 (7 + 1))
              ltac:(lia) ltac:(lia) (tick (tick w)) Hnf ltac:(exists data; exact Ht))
    as (w1 & Hpasses & Hr1).
  erewrite bind_run by exact Hpasses. cbn [negb].
  pose proof (steady_verify_overwrite path w1) as Hsteady. unfold id in Hsteady.
  destruct (EngineFacts.verify_overwrite_total path w1) as (verified & w2 & Hver).
  rewrite Hver in Hsteady. cbn [snd] in Hsteady.
  erewrite bind_run by exact Hver.
  assert (Hr2 : rewrites key (tick (tick w)) w2).
  { eapply rewrites_trans; [exact Hr1 | apply steady_rewrites, Hsteady]. }
  assert (Hnf2 : forall t, faults w2 t = false)
    by (eapply no_faults_rewrites; [exact Hr2 | exact Hnf]).
  assert (Ht2 : target path key md (fs w2)).
  { destruct Hr2 as (_ & _ & Hfs). eapply target_reshaped; [exact Hfs|]. exists data. exact Ht. }
  assert (Hh2 : holder_writable (fs w2) path = true).
  { destruct Hr2 as (_ & _ & Hfs). now apply (holder_reshaped key data md (fs w)). }
  erewrite bind_run
    by (apply (unlink_target path key md); [exact Hnf2 | exact Ht2 | exact Hh2]).
  eexists. split; [reflexivity|]. cbn [fs set_fs faults cancel_requested emit tick].
  split; [apply lookup_delete_eq|]. destruct Hr2 as (F & C & _). auto.
Qed.

End Target.


(** In a directory that may not be written the file is zeroed, the
    unlink fails, and the wipe reports a failure: the name stays. *)
Example read_only_directory_keeps_the_name :
  let run := wipe_file "/data/note.txt" "clear" None (calm locked) in
  returned run "success" = Some (JBool false) /\
  fs run.2 !! "/data/note.txt" = Some (File (replicate 5 Byte.x00) rw).
Proof. split; vm_compute; reflexivity. Qed.

End SuccessFacts.

(** ** The schedule of the passes *)

Module ScheduleFacts.

Import NISTAlgorithms PurgeFacts SuccessFacts.

(** C2: [purge_method] with seven passes writes by the schedule.  In
    every run it emits at most seven sessions on the file, exactly seven
    of [size] bytes each when it returns [True]; all the bytes of the
    first are 0x00, all the bytes of the second are 0xFF, and every block
    of the later ones is a fresh draw from the entropy source, the draws
    being made at pairwise different ticks.  And it does return [True],
    having written the seven passes, whenever no system call fails and
    the path names (through links) a regular file that may be read and
    written, in a directory that may be written. *)
Theorem purge_pass_schedule (path : string) (cb : option callback) (w : World) :
  cb = None \/ cb = Some record_progress ->
  let run := purge_method path 7 cb w in
  (exists sessions rest,
     trace run.2 = trace w ++ concat sessions ++ rest /\
     Forall after_passes rest /\
     (length sessions <= 7)%nat /\
     (run.1 = Ok true ->
      length sessions = 7%nat /\
      forall size, st_size (fs w) path = Some size ->
        Forall (fun s => Z.of_nat (length (written_bytes s)) = size) sessions) /\
     (forall i s, sessions !! i = Some s ->
        is_session path (pass_pattern (Z.of_nat i + 1)) (entropy w) s /\
        scheduled (entropy w) i s) /\
     StronglySorted lt (write_stamps (concat sessions))) /\
  (forall key data md,
     (forall t, faults w t = false) ->
     lookup_path (fs w) path = Some (key, File data md) ->
     r_ok md = true -> w_ok md = true ->
     holder_writable (fs w) path = true ->
     run.1 = Ok true).
Proof.
  intros Hcb. cbv zeta. split; [now apply purge_sessions|].
  intros key data md Hnf Ht Hr Hw Hh.
  destruct (purge_method_ok path key md cb Hcb Hr Hw w Hnf
              ltac:(exists data; exact Ht) Hh) as (w' & Hrun & _).
  now rewrite Hrun.
Qed.

End ScheduleFacts.

(** The seven passes over a file of five bytes: the run returns [True],
    and its trace is seven sessions of five bytes each, by the schedule. *)
Lemma purge_pass_schedule_witness :
  let run := purge_method "/data/note.txt" 7 None (calm small_file) in
  run.1 = Ok true /\
  exists sessions rest,
    trace run.2 = trace (calm small_file) ++ concat sessions ++ rest /\
    Forall after_passes rest /\
    length sessions = 7%nat /\
    Forall (fun s => Z.of_nat (length (written_bytes s)) = 5) sessions /\
    (forall i s, sessions !! i = Some s ->
       is_session "/data/note.txt" (pass_pattern (Z.of_nat i + 1))
         (entropy (calm small_file)) s /\
       scheduled (entropy (calm small_file)) i s) /\
    StronglySorted lt (write_stamps (concat sessions)).
Proof.
  destruct (ScheduleFacts.purge_pass_schedule "/data/note.txt" None (calm small_file)
              (or_introl eq_refl))
    as [(sessions & rest & Htrace & Hrest & _ & Hfull & Hsched & Hsorted) Hok].
  assert (Hrun : (purge_method "/data/note.txt" 7 None (calm small_file)).1 = Ok true).
  { apply (Hok "/data/note.txt" (replicate 5 Byte.x41) rw).
    - intros t. reflexivity.
    - vm_compute. reflexivity.
    - reflexivity.
    - reflexivity.
    - vm_compute. reflexivity. }
  destruct (Hfull Hrun) as [Hseven Hsizes].
  split; [exact Hrun|].
  exists sessions, rest.
  split; [exact Htrace|]. split; [exact Hrest|]. split; [exact Hseven|].
  split; [apply Hsizes; vm_compute; reflexivity|].
  split; [exact Hsched | exact Hsorted].
Defined.

(** The writes of that run, in a world where the entropy source counts. *)
Example purge_small_file_writes :
  let run := purge_method "/data/note.txt" 7 None (calm small_file) in
  run.1 = Ok true /\
  stamped_writes (trace run.2) =
    [(4%nat, [Byte.x00; Byte.x00; Byte.x00; Byte.x00; Byte.x00]);
     (8%nat, [Byte.xff; Byte.xff; Byte.xff; Byte.xff; Byte.xff]);
     (13%nat, [Byte.x0b; Byte.x0c; Byte.x0d; Byte.x0e; Byte.x0f]);
     (18%nat, [Byte.x10; Byte.x11; Byte.x12; Byte.x13; Byte.x14]);
     (23%nat, [Byte.x15; Byte.x16; Byte.x17; Byte.x18; Byte.x19]);
     (28%nat, [Byte.x1a; Byte.x1b; Byte.x1c; Byte.x1d; Byte.x1e]);
     (33%nat, [Byte.x1f; Byte.x20; Byte.x21; Byte.x22; Byte.x23])].
Proof. split; vm_compute; reflexivity. Qed.

(** ** Relations carried through the wiping code *)

Module ConfineFacts.

Import NISTAlgorithms WipingEngine SuccessFacts DirFacts.

(** *** Relations that only look at the file system *)

Section Generic.
Context (R : World -> World -> Prop)
  (Rrefl : forall w, R w w)
  (Rtrans : forall w1 w2 w3, R w1 w2 -> R w2 w3 -> R w1 w3)
  (Rfs : forall w w', fs w' = fs w -> R w w').

Lemma through_steady {A} (m : M A) : through id steady m -> through id R m.
Proof. intros H w. apply Rfs. apply (H w). Qed.

Lemma through_call_record v : through id R (call record_progress v).
Proof. intros w. apply Rfs. reflexivity. Qed.

Lemma through_get_cancel : through id R get_cancel.
Proof. intros w. apply Rrefl. Qed.



Lemma through_batch_progress cb idx total :
  cb = None \/ cb = Some record_progress ->
  through id R (WipingEngine.batch_progress cb idx total).
Proof.
  intros [-> | ->]; simpl; [apply (through_ret id R Rrefl)|].
  apply (through_bind id R Rtrans); [|intros q; apply through_call_record].
  unfold truediv. destruct (total =? 0);
    [apply (through_raise id R Rrefl) | apply (through_ret id R Rrefl)].
Qed.

Lemma through_poll_interrupt idx : through id R (poll_interrupt idx).
Proof.
  intros w. unfold poll_interrupt, id. destruct (interrupt w idx);
    [apply Rfs; reflexivity | apply Rrefl].
Qed.



End Generic.

(** *** Code that builds a result dict *)

Section GenericLocal.
Context (R : World -> World -> Prop)
  (Rrefl : forall w, R w w)
  (Rtrans : forall w1 w2 w3, R w1 w2 -> R w2 w3 -> R w1 w3)
  (Rfs : forall w w', fs w' = fs w -> R w w').

Lemma through_setitem key v : through snd R (setitem key v).
Proof. intros s. apply Rrefl. Qed.

Lemma through_append_item key v : through snd R (append_item key v).
Proof. intros s. unfold append_item. destruct (s.1 !! key) as [[]|]; apply Rrefl. Qed.

Lemma through_incr_item key : through snd R (incr_item key).
Proof. intros s. unfold incr_item. destruct (s.1 !! key) as [[]|]; apply Rrefl. Qed.

Lemma through_dict_getitem {S} (pi : S -> World) d key :
  through pi R (dict_getitem d key).
Proof.
  unfold dict_getitem. destruct (d !! key);
    [apply (through_ret pi R Rrefl) | apply (through_raise pi R Rrefl)].
Qed.

Lemma through_stamp_end start_time : through snd R (stamp_end start_time).
Proof. intros [d w]. apply Rfs. reflexivity. Qed.

Lemma through_returning_result init (body : ML unit) :
  through snd R body -> through id R (returning_result init body).
Proof.
  intros H w. specialize (H (init, w)). unfold returning_result, id. simpl in *.
  destruct (body (init, w)) as [[u|e] s1]; exact H.
Qed.

Lemma through_try_except_finally {S A} (pi : S -> World)
    (body : ST S A) (handler : exn -> ST S A) (cleanup : ST S unit) :
  through pi R (try_except body handler) -> through pi R cleanup ->
  through pi R (try_except_finally body handler cleanup).
Proof.
  intros Hb Hc s. specialize (Hb s). unfold try_except_finally.
  destruct (try_except body handler s) as [r s1]. simpl in Hb.
  specialize (Hc s1). destruct (cleanup s1) as [[u|e] s2]; simpl in *;
    eapply Rtrans; eauto.
Qed.

Lemma through_for_each {S A} (pi : S -> World) (xs : list A) (body : A -> ST S unit) :
  (forall x, x ∈ xs -> through pi R (body x)) -> through pi R (for_each xs body).
Proof.
  induction xs as [|x xs IH]; intros Hb; simpl; [apply (through_ret pi R Rrefl)|].
  apply (through_bind pi R Rtrans).
  - apply Hb. constructor.
  - intros _. apply IH. intros y Hy. apply Hb. now constructor.
Qed.

(** [wipe_file], given its two methods. *)
Lemma through_wipe_file path method cb :
  through id R (clear_method path cb) ->
  through id R (purge_method path 7 cb) ->
  through id R (wipe_file path method cb).
Proof.
  intros Hclear Hpurge. unfold wipe_file.
  apply (through_bind id R Rtrans);
    [apply (through_steady R Rfs), steady_datetime_now|].
  intros start_time. apply through_returning_result.
  apply through_try_except_finally; [|apply through_stamp_end].
  assert (Hfinish : forall success : bool,
            through snd R
              (setitem "success" (JBool success);;
               (if success
                then verified ← liftW (verify_wipe path);
                     setitem "verified" (JBool verified)
                else mret tt))).
  { intros success. apply (through_bind snd R Rtrans); [apply through_setitem|].
    intros _. destruct success; [|apply (through_ret snd R Rrefl)].
    apply (through_bind snd R Rtrans); [|intros ?; apply through_setitem].
    apply through_liftW, (through_steady R Rfs), steady_verify_wipe. }
  apply (through_try_except snd R Rtrans); [|intros e; apply through_setitem].
  apply (through_bind snd R Rtrans);
    [apply through_liftW, (through_steady R Rfs), steady_path_exists|].
  intros present. apply through_if; [apply through_setitem|].
  apply (through_bind snd R Rtrans); [apply through_liftW, through_get_cancel; auto|].
  intros cancelled. apply through_if; [apply through_setitem|].
  apply (through_bind snd R Rtrans);
    [apply through_liftW, (through_steady R Rfs), steady_path_stat_size|].
  intros file_size. cbv zeta.
  apply through_if; [|apply through_if; [|apply through_setitem]].
  - apply (through_bind snd R Rtrans); [apply through_liftW, Hclear | exact Hfinish].
  - apply (through_bind snd R Rtrans); [apply through_liftW, Hpurge | exact Hfinish].
Qed.

End GenericLocal.

End ConfineFacts.

(** ** Success means the name is gone *)

Module NameFacts.

Import NISTAlgorithms WipingEngine SuccessFacts ConfineFacts.






Section Ends.
Context (path : string).

Let Q := removed path.
Let R := same_names.










End Ends.

(** *** Triples *)

Section Triple.
Context {S : Type}.

Lemma triple_ret {A} (P : S -> Prop) (a : A) (Q : A -> S -> Prop) E :
  (forall s, P s -> Q a s) -> triple P (mret a) Q E.
Proof. intros H s Hs. apply H, Hs. Qed.




End Triple.


Section Verdict.
Context (path : string) (w0 : World).

Let I := verdict path w0.

Lemma verdict_steady d w w' : I (d, w) -> steady w w' -> I (d, w').
Proof.
  intros [[H1 [H2 H3]] | [H1 H2]] (E & _); [left | right]; (split; [exact H1|]);
    unfold removed, same_names in *; simpl in *; rewrite E; auto.
Qed.







End Verdict.


End NameFacts.

(** ** What the validator answers *)

Module ValidationFacts.

Import Platforms Validator DirFacts SuccessFacts ConfineFacts.

(** A query either faults or answers from the file system, one tick
    later. *)
Lemma query_cases {A} (f : gmap string node -> A) w :
  syscall (fun w => (Ok (f (fs w)), w)) w
    = (Raise (OSError "Input/output error"), tick w) \/
  syscall (fun w => (Ok (f (fs w)), w)) w = (Ok (f (fs w)), tick w).
Proof. unfold syscall. destruct (faults w (ticks w)); auto. Qed.

Lemma os_access_cases p want w :
  exists b, os_access p want w = (Ok b, tick w) /\
    (b = true -> exists k nd, lookup_path (fs w) p = Some (k, nd) /\
                              want (node_mode nd) = true).
Proof.
  unfold os_access. destruct (faults w (ticks w)); [exists false; split; [auto|discriminate]|].
  destruct (lookup_path (fs w) p) as [[k nd]|];
    [|exists false; split; [auto|discriminate]].
  exists (want (node_mode nd)). split; [reflexivity|]. eauto.
Qed.

Ltac run_query H :=
  first [ erewrite bind_run by (apply liftW_run; exact H)
        | erewrite bind_raise by (apply liftW_run; exact H) ].

Ltac run_set := erewrite bind_run by apply setitem_run.

(** Closes a branch that ends with one error. *)
Ltac one_error :=
  ml_run; eexists _, _; (split; [reflexivity|]); cbn [fst snd];
  split;
  [ right; (split; [solve_lookup|]); (split; [solve_lookup|]); eexists; solve_lookup
  | first [ discriminate | intros _; solve_lookup ] ].

(** What the test of [validate_path] on the characters lets through. *)
Lemma accepted_character_spec c :
  (nat_of_ascii c =? 0)%nat || is_control c = false <-> accepted_character c.
Proof.
  unfold accepted_character, is_control.
  destruct (Nat.eqb_spec (nat_of_ascii c) 0) as [E0|E0],
    (Nat.ltb_spec (nat_of_ascii c) 32) as [E1|E1],
    (Nat.eqb_spec (nat_of_ascii c) 9) as [E2|E2],
    (Nat.eqb_spec (nat_of_ascii c) 10) as [E3|E3],
    (Nat.eqb_spec (nat_of_ascii c) 13) as [E4|E4]; cbn [andb orb negb];
    (split; [try discriminate; intros _; lia | try reflexivity; lia]).
Qed.

Lemma has_invalid_characters_spec path :
  has_invalid_characters path = false <->
  Forall accepted_character (list_ascii_of_string path).
Proof.
  unfold has_invalid_characters.
  induction (list_ascii_of_string path) as [|c l IH]; [simpl; split; auto|].
  cbn [existsb]. rewrite Forall_cons, <- IH, <- accepted_character_spec. clear IH.
  destruct (nat_of_ascii c =? 0)%nat, (is_control c), (existsb _ l),
    (existsb is_control l); cbn [orb]; split; try tauto; try discriminate;
    intros [? ?]; discriminate.
Qed.

(** [validate_path] answers [valid] only for a path whose
    characters all pass its test (the space and everything after it,
    tab, line feed and carriage return), and then reports no error, the
    type [file] or [directory], and [exists] and [accessible] set.
    Otherwise it gives exactly one error, and [accessible] is unset.  A
    path with another character is answered with the error on its
    characters. *)
Theorem validate_path_verdict (path : string) (w : World) :
  exists d w', validate_path path w = (Ok d, w') /\
    ((d !! "valid" = Some (JBool true) /\ d !! "errors" = Some (JList []) /\
      d !! "exists" = Some (JBool true) /\ d !! "accessible" = Some (JBool true) /\
      Forall accepted_character (list_ascii_of_string path) /\
      (d !! "type" = Some (JStr "file") \/ d !! "type" = Some (JStr "directory")))
     \/
     (d !! "valid" = Some (JBool false) /\ d !! "accessible" = Some (JBool false) /\
      exists msg, d !! "errors" = Some (JList [JStr msg]))) /\
    (has_invalid_characters path = true ->
     d !! "errors" = Some (JList [JStr "Path contains invalid characters"])).
Proof.
  unfold validate_path, returning_result, try_except.
  destruct (has_invalid_characters path) eqn:Hinv; [one_error|].
  apply has_invalid_characters_spec in Hinv.
  destruct (query_cases (fun m => exists_in m path) w) as [H | H];
    fold (path_exists path) in H; run_query H; [one_error|].
  destruct (exists_in (fs w) path) eqn:Hex; cbn [negb]; [|one_error].
  run_set. cbv zeta.
  destruct (query_cases (fun m => is_file_in m path) (tick w)) as [H1 | H1];
    fold (path_is_file path) in H1; run_query H1; [one_error|].
  cbn [fs tick] in *. destruct (is_file_in (fs w) path) eqn:Hfile.
  - run_set.
    destruct (os_access_cases path r_ok (tick (tick w))) as (b & H2 & Hb).
    run_query H2. destruct b; cbn [negb]; [|one_error].
    ml_run. eexists _, _. split; [reflexivity|]. cbn [fst snd].
    split; [|discriminate]. left.
    do 4 (split; [solve_lookup|]). split; [exact Hinv|].
    left. solve_lookup.
  - destruct (query_cases (fun m => is_dir_in m path) (tick (tick w))) as [H2 | H2];
      fold (path_is_dir path) in H2; run_query H2; [one_error|].
    cbn [fs tick] in *. destruct (is_dir_in (fs w) path) eqn:Hdir.
    + run_set.
      destruct (os_access_cases path r_ok (tick (tick (tick w)))) as (b & H3 & Hb).
      run_query H3. destruct b; cbn [negb]; [|one_error].
      ml_run. eexists _, _. split; [reflexivity|]. cbn [fst snd].
      split; [|discriminate]. left.
      do 4 (split; [solve_lookup|]). split; [exact Hinv|].
      right. solve_lookup.
    + destruct (query_cases (fun m => is_symlink_in m path) (tick (tick (tick w))))
        as [H3 | H3];
        fold (path_is_symlink path) in H3; run_query H3; [one_error|].
      destruct (is_symlink_in _ path); run_set; one_error.
Qed.




(** *** Sorting a selection *)






(** *** Validation only reads *)

Lemma untouched_path_is_symlink p w : untouched w (path_is_symlink p w).2.
Proof.
  apply untouched_syscall. intros w1. apply untouched_refl.
Qed.

Lemma untouched_os_access p want w : untouched w (os_access p want w).2.
Proof.
  unfold os_access. destruct (faults w (ticks w)); [apply untouched_tick|].
  destruct (lookup_path (fs w) p) as [[]|]; apply untouched_tick.
Qed.

Lemma reads_getitem key : through snd untouched (getitem key).
Proof. intros s. unfold getitem. destruct (s.1 !! key); apply untouched_refl. Qed.

Lemma reads_len_item key : through snd untouched (len_item key).
Proof.
  unfold len_item. apply (through_bind snd untouched untouched_trans);
    [apply reads_getitem|].
  intros []; first [ apply (through_ret snd untouched untouched_refl)
                   | apply (through_raise snd untouched untouched_refl) ].
Qed.

Ltac reads_auto :=
  repeat first
    [ apply (through_ret snd untouched untouched_refl)
    | apply (through_raise snd untouched untouched_refl)
    | apply (through_setitem untouched untouched_refl)
    | apply (through_append_item untouched untouched_refl)
    | apply reads_getitem | apply reads_len_item
    | apply (through_dict_getitem untouched untouched_refl)
    | apply through_liftW; intros ?;
      first [ apply untouched_path_exists | apply untouched_path_is_file
            | apply untouched_path_is_dir | apply untouched_path_is_symlink
            | apply untouched_os_access ]
    | apply (through_bind snd untouched untouched_trans); [|intros ?]
    | apply (through_try_except snd untouched untouched_trans); [|intros ?]
    | apply through_if
    | match goal with
      | |- through _ _ (match ?x with _ => _ end) => destruct x
      | |- through _ _ (let _ := _ in _) => cbv zeta
      end ].

Lemma reads_returning_result init (body : ML unit) :
  through snd untouched body -> through id untouched (returning_result init body).
Proof.
  intros H w. specialize (H (init, w)). unfold returning_result, id. simpl in *.
  destruct (body (init, w)) as [[u|e] s1]; exact H.
Qed.

Lemma reads_validate_path path : through id untouched (validate_path path).
Proof. unfold validate_path. apply reads_returning_result. reads_auto. Qed.

Lemma reads_validate_permissions path :
  through id untouched (validate_permissions path).
Proof. unfold validate_permissions. apply reads_returning_result. reads_auto. Qed.

Lemma reads_check_file handler p : through snd untouched (check_file handler p).
Proof.
  unfold check_file.
  apply (through_bind snd untouched untouched_trans);
    [apply through_liftW, reads_validate_path|].
  intros path_result. apply (through_bind snd untouched untouched_trans);
    [reads_auto|].
  intros valid. apply through_if; [reads_auto|]. apply through_if; [reads_auto|].
  apply (through_bind snd untouched untouched_trans);
    [apply through_liftW, reads_validate_permissions|].
  intros perm_result. reads_auto.
Qed.

(** The validator only looks: [validate_path], [validate_permissions] and
    [validate_selection] leave the file system, the trace and the
    cancellation flag as they found them. *)
Theorem validation_only_reads (path : string) (file_list : list string)
    (platform_handler : option platform_handler) (w : World) :
  untouched w (validate_path path w).2 /\
  untouched w (validate_permissions path w).2 /\
  untouched w (validate_selection file_list platform_handler w).2.
Proof.
  split; [apply reads_validate_path|]. split; [apply reads_validate_permissions|].
  unfold validate_selection. apply reads_returning_result.
  destruct file_list as [|p rest]; [reads_auto|].
  apply (through_bind snd untouched untouched_trans).
  { apply (through_for_each untouched untouched_refl untouched_trans).
    intros x _. apply reads_check_file. }
  intros _. reads_auto.
Qed.

End ValidationFacts.

(** ** The spelling of the method *)

Module MethodFacts.

Import Validator WipingEngine DirFacts ValidationFacts.

Lemma path_stat_size_cases p w :
  exists r, path_stat_size p w = (r, tick w) /\
    (faults w (ticks w) = false -> exists_in (fs w) p = true ->
     exists n, r = Ok n).
Proof.
  unfold path_stat_size, syscall, st_size, exists_in.
  destruct (faults w (ticks w)); [eexists; split; [reflexivity|discriminate]|].
  cbn [fs tick]. destruct (lookup_path (fs w) p) as [[k []]|];
    (eexists; split; [reflexivity|]; intros _ H; first [discriminate H | eauto]).
Qed.

(** [validate_wipe_method] accepts any capitalisation of the two method
    names, [wipe_file] only the lower-case ones: with an accepted method
    in another spelling it wipes nothing and reports a failure, the
    error being the unknown method when it gets as far as the choice of
    the method. *)
Theorem wipe_file_rejects_other_spellings (path method : string)
    (cb : option callback) (w : World) :
  validate_wipe_method method = true -> method <> lower method ->
  let run := wipe_file path method cb w in
  returned run "success" = Some (JBool false) /\
  fs run.2 = fs w /\ trace run.2 = trace w /\
  (faults w (S (ticks w)) = false -> faults w (S (S (ticks w))) = false ->
   exists_in (fs w) path = true -> cancel_requested w = false ->
   returned run "error" = Some (JStr ("Unknown method: " ++ method))).
Proof.
  intros Hvalid Hspell.
  assert (Hclear : String.eqb method "clear" = false).
  { apply String.eqb_neq. intros ->. now apply Hspell. }
  assert (Hpurge : String.eqb method "purge" = false).
  { apply String.eqb_neq. intros ->. now apply Hspell. }
  clear Hvalid Hspell. cbv zeta. unfold wipe_file.
  erewrite bind_run by reflexivity.
  unfold returning_result, try_except_finally, try_except.
  destruct (query_cases (fun m => exists_in m path) (tick w)) as [H | H];
    fold (path_exists path) in H; run_query H.
  { rewrite setitem_run, BatchFacts.stamp_end_run. unfold returned. cbn [fst snd].
    split; [solve_lookup|]. split; [reflexivity|]. split; [reflexivity|].
    intros Hf. unfold path_exists, syscall in H. cbn [ticks tick faults] in H.
    rewrite Hf in H. discriminate. }
  cbn [fs tick]. destruct (exists_in (fs w) path) eqn:Hex; cbn [negb].
  2:{ rewrite setitem_run, BatchFacts.stamp_end_run. unfold returned. cbn [fst snd].
      split; [solve_lookup|]. split; [reflexivity|]. split; [reflexivity|].
      discriminate. }
  erewrite bind_run by (apply liftW_run; reflexivity).
  cbn [cancel_requested tick].
  destruct (cancel_requested w) eqn:Hc.
  { rewrite setitem_run, BatchFacts.stamp_end_run. unfold returned. cbn [fst snd].
    split; [solve_lookup|]. split; [reflexivity|]. split; [reflexivity|].
    discriminate. }
  destruct (path_stat_size_cases path (tick (tick w))) as (r & Hr & Hok).
  destruct r as [n|e].
  - run_query Hr. cbv zeta. rewrite Hclear, Hpurge.
    rewrite setitem_run, BatchFacts.stamp_end_run. unfold returned. cbn [fst snd].
    split; [solve_lookup|]. split; [reflexivity|]. split; [reflexivity|].
    intros _ _ _ _. solve_lookup.
  - run_query Hr.
    rewrite setitem_run, BatchFacts.stamp_end_run. unfold returned. cbn [fst snd].
    split; [solve_lookup|]. split; [reflexivity|]. split; [reflexivity|].
    intros _ Hf _ _. destruct (Hok Hf Hex) as [n Hn]. discriminate.
Qed.

End MethodFacts.

(** ** Certificates of a manager that holds its keys *)

Module RoundTripFacts.

Import CertificateManager CertificateFacts.

(** *** [bytes.fromhex] undoes [bytes.hex] *)

Lemma hex_digit_value x :
  (x < 16)%nat ->
  is_ascii_space (hex_digit x) = false /\ hex_value (hex_digit x) = Some x.
Proof.
  intros H. do 16 (destruct x as [|x]; [split; vm_compute; reflexivity|]). lia.
Qed.

Lemma fromhex_hex bs :
  fromhex_chars (list_ascii_of_string (bytes_hex bs)) = Some bs.
Proof.
  induction bs as [|b bs IH]; [reflexivity|].
  cbn [bytes_hex list_ascii_of_string fromhex_chars].
  set (n := nat_of_ascii (ascii_of_byte b)).
  assert (Hn : (n < 256)%nat) by apply nat_ascii_bounded.
  assert (Hhi : (n / 16 < 16)%nat) by (apply Nat.Div0.div_lt_upper_bound; lia).
  assert (Hlo : (n mod 16 < 16)%nat) by (apply Nat.mod_upper_bound; lia).
  destruct (hex_digit_value _ Hhi) as [-> ->].
  destruct (hex_digit_value _ Hlo) as [_ ->].
  rewrite IH. do 2 f_equal.
  rewrite <- (Nat.div_mod_eq n 16). unfold n.
  now rewrite ascii_nat_embedding, byte_of_ascii_of_byte.
Qed.

Section WithLibrary.
Context (lib : Library).

Lemma file_entries_listed files : forall s l s1,
  file_entries lib files s = (Ok l, s1) ->
  exists results, files = JDict <$> results /\ l = listed <$> results.
Proof.
  induction files as [|x files IH]; intros s l s1 H; simpl in H.
  - inversion H. now exists [].
  - destruct x as [| | | | | |file_result]; try discriminate.
    apply bind_ok in H as (entries & s2 & H1 & H2).
    apply IH in H1 as (results & -> & ->).
    unfold_monad in H2. inversion H2; subst.
    now exists (file_result :: results).
Qed.

(** The file a successful [generate_wipe_certificate] leaves: the signed
    mapping, with the signature and the public key added to it. *)
Lemma generate_wipe_certificate_doc operation_results output_path s p s1 :
  generate_wipe_certificate lib operation_results output_path s = (Ok p, s1) ->
  exists cert_data signature files s_sign s_signed s_files,
    docs lib s1 !! p =
      Some (JDict (<["public_key" :=
                       JStr (match certificate lib s with
                             | None => ""
                             | Some public_key => public_bytes_pem lib public_key
                             end)]>
                   (<["signature" := JStr signature]> cert_data))) /\
    cert_data !! "signature" = None /\ cert_data !! "public_key" = None /\
    cert_data !! "files" = Some (JList files) /\
    sliced_files lib (dict_get operation_results "files" (JList [])) s_files
      = (Ok files, s_files) /\
    same_manager lib s s_sign /\
    sign_deletion_log lib cert_data s_sign = (Ok signature, s_signed).
Proof.
  intros H. unfold generate_wipe_certificate, try_except in H.
  match type of H with context [match ?m s with _ => _ end] =>
    destruct (m s) as [[r|e] sz] eqn:Hbody end; [|discriminate].
  inversion H; subst r sz; clear H.
  apply bind_ok in Hbody as (certificate_id & s2 & H1 & Hbody).
  apply generate_certificate_id_ok in H1.
  apply bind_ok in Hbody as (timestamp & s3 & H2 & Hbody).
  apply now_ok in H2.
  apply bind_ok in Hbody as (method_description & s4 & H3 & Hbody).
  apply get_method_description_ok in H3. subst s4.
  apply bind_ok in Hbody as (files & s4 & H4 & Hbody).
  pose proof (sliced_files_ok _ _ _ _ _ H4). subst s4.
  cbv zeta in Hbody.
  apply bind_ok in Hbody as (signature & s4 & H5 & Hbody).
  pose proof (sign_deletion_log_ok _ _ _ _ _ H5) as [H5m _].
  apply bind_ok in Hbody as (public_key & s5 & H6 & Hbody).
  assert (Hm : same_manager lib s s4).
  { eapply same_manager_trans; [exact H1|].
    eapply same_manager_trans; [exact H2 | exact H5m]. }
  assert (Hpem : public_key = match certificate lib s with
                              | None => ""
                              | Some pk => public_bytes_pem lib pk
                              end /\ s5 = s4).
  { unfold _get_public_key_pem in H6. destruct Hm as [_ Hc]. rewrite Hc in H6.
    destruct (certificate lib s); now inversion H6. }
  destruct Hpem as [-> ->].
  apply bind_ok in Hbody as (path & s6 & H7 & Hbody).
  apply bind_ok in Hbody as (u & s7 & H8 & Hbody).
  unfold_monad in Hbody. inversion Hbody; subst; clear Hbody.
  unfold write_json in H8.
  destruct (c_faults lib s6 (c_ticks lib s6)); [discriminate|].
  inversion H8; subst; clear H8. simpl.
  eexists _, signature, files, s3, s4, s3.
  split; [apply lookup_insert_eq|].
  split; [rewrite !lookup_insert_ne by discriminate; apply lookup_empty|].
  split; [rewrite !lookup_insert_ne by discriminate; apply lookup_empty|].
  split; [rewrite !lookup_insert_ne by discriminate; apply lookup_insert_eq|].
  split; [exact H4|].
  split; [eapply same_manager_trans; [exact H1 | exact H2] | exact H5].
Qed.

End WithLibrary.

(** A manager that holds a private key and the matching public key, with
    a library that signs well, accepts every certificate it has
    generated, when the file can be read back. *)
Theorem keyed_certificate_round_trip (lib : Library) (key : private_key_t lib)
    (operation_results : dict) (output_path : option string)
    (s s1 : State lib) (p : string) :
  signs_well lib key ->
  private_key lib s = Some key ->
  certificate lib s = Some (public_key_of lib key) ->
  generate_wipe_certificate lib operation_results output_path s = (Ok p, s1) ->
  c_faults lib s1 (c_ticks lib s1) = false ->
  (verify_certificate lib p s1).1 = Ok true.
Proof.
  intros (Hsign & Hload & Hpem) Hkey Hcert Hgen Hread.
  apply generate_wipe_certificate_doc in Hgen
    as (cert_data & signature & files & s_sign & s_signed & s_files &
        Hdoc & Hns & Hnp & _ & _ & [Hk _] & Hsig).
  rewrite Hcert in Hdoc.
  unfold sign_deletion_log, try_except in Hsig. rewrite Hk, Hkey in Hsig.
  destruct (Hsign (c_ticks lib s_sign) (json_dumps_sorted lib (JDict cert_data)))
    as (sg & Hs & Hne & Hver).
  rewrite Hs in Hsig. inversion Hsig; subst signature s_signed; clear Hsig.
  unfold verify_certificate, try_except, read_json. unfold_monad.
  rewrite Hread, Hdoc. unfold dict_get at 1.
  rewrite lookup_insert_ne by discriminate. rewrite lookup_insert_eq.
  unfold bytes_fromhex. rewrite fromhex_hex. unfold_monad.
  cbv zeta. unfold dict_get.
  rewrite lookup_delete_ne by discriminate. rewrite lookup_insert_eq.
  assert (Hdel : delete "public_key"
                   (delete "signature"
                      (<["public_key" := JStr (public_bytes_pem lib (public_key_of lib key))]>
                         (<["signature" := JStr (bytes_hex sg)]> cert_data)))
                 = cert_data).
  { rewrite delete_insert_ne by discriminate.
    rewrite delete_insert_eq. rewrite delete_insert_eq.
    rewrite (delete_id cert_data "signature") by exact Hns.
    apply delete_id, Hnp. }
  rewrite Hdel.
  destruct sg as [|b sg]; [contradiction|]. cbn [orb truthy].
  destruct (String.eqb_spec (public_bytes_pem lib (public_key_of lib key)) "")
    as [E | _]; [contradiction|].
  cbn [negb]. rewrite Hload. simpl. now rewrite Hver.
Qed.

(** The certificate lists the first 1000 files of the operation
    and no other: the first 1000 entries of its [files] are dicts, and
    the [files] of the certificate are their entries, in the same order,
    each with the [path], [success] and [verified] read from the dict. *)
Theorem certificate_lists_the_first_1000_files (lib : Library)
    (operation_results : dict) (output_path : option string)
    (s s1 : State lib) (p : string) (l : list json) :
  operation_results !! "files" = Some (JList l) ->
  generate_wipe_certificate lib operation_results output_path s = (Ok p, s1) ->
  exists cert_data results,
    docs lib s1 !! p = Some (JDict cert_data) /\
    take 1000 l = JDict <$> results /\
    cert_data !! "files" = Some (JList (listed <$> results)) /\
    length results = Nat.min 1000 (length l).
Proof.
  intros Hfiles Hgen.
  apply generate_wipe_certificate_doc in Hgen
    as (cert_data & signature & files & s_sign & s_signed & s_files &
        Hdoc & _ & _ & Hf & Hsl & _).
  unfold dict_get in Hsl. rewrite Hfiles in Hsl. unfold sliced_files in Hsl.
  apply file_entries_listed in Hsl as (results & Htake & ->).
  eexists _, results. split; [exact Hdoc|]. split; [exact Htake|].
  split; [rewrite !lookup_insert_ne by discriminate; exact Hf|].
  rewrite <- (length_fmap JDict results), <- Htake. apply length_take.
Qed.

End RoundTripFacts.

(** ** Clearing through a link *)

Module LinkFacts.

Import NISTAlgorithms WipingEngine SuccessFacts.


Section Clear.
Context (path key : string) (data : list Byte.byte) (md : perms)
  (cb : option callback)
  (Hcb : cb = None \/ cb = Some record_progress)
  (Hr : r_ok md = true) (Hw : w_ok md = true).

Let size := Z.of_nat (length data).


End Clear.


End LinkFacts.

(** ** The helpers *)

Module HelperFacts.

Import Helpers.

(** *** [chunks] *)

Lemma concat_slices {A} (lst : list A) (n : nat) : forall k,
  concat (map (fun j => take n (drop (j * n) lst)) (seq 0 k)) = take (k * n) lst.
Proof.
  induction k as [|k IH]; [reflexivity|].
  rewrite seq_S, map_app, concat_app, IH. simpl. rewrite app_nil_r.
  rewrite take_take_drop. f_equal. lia.
Qed.

(** With a positive size, the chunks are not empty, none is longer than
    the size, and put end to end they give the list back.  A size of
    zero raises, and a negative size yields no chunk at all. *)
Theorem chunks_rebuild_the_list {A} (lst : list A) (n : Z) :
  (n = 0 -> exists msg, chunks lst n = Raise (ValueError msg)) /\
  (n < 0 -> chunks lst n = Ok []) /\
  (0 < n ->
   exists cs, chunks lst n = Ok cs /\
     concat cs = lst /\
     Forall (fun c => (0 < length c <= Z.to_nat n)%nat) cs /\
     Z.of_nat (length cs) = (Z.of_nat (length lst) + n - 1) / n).
Proof.
  split; [intros ->; eexists; reflexivity|]. split.
  { intros Hn. unfold chunks, range_from_0.
    replace (n =? 0) with false by (symmetry; apply Z.eqb_neq; lia).
    replace (0 <? n) with false by (symmetry; apply Z.ltb_ge; lia). reflexivity. }
  intros Hn. unfold chunks, range_from_0.
  replace (n =? 0) with false by (symmetry; apply Z.eqb_neq; lia).
  replace (0 <? n) with true by (symmetry; apply Z.ltb_lt; lia).
  set (len := Z.of_nat (length lst)).
  set (k := Z.to_nat ((len + n - 1) / n)).
  assert (Hk : Z.of_nat k = (len + n - 1) / n).
  { unfold k. rewrite Z2Nat.id; [reflexivity|]. apply Z.div_pos; unfold len; lia. }
  eexists. split; [reflexivity|].
  assert (Hmap : map (fun i => slice lst i (i + n)) (map (fun j => Z.of_nat j * n) (seq 0 k))
                 = map (fun j => take (Z.to_nat n) (drop (j * Z.to_nat n) lst)) (seq 0 k)).
  { rewrite map_map. apply map_ext. intros j. unfold slice.
    rewrite Z2Nat.inj_add by lia. rewrite Z2Nat.inj_mul by lia. rewrite Nat2Z.id.
    f_equal. lia. }
  rewrite Hmap. split; [|split].
  - rewrite concat_slices. apply take_ge.
    assert (len <= Z.of_nat k * n) by (rewrite Hk; nia).
    unfold len in *. nia.
  - apply Forall_forall. intros c Hc. apply list_elem_of_In in Hc.
    apply in_map_iff in Hc as (j & <- & Hj). apply in_seq in Hj.
    rewrite length_take, length_drop.
    assert (Z.of_nat j * n < len).
    { assert (Z.of_nat j <= Z.of_nat k - 1) by lia. rewrite Hk in *. nia. }
    unfold len in *. nia.
  - now rewrite length_map, length_seq.
Qed.

(** *** [sanitize_path] *)

Lemma replace_char_filter old s :
  replace_char old [] s = List.filter (fun c => negb (c =? old)%N) s.
Proof.
  induction s as [|c s IH]; [reflexivity|]. simpl.
  destruct (c =? old)%N; simpl; now rewrite IH.
Qed.

Lemma replace_char_map old new s :
  replace_char old [new] s = map (fun c => if (c =? old)%N then new else c) s.
Proof.
  induction s as [|c s IH]; [reflexivity|]. simpl.
  destruct (c =? old)%N; simpl; now rewrite IH.
Qed.

Lemma remove_controls_clean s :
  Forall (fun c => is_control c = false) (remove_controls s).
Proof.
  apply Forall_forall. intros c Hc. apply list_elem_of_In in Hc.
  apply filter_In in Hc as [_ Hc]. now apply negb_true_iff in Hc.
Qed.

Lemma remove_controls_id s :
  Forall (fun c => is_control c = false) s -> remove_controls s = s.
Proof.
  induction 1 as [|c s Hc _ IH]; [reflexivity|]. unfold remove_controls in *.
  simpl. rewrite Hc. simpl. now rewrite IH.
Qed.

Lemma squeeze_slashes_elem b s c :
  c ∈ squeeze_slashes b s -> c ∈ s.
Proof.
  revert b. induction s as [|x s IH]; intros b H; simpl in H; [exact H|].
  destruct (x =? 47)%N eqn:E.
  - apply N.eqb_eq in E. subst x. destruct b.
    + right. eapply IH, H.
    + apply elem_of_cons in H as [-> | H]; [left | right; eapply IH, H].
  - apply elem_of_cons in H as [-> | H]; [left | right; eapply IH, H].
Qed.

Lemma squeeze_slashes_head s :
  match squeeze_slashes true s with
  | c :: _ => c <> 47%N
  | [] => True
  end.
Proof.
  induction s as [|x s IH]; simpl; [exact I|].
  destruct (x =? 47)%N eqn:E; [exact IH|]. now apply N.eqb_neq in E.
Qed.

Lemma squeeze_slashes_single b s : single_slashes (squeeze_slashes b s).
Proof.
  revert b. induction s as [|x s IH]; intros b; simpl; [exact I|].
  destruct (x =? 47)%N eqn:E.
  - destruct b; [apply IH|]. simpl. split; [|apply IH].
    pose proof (squeeze_slashes_head s) as Hh.
    destruct (squeeze_slashes true s); [exact I|]. intros [_ ->]. now apply Hh.
  - apply N.eqb_neq in E. simpl. split; [|apply IH].
    destruct (squeeze_slashes false s); [exact I|]. intros [-> _]. now apply E.
Qed.

Lemma squeeze_slashes_id s : forall b,
  single_slashes s ->
  (b = true -> match s with c :: _ => c <> 47%N | [] => True end) ->
  squeeze_slashes b s = s.
Proof.
  induction s as [|x s IH]; intros b Hs Hb; [reflexivity|]. simpl.
  destruct Hs as [Hx Hs]. destruct (x =? 47)%N eqn:E.
  - apply N.eqb_eq in E. subst x. destruct b; [exfalso; now apply Hb|].
    f_equal. apply IH; [exact Hs|]. intros _.
    destruct s as [|y s]; [exact I|]. intros ->. now apply Hx.
  - f_equal. apply IH; [exact Hs|]. discriminate.
Qed.

(** The result of [sanitize_path] holds no control character (so no
    NUL), no backslash and no two slashes in a row; and sanitizing it
    again changes nothing. *)
Theorem sanitize_path_is_clean (path : ustr) :
  let clean := sanitize_path path in
  Forall (fun c => is_control c = false /\ c <> 92%N) clean /\
  single_slashes clean /\
  sanitize_path clean = clean.
Proof.
  cbv zeta.
  assert (Hclean : Forall (fun c => is_control c = false /\ c <> 92%N)
                     (sanitize_path path)).
  { apply Forall_forall. intros c Hc. unfold sanitize_path in Hc.
    apply squeeze_slashes_elem in Hc. rewrite replace_char_map in Hc.
    apply list_elem_of_fmap in Hc as (x & -> & Hx).
    pose proof (remove_controls_clean (replace_char 0 [] path)) as Hall.
    rewrite Forall_forall in Hall. specialize (Hall x Hx).
    destruct (x =? 92)%N eqn:E; [split; [reflexivity | discriminate]|].
    apply N.eqb_neq in E. auto. }
  split; [exact Hclean|]. split; [apply squeeze_slashes_single|].
  set (clean := sanitize_path path) in *. unfold sanitize_path at 1.
  assert (H0 : replace_char 0 [] clean = clean).
  { rewrite replace_char_filter. apply forallb_filter_id.
    apply forallb_forall. intros c Hc. rewrite Forall_forall in Hclean.
    destruct (Hclean c) as [Hctl _]; [now apply list_elem_of_In|].
    apply negb_true_iff, N.eqb_neq. intros ->. discriminate. }
  rewrite H0.
  rewrite remove_controls_id by (eapply Forall_impl; [exact Hclean | now intros c [? _]]).
  assert (H92 : replace_char 92 [47%N] clean = clean).
  { rewrite replace_char_map. rewrite <- (map_id clean) at 2. apply map_ext_in.
    intros c Hc. rewrite Forall_forall in Hclean.
    destruct (Hclean c) as [_ Hne]; [now apply list_elem_of_In|].
    apply N.eqb_neq in Hne. now rewrite Hne. }
  rewrite H92. apply squeeze_slashes_id; [apply squeeze_slashes_single | discriminate].
Qed.

(** *** [get_safe_filename] *)

Lemma lstrip_Forall (P : N -> Prop) chars s :
  Forall P s -> Forall P (lstrip chars s).
Proof.
  induction 1 as [|c s Hc Hs IH]; [constructor|]. simpl.
  destruct (existsb (N.eqb c) chars); [exact IH | now constructor].
Qed.

Lemma rev_Forall (P : N -> Prop) s : Forall P s -> Forall P (rev s).
Proof.
  rewrite !Forall_forall. intros H c Hc. apply H.
  apply list_elem_of_In. apply list_elem_of_In in Hc. now apply in_rev.
Qed.

Lemma strip_Forall (P : N -> Prop) chars s :
  Forall P s -> Forall P (strip chars s).
Proof.
  intros H. unfold strip.
  apply rev_Forall, lstrip_Forall, rev_Forall, lstrip_Forall, H.
Qed.

(** The result of [get_safe_filename] is never empty, has at most 255
    characters, and holds none of the characters the function replaces
    or removes. *)
Theorem safe_filename_is_safe (filename : ustr) :
  let safe := get_safe_filename filename in
  safe <> [] /\ (length safe <= 255)%nat /\
  Forall (fun c => is_unsafe c = false /\ is_control c = false) safe.
Proof.
  cbv zeta. unfold get_safe_filename.
  set (mapped := map (fun c => if is_unsafe c then 95%N else c) filename).
  set (stripped := strip (literal ". ") (remove_controls mapped)).
  assert (Hs : Forall (fun c => is_unsafe c = false /\ is_control c = false) stripped).
  { apply strip_Forall.
    apply Forall_forall. intros c Hc. apply list_elem_of_In in Hc.
    apply filter_In in Hc as [Hc Hctl]. apply negb_true_iff in Hctl.
    split; [|exact Hctl]. unfold mapped in Hc.
    apply in_map_iff in Hc as (x & <- & _).
    destruct (is_unsafe x) eqn:E; [reflexivity | exact E]. }
  set (named := if stripped is [] then literal "unnamed" else stripped).
  assert (Hn : named <> [] /\
               Forall (fun c => is_unsafe c = false /\ is_control c = false) named).
  { unfold named. destruct stripped; [|split; [discriminate | exact Hs]].
    split; [discriminate|]. repeat constructor. }
  destruct Hn as [Hne Hall].
  destruct (255 <? length named)%nat eqn:Hlen.
  - apply Nat.ltb_lt in Hlen. split; [|split].
    + destruct named; [contradiction | discriminate].
    + rewrite length_take. lia.
    + now apply Forall_take.
  - apply Nat.ltb_ge in Hlen. auto.
Qed.

End HelperFacts.

(** ** The permission string *)

Module PermissionFacts.

Import Platforms.

Lemma land_pow2_zero a k :
  0 <= k -> (Z.land a (2 ^ k) =? 0) = negb (Z.testbit a k).
Proof.
  intros Hk. destruct (Z.testbit a k) eqn:Hb; simpl.
  - apply Z.eqb_neq. intros H0.
    assert (Hbit : Z.testbit (Z.land a (2 ^ k)) k = true).
    { rewrite Z.land_spec, Hb, Z.pow2_bits_true; [reflexivity | exact Hk]. }
    rewrite H0, Z.bits_0 in Hbit. discriminate.
  - apply Z.eqb_eq. apply Z.bits_inj'. intros n Hn.
    rewrite Z.land_spec, Z.bits_0.
    destruct (Z.eq_dec k n) as [<- | Hne]; [now rewrite Hb|].
    rewrite Z.pow2_bits_false by (try lia; exact Hne). apply andb_false_r.
Qed.

Lemma flag_bit mode mode' k letter :
  0 <= k -> letter <> "-"%char ->
  flag mode (2 ^ k) letter = flag mode' (2 ^ k) letter ->
  Z.testbit mode k = Z.testbit mode' k.
Proof.
  intros Hk Hl. unfold flag. rewrite !land_pow2_zero by exact Hk.
  destruct (Z.testbit mode k), (Z.testbit mode' k); simpl; congruence.
Qed.

Lemma bit_flag mode mode' k letter :
  0 <= k -> Z.testbit mode k = Z.testbit mode' k ->
  flag mode (2 ^ k) letter = flag mode' (2 ^ k) letter.
Proof.
  intros Hk H. unfold flag. rewrite !land_pow2_zero by exact Hk. now rewrite H.
Qed.

(** The string has nine characters and shows exactly the low nine bits
    of the mode: two modes give the same string exactly when these bits
    agree. *)
Theorem format_permissions_shows_low_bits (mode mode' : Z) :
  String.length (_format_permissions mode) = 9%nat /\
  (_format_permissions mode = _format_permissions mode' <->
   Z.land mode 511 = Z.land mode' 511).
Proof.
  split; [reflexivity|]. split.
  - intros H. unfold _format_permissions in H.
    cbn [string_of_list_ascii] in H.
    injection H as H8 H7 H6 H5 H4 H3 H2 H1 H0.
    apply (flag_bit _ _ 8) in H8; [|lia|discriminate].
    apply (flag_bit _ _ 7) in H7; [|lia|discriminate].
    apply (flag_bit _ _ 6) in H6; [|lia|discriminate].
    apply (flag_bit _ _ 5) in H5; [|lia|discriminate].
    apply (flag_bit _ _ 4) in H4; [|lia|discriminate].
    apply (flag_bit _ _ 3) in H3; [|lia|discriminate].
    apply (flag_bit _ _ 2) in H2; [|lia|discriminate].
    apply (flag_bit _ _ 1) in H1; [|lia|discriminate].
    apply (flag_bit _ _ 0) in H0; [|lia|discriminate].
    apply Z.bits_inj'. intros n Hn. rewrite !Z.land_spec.
    change 511 with (Z.ones 9).
    destruct (Z_lt_dec n 9) as [Hlt | Hge].
    + assert (n = 0 \/ n = 1 \/ n = 2 \/ n = 3 \/ n = 4 \/ n = 5 \/ n = 6 \/
              n = 7 \/ n = 8) as Hcase by lia.
      repeat destruct Hcase as [-> | Hcase]; try subst n; congruence.
    + rewrite Z.ones_spec_high by lia. now rewrite !andb_false_r.
  - intros H.
    assert (Hbit : forall k, 0 <= k < 9 -> Z.testbit mode k = Z.testbit mode' k).
    { intros k Hk. apply (f_equal (fun z => Z.testbit z k)) in H.
      rewrite !Z.land_spec in H. change 511 with (Z.ones 9) in H.
      rewrite Z.ones_spec_low in H by lia. now rewrite !andb_true_r in H. }
    unfold _format_permissions.
    rewrite (bit_flag mode mode' 8), (bit_flag mode mode' 7), (bit_flag mode mode' 6),
      (bit_flag mode mode' 5), (bit_flag mode mode' 4), (bit_flag mode mode' 3),
      (bit_flag mode mode' 2), (bit_flag mode mode' 1), (bit_flag mode mode' 0);
      try reflexivity; try lia; apply Hbit; lia.
Qed.

End PermissionFacts.

(** ** The audit log *)

Module LoggerFacts.

Import Logger.

Lemma add_to_audit_known lvl msg s :
  lvl ∈ ["INFO"; "WARNING"; "ERROR"; "DEBUG"; "CRITICAL"] ->
  Forall known_level (audit_log s) ->
  Forall known_level (audit_log (_add_to_audit lvl msg s)).
Proof.
  intros Hl Hs. simpl. apply Forall_app. split; [exact Hs|].
  constructor; [exact Hl | constructor].
Qed.

Lemma log_debug_fold_known files : forall s,
  Forall known_level (audit_log s) ->
  Forall known_level
    (audit_log (fold_left (fun s file_path => log_debug ("  Selected: " ++ file_path) s)
                  files s)).
Proof.
  induction files as [|f files IH]; intros s Hs; [exact Hs|]. simpl.
  apply IH, add_to_audit_known; [set_solver | exact Hs].
Qed.

Lemma perform_known s c :
  Forall known_level (audit_log s) -> Forall known_level (audit_log (perform s c)).
Proof.
  intros Hs. destruct c; cbn [perform];
    try (apply add_to_audit_known; [set_solver | exact Hs]).
  - unfold log_user_selection. cbv zeta.
    destruct (10 <? length selected_files)%nat.
    + apply add_to_audit_known; [set_solver|].
      apply log_debug_fold_known, add_to_audit_known; [set_solver | exact Hs].
    + apply log_debug_fold_known, add_to_audit_known; [set_solver | exact Hs].
  - unfold clear_audit_log.
    apply (add_to_audit_known "INFO"); [set_solver | constructor].
Qed.

Lemma calls_known clock calls :
  Forall known_level (audit_log (fold_left perform calls (init clock))).
Proof.
  assert (H : forall s, Forall known_level (audit_log s) ->
                        Forall known_level (audit_log (fold_left perform calls s))).
  { induction calls as [|c calls IH]; intros s Hs; [exact Hs|].
    simpl. apply IH, perform_known, Hs. }
  apply H. constructor.
Qed.

Ltac counters_solve :=
  unfold counters;
  repeat split;
  repeat first [ rewrite lookup_insert_eq | rewrite lookup_insert_ne by discriminate ];
  first [ assumption | reflexivity | f_equal; lia ].

Lemma count_entries log : forall stats i w e d c t,
  Forall known_level log -> counters stats i w e d c t ->
  exists i' w' e' d' c',
    counters (fold_left count_entry log stats) i' w' e' d' c' t /\
    i <= i' /\ w <= w' /\ e <= e' /\ d <= d' /\ c <= c' /\
    i' + w' + e' + d' + c' = i + w + e + d + c + Z.of_nat (length log).
Proof.
  induction log as [|x log IH]; intros stats i w e d c t Hl Hc.
  - exists i, w, e, d, c. split; [exact Hc | simpl; lia].
  - inversion Hl as [|? ? Hx Hrest]; subst. simpl fold_left.
    destruct Hc as (Hi & Hw & He & Hd & Hcr & Ht).
    unfold known_level in Hx. unfold count_entry at 2.
    repeat (apply elem_of_cons in Hx as [-> | Hx]).
    + rewrite Hi.
      destruct (IH (<["INFO" := i + 1]> stats) (i + 1) w e d c t Hrest)
        as (i' & w' & e' & d' & c' & Hc' & Hsum); [counters_solve|].
      exists i', w', e', d', c'. split; [exact Hc'|]. simpl length. lia.
    + rewrite Hw.
      destruct (IH (<["WARNING" := w + 1]> stats) i (w + 1) e d c t Hrest)
        as (i' & w' & e' & d' & c' & Hc' & Hsum); [counters_solve|].
      exists i', w', e', d', c'. split; [exact Hc'|]. simpl length. lia.
    + rewrite He.
      destruct (IH (<["ERROR" := e + 1]> stats) i w (e + 1) d c t Hrest)
        as (i' & w' & e' & d' & c' & Hc' & Hsum); [counters_solve|].
      exists i', w', e', d', c'. split; [exact Hc'|]. simpl length. lia.
    + rewrite Hd.
      destruct (IH (<["DEBUG" := d + 1]> stats) i w e (d + 1) c t Hrest)
        as (i' & w' & e' & d' & c' & Hc' & Hsum); [counters_solve|].
      exists i', w', e', d', c'. split; [exact Hc'|]. simpl length. lia.
    + rewrite Hcr.
      destruct (IH (<["CRITICAL" := c + 1]> stats) i w e d (c + 1) t Hrest)
        as (i' & w' & e' & d' & c' & Hc' & Hsum); [counters_solve|].
      exists i', w', e', d', c'. split; [exact Hc'|]. simpl length. lia.
    + inversion Hx.
Qed.

(** Whatever the public methods called on a new logger, the statistics
    add up: [TOTAL] is the number of entries of the audit log, and the
    five level counters sum to it. *)
Theorem statistics_add_up (clock : nat -> datetime) (calls : list call) :
  let s := fold_left perform calls (init clock) in
  exists i w e d c,
    counters (get_statistics s) i w e d c (Z.of_nat (length (audit_log s))) /\
    0 <= i /\ 0 <= w /\ 0 <= e /\ 0 <= d /\ 0 <= c /\
    i + w + e + d + c = Z.of_nat (length (audit_log s)).
Proof.
  cbv zeta. set (s := fold_left perform calls (init clock)).
  unfold get_statistics.
  match goal with
  | |- context [fold_left count_entry _ ?stats] =>
      destruct (count_entries (audit_log s) stats 0 0 0 0 0
                  (Z.of_nat (length (audit_log s))) (calls_known clock calls))
        as (i & w & e & d & c & Hc & Hsum); [counters_solve|]
  end.
  exists i, w, e, d, c. split; [exact Hc | lia].
Qed.

End LoggerFacts.

(** ** Instances *)

Lemma wipe_file_refuses_once_cancelled_witness :
  let run := wipe_file "/data/note.txt" "clear" None
               (set_cancel true (calm small_file)) in
  returned run "success" = Some (JBool false) /\
  (exists msg, returned run "error" = Some (JStr msg) /\
     (faults (set_cancel true (calm small_file))
        (S (ticks (set_cancel true (calm small_file)))) = false ->
      exists_in (fs (set_cancel true (calm small_file))) "/data/note.txt" = true ->
      msg = "Operation cancelled")) /\
  fs run.2 = fs (set_cancel true (calm small_file)) /\
  trace run.2 = trace (set_cancel true (calm small_file)) /\
  cancel_requested run.2 = true.
Proof.
  apply (CancelFacts.wipe_file_refuses_once_cancelled "/data/note.txt" "clear" None
           (set_cancel true (calm small_file))).
  reflexivity.
Defined.

Lemma wipe_selection_skips_all_once_cancelled_witness :
  let run := wipe_selection ["/data/a.txt"; "/data/b.txt"] "clear" None
               (set_cancel true (calm two_files)) in
  returned run "successful" = Some (JInt 0) /\
  returned run "failed" = Some (JInt 0) /\
  returned run "skipped" = Some (JInt 2) /\
  returned run "files" = Some (JList []) /\
  fs run.2 = fs (set_cancel true (calm two_files)) /\
  trace run.2 = trace (set_cancel true (calm two_files)) /\
  cancel_requested run.2 = true.
Proof.
  apply (CancelFacts.wipe_selection_skips_all_once_cancelled
           ["/data/a.txt"; "/data/b.txt"] "clear" None
           (set_cancel true (calm two_files))).
  reflexivity.
Defined.



Lemma wipe_file_rejects_other_spellings_witness :
  let run := wipe_file "/data/note.txt" "CLEAR" None (calm small_file) in
  returned run "success" = Some (JBool false) /\
  fs run.2 = fs (calm small_file) /\ trace run.2 = trace (calm small_file) /\
  (faults (calm small_file) (S (ticks (calm small_file))) = false ->
   faults (calm small_file) (S (S (ticks (calm small_file)))) = false ->
   exists_in (fs (calm small_file)) "/data/note.txt" = true ->
   cancel_requested (calm small_file) = false ->
   returned run "error" = Some (JStr "Unknown method: CLEAR")).
Proof.
  apply (MethodFacts.wipe_file_rejects_other_spellings "/data/note.txt" "CLEAR"
           None (calm small_file)).
  - vm_compute. reflexivity.
  - vm_compute. discriminate.
Defined.

Lemma keyed_certificate_round_trip_witness :
  (CertificateManager.verify_certificate tagged_library "cert.json"
     (CertificateManager.generate_wipe_certificate tagged_library one_file_batch
        (Some "cert.json") keyed_tagged).2).1 = Ok true.
Proof.
  apply (RoundTripFacts.keyed_certificate_round_trip tagged_library tt
           one_file_batch (Some "cert.json") keyed_tagged _ "cert.json").
  - split; [|split; [reflexivity | discriminate]].
    intros t msg. eexists. split; [reflexivity|]. split; [discriminate|].
    simpl. rewrite string_of_list_byte_of_string. apply String.eqb_refl.
  - reflexivity.
  - reflexivity.
  - rewrite (surjective_pairing (CertificateManager.generate_wipe_certificate _ _ _ _))
      at 1.
    apply (f_equal (fun r => (r, _))). vm_compute. reflexivity.
  - vm_compute. reflexivity.
Defined.

Lemma certificate_lists_the_first_1000_files_witness :
  exists cert_data results,
    CertificateManager.docs toy_library
      (CertificateManager.generate_wipe_certificate toy_library large_batch
         (Some "cert.json") keyed).2 !! "cert.json" = Some (JDict cert_data) /\
    take 1000 (replicate 1000 (wiped "/data/a.txt") ++ [wiped "/data/last.txt"])
      = JDict <$> results /\
    cert_data !! "files" = Some (JList (listed <$> results)) /\
    length results
      = Nat.min 1000
          (length (replicate 1000 (wiped "/data/a.txt") ++ [wiped "/data/last.txt"])).
Proof.
  apply (RoundTripFacts.certificate_lists_the_first_1000_files toy_library
           large_batch (Some "cert.json") keyed _ "cert.json"
           (replicate 1000 (wiped "/data/a.txt") ++ [wiped "/data/last.txt"])).
  - unfold large_batch. now rewrite !lookup_insert_ne, lookup_insert_eq by discriminate.
  - rewrite (surjective_pairing (CertificateManager.generate_wipe_certificate _ _ _ _))
      at 1.
    apply (f_equal (fun r => (r, _))). vm_compute. reflexivity.
Defined.

